(** * Birth-certificate field extraction (birth_cert_intl.py)

    A shallow embedding of the extraction core of [birth_cert_intl.py]:
    [get_stato_from_vertical_boxes], [extract_seal_footer], [map_exonyms],
    [extract_table_fields] and [extract_comune_sezione], together with the
    fragments of the Python runtime they rely on ([str] methods and the
    handful of regular expressions the module compiles).

    Conventions.
    - A Python [str] is a list of Unicode code points ([pystr]).
    - A Textract block is a record; the dictionary keys the code reads with
      [b["key"]] and that may be absent are [option] fields.
    - A function that can raise ([KeyError], [IndexError]) returns [option];
      [None] stands for the exception reaching the caller.
    - Coordinates are numbers of an abstract type [num] (class [Number]);
      [binary64] is the instance CPython computes with, [rational] an exact
      one.
    - The character tables ([isalnum], [isdecimal], case mappings, ...) are
      written out on U+0000..U+00FF, which holds the Albanian and Italian
      alphabets, and on the seven code points outside that range whose
      simple lower-case mapping lands inside it.  On every other code
      point they are those of the Unicode database the interpreter was
      built with, a parameter of the development (class [Unicode]): every
      theorem holds whatever that database says there.  [latin1], which
      treats these code points as caseless symbols, is the instance the
      examples are computed with; they only use characters of the table.
    - [sorted] is modelled by a stable insertion sort: it is the result of
      [sorted] whenever the keys are comparable (no NaN), which is what
      the statement about the order of the labels assumes. *)

From Stdlib Require Import ZArith NArith QArith Qabs Lia Bool.
From Stdlib Require Import Strings.String Strings.Ascii Sorting.Sorted.
From Stdlib Require Import Floats.PrimFloat Floats.SpecFloat Floats.FloatOps.
From Stdlib Require Import Floats.FloatAxioms.
From stdpp Require Import base option list gmap.

Local Close Scope Q_scope.
Local Open Scope N_scope.

(** ** Python strings *)

Module PyStr.

Abbreviation char := N.
Abbreviation pystr := (list N).

(** UTF-8 decoding, used only to write string literals of the source. *)
Fixpoint utf8_go (pending : nat) (acc : N) (bs : list N) : pystr :=
  match bs with
  | [] => []
  | b :: bs' =>
      match pending with
      | S k =>
          let acc' := acc * 64 + b mod 64 in
          match k with
          | O => acc' :: utf8_go 0 0 bs'
          | S _ => utf8_go k acc' bs'
          end
      | O =>
          if b <? 128 then b :: utf8_go 0 0 bs'
          else if b <? 224 then utf8_go 1 (b mod 32) bs'
          else if b <? 240 then utf8_go 2 (b mod 16) bs'
          else utf8_go 3 (b mod 8) bs'
      end
  end.

Definition py (s : string) : pystr :=
  utf8_go 0 0 (List.map (fun b => N_of_ascii b) (list_ascii_of_string s)).

Definition in_range (lo hi c : N) : bool := (lo <=? c) && (c <=? hi).

(** [Py_UNICODE_ISSPACE]: what [str.strip()] removes and [\s] matches. *)
Definition isspace (c : char) : bool :=
  in_range 9 13 c || in_range 28 32 c || (c =? 133) || (c =? 160)
  || (c =? 5760) || in_range 8192 8202 c || (c =? 8232) || (c =? 8233)
  || (c =? 8239) || (c =? 8287) || (c =? 12288).

(** The code points whose entries of the Unicode database are written out
    below: U+0000..U+00FF and U+0130, U+0131, U+0178, U+017F, U+1E9E,
    U+212A, U+212B. *)
Definition in_table (c : char) : bool :=
  (c <=? 255) || (c =? 304) || (c =? 305) || (c =? 376) || (c =? 383)
  || (c =? 7838) || (c =? 8490) || (c =? 8491).

(** The Unicode database outside that table.  [uni_lower] is the full
    lower-case mapping of a character in its context, the characters
    before and after it (the final-sigma rule of [str.lower] reads both). *)
Class Unicode := {
  uni_isdecimal : char -> bool;
  uni_isalnum : char -> bool;
  uni_iscased : char -> bool;
  uni_upper : char -> pystr;
  uni_title : char -> pystr;
  uni_lower : pystr -> char -> pystr -> pystr
}.

Section Tables.

Context {U : Unicode}.

(** [Py_UNICODE_ISDECIMAL]: what [\d] matches. *)
Definition isdecimal (c : char) : bool :=
  in_range 48 57 c || (negb (in_table c) && uni_isdecimal c).

(** [Py_UNICODE_ISALNUM]. *)
Definition isalnum (c : char) : bool :=
  in_range 48 57 c || in_range 65 90 c || in_range 97 122 c
  || (c =? 170) || (c =? 178) || (c =? 179) || (c =? 181)
  || in_range 185 186 c || in_range 188 190 c
  || in_range 192 214 c || in_range 216 246 c || in_range 248 255 c
  || (c =? 304) || (c =? 305) || (c =? 376) || (c =? 383)
  || (c =? 7838) || (c =? 8490) || (c =? 8491)
  || (negb (in_table c) && uni_isalnum c).

(** [\w] of a [str] pattern. *)
Definition isword (c : char) : bool := isalnum c || (c =? 95).

(** [_PyUnicode_IsCased]. *)
Definition iscased (c : char) : bool :=
  in_range 65 90 c || in_range 97 122 c
  || (c =? 170) || (c =? 181) || (c =? 186)
  || in_range 192 214 c || in_range 216 246 c || in_range 248 255 c
  || (c =? 304) || (c =? 305) || (c =? 376) || (c =? 383)
  || (c =? 7838) || (c =? 8490) || (c =? 8491)
  || (negb (in_table c) && uni_iscased c).

(** Simple lower-case mapping ([Py_UNICODE_TOLOWER]) as the regular
    expressions of the module use it, one code point to one: no character
    outside the table is a case variant of a letter of their patterns. *)
Definition tolower (c : char) : char :=
  if in_range 65 90 c then c + 32
  else if in_range 192 222 c && negb (c =? 215) then c + 32
  else if c =? 304 then 105
  else if c =? 376 then 255
  else if c =? 7838 then 223
  else if c =? 8490 then 107
  else if c =? 8491 then 229
  else c.

(** Full case mappings, one code point to possibly several.  The mapping
    of a character of the table does not depend on its context. *)
Definition lower_char (before : pystr) (c : char) (after : pystr) : pystr :=
  if negb (in_table c) then uni_lower before c after
  else if c =? 304 then [105; 775] else [tolower c].

Definition upper_char (c : char) : pystr :=
  if negb (in_table c) then uni_upper c
  else if in_range 97 122 c then [c - 32]
  else if in_range 224 254 c && negb (c =? 247) then [c - 32]
  else if c =? 223 then [83; 83]
  else if c =? 255 then [376]
  else if c =? 181 then [924]
  else if c =? 305 then [73]
  else if c =? 383 then [83]
  else [c].

Definition title_char (c : char) : pystr :=
  if negb (in_table c) then uni_title c
  else if c =? 223 then [83; 115] else upper_char c.

(** [str.lower()]: every character is mapped in its context. *)
Fixpoint lower_go (before s : pystr) : pystr :=
  match s with
  | [] => []
  | c :: s' => lower_char before c s' ++ lower_go (before ++ [c]) s'
  end.

Definition lower (s : pystr) : pystr := lower_go [] s.

(** [str.upper()]. *)
Definition upper (s : pystr) : pystr := flat_map upper_char s.

(** [str.title()]: a character is title-cased when the previous one is not
    cased, lower-cased (in its context) otherwise. *)
Fixpoint title_go (previous_is_cased : bool) (before s : pystr) : pystr :=
  match s with
  | [] => []
  | c :: s' =>
      (if previous_is_cased then lower_char before c s' else title_char c)
        ++ title_go (iscased c) (before ++ [c]) s'
  end.

Definition title (s : pystr) : pystr := title_go false [] s.

Fixpoint dropwhile (p : char -> bool) (s : pystr) : pystr :=
  match s with
  | [] => []
  | c :: s' => if p c then dropwhile p s' else s
  end.

Fixpoint takewhile (p : char -> bool) (s : pystr) : pystr :=
  match s with
  | [] => []
  | c :: s' => if p c then c :: takewhile p s' else []
  end.

(** [str.strip()]. *)
Definition lstrip (s : pystr) : pystr := dropwhile isspace s.
Definition strip (s : pystr) : pystr := rev (lstrip (rev (lstrip s))).

Definition str_eqb (a b : pystr) : bool := bool_decide (a = b).

(** [s.startswith(p)]. *)
Fixpoint startswith (p s : pystr) : bool :=
  match p, s with
  | [], _ => true
  | _ :: _, [] => false
  | a :: p', b :: s' => (a =? b) && startswith p' s'
  end.

(** [needle in hay]. *)
Fixpoint contains (needle hay : pystr) : bool :=
  startswith needle hay
  || match hay with
     | [] => false
     | _ :: hay' => contains needle hay'
     end.

(** [s.replace(old, new)] for a non-empty [old]: occurrences are replaced
    left to right, without overlap.  [skip] counts the characters of an
    occurrence still to be consumed. *)
Fixpoint replace_go (old new : pystr) (skip : nat) (s : pystr) : pystr :=
  match s with
  | [] => []
  | c :: s' =>
      match skip with
      | S k => replace_go old new k s'
      | O =>
          if startswith old s
          then new ++ replace_go old new (length old - 1) s'
          else c :: replace_go old new 0 s'
      end
  end.

Definition replace (old new s : pystr) : pystr := replace_go old new 0 s.

(** [sep.join(parts)]. *)
Fixpoint join (sep : pystr) (parts : list pystr) : pystr :=
  match parts with
  | [] => []
  | [p] => p
  | p :: rest => p ++ sep ++ join sep rest
  end.

(** [s.split(sep, 1)[1]]: what follows the first occurrence of [sep];
    [None] is the [IndexError] raised when [sep] does not occur. *)
Fixpoint split_after (sep s : pystr) : option pystr :=
  if startswith sep s then Some (drop (length sep) s)
  else match s with
       | [] => None
       | _ :: s' => split_after sep s'
       end.

(** Truth value of a string: non-empty. *)
Definition truthy (s : pystr) : bool :=
  match s with [] => false | _ :: _ => true end.

End Tables.

(** The instance the examples are computed with. *)
Definition latin1 : Unicode := {|
  uni_isdecimal := fun _ => false;
  uni_isalnum := fun _ => false;
  uni_iscased := fun _ => false;
  uni_upper := fun c => [c];
  uni_title := fun c => [c];
  uni_lower := fun _ c _ => [c]
|}.

End PyStr.
Import PyStr.

#[global] Existing Instance latin1 | 100.

(** ** Regular expressions

    The patterns of the module are fixed-length sequences of character
    classes, possibly between two [\b] assertions ([pattern]), or are
    matched by a dedicated function next to their use. *)

Module Re.

Section Patterns.

Context {U : Unicode}.

Definition cls := char -> bool.

Record pattern := {
  wb_before : bool;      (* the pattern starts with \b *)
  body : list cls;       (* one class per consumed character *)
  wb_after : bool        (* the pattern ends with \b *)
}.

(** [_ignorecase_fixes] of [sre_compile]: code points that are case variants
    of each other although their lower-case mappings differ (the entries
    on Latin letters). *)
Definition ignorecase_fixes (lo : char) : list char :=
  if lo =? 105 then [305]
  else if lo =? 305 then [105]
  else if lo =? 115 then [383]
  else if lo =? 383 then [115]
  else if lo =? 181 then [956]
  else if lo =? 956 then [181]
  else [].

(** A literal. *)
Definition lit (c : char) : cls := fun ch => ch =? c.

(** A literal under [re.IGNORECASE]: the lower-cased subject character is
    looked up in the set holding the lower-cased literal and its fixes. *)
Definition ci_lit (c : char) : cls := fun ch =>
  let lo := tolower c in
  existsb (N.eqb (tolower ch)) (lo :: ignorecase_fixes lo).

(** A set [[...]] under [re.IGNORECASE]. *)
Definition ci_set (cs : list char) : cls := fun ch =>
  existsb (fun c => ci_lit c ch) cs.

(** [.] without [re.DOTALL]. *)
Definition dot : cls := fun ch => negb (ch =? 10).

Fixpoint match_seq (ps : list cls) (s : pystr) : bool :=
  match ps, s with
  | [], _ => true
  | _ :: _, [] => false
  | p :: ps', c :: s' => p c && match_seq ps' s'
  end.

Definition opt_isword (c : option char) : bool :=
  match c with Some c => isword c | None => false end.

(** [\b] between the character before the position and the one after. *)
Definition at_boundary (prev next : option char) : bool :=
  xorb (opt_isword prev) (opt_isword next).

(** Does [p] match at a position, [prev] being the character before it and
    [s] the subject from the position on? *)
Definition match_at (p : pattern) (prev : option char) (s : pystr) : bool :=
  (negb (wb_before p) || at_boundary prev (head s))
  && match_seq (body p) s
  && (negb (wb_after p)
      || at_boundary (last (take (length (body p)) s))
                     (head (drop (length (body p)) s))).

(** [re.search(p, s)] as a truth value, from a position on. *)
Fixpoint search_go (p : pattern) (prev : option char) (s : pystr) : bool :=
  match_at p prev s
  || match s with
     | [] => false
     | c :: s' => search_go p (Some c) s'
     end.

Definition search (p : pattern) (s : pystr) : bool := search_go p None s.

(** [re.sub(p, repl, s)] for a pattern with a non-empty body: the matches
    are found left to right, without overlap.  [skip] counts the characters
    of a match still to be consumed. *)
Fixpoint sub_go (p : pattern) (repl : pystr) (skip : nat)
    (prev : option char) (s : pystr) : pystr :=
  match s with
  | [] => []
  | c :: s' =>
      match skip with
      | S k => sub_go p repl k (Some c) s'
      | O =>
          if match_at p prev s
          then repl ++ sub_go p repl (length (body p) - 1) (Some c) s'
          else c :: sub_go p repl 0 (Some c) s'
      end
  end.

Definition sub (p : pattern) (repl s : pystr) : pystr := sub_go p repl 0 None s.

End Patterns.

End Re.
Import Re.

(** ** Numbers

    The arithmetic the checkbox resolver performs on bounding boxes:
    [a + b], [a / 2], [a - b], [abs(a)] and [a < b]. *)

Class Number := {
  num : Type;
  num_add : num -> num -> num;
  num_half : num -> num;
  num_sub : num -> num -> num;
  num_abs : num -> num;
  num_lt : num -> num -> bool
}.

(** [<] is a strict weak order on the comparable numbers [ok]: every
    rational, and every float that is not a NaN. *)
Class NumberOrder (R : Number) (ok : num -> bool) : Prop := {
  num_lt_irrefl : forall a : num, num_lt a a = false;
  num_lt_trans : forall a b c : num,
      num_lt a b = true -> num_lt b c = true -> num_lt a c = true;
  num_lt_cotrans : forall a b c : num,
      ok c = true ->
      num_lt a b = true -> num_lt a c = true \/ num_lt c b = true
}.

(** IEEE 754 binary64, the [float] of CPython. *)
Definition binary64 : Number := {|
  num := float;
  num_add := PrimFloat.add;
  num_half := fun x => PrimFloat.div x 2%float;
  num_sub := PrimFloat.sub;
  num_abs := PrimFloat.abs;
  num_lt := PrimFloat.ltb
|}.

(** The comparable floats. *)
Definition not_nan (x : float) : bool := negb (PrimFloat.is_nan x).

(** The order of the floats that are not NaN, read on their specification:
    a key per float, compared lexicographically. *)
Definition sf_nan (x : spec_float) : bool :=
  match x with S754_nan => true | _ => false end.

Definition sf_key (x : spec_float) : Z * Z * Z :=
  match x with
  | S754_zero _ | S754_nan => (0, 0, 0)
  | S754_infinity true => (-2, 0, 0)
  | S754_infinity false => (2, 0, 0)
  | S754_finite true m e => (-1, - e, - Zpos m)
  | S754_finite false m e => (1, e, Zpos m)
  end%Z.

Definition lex_lt (a b : Z * Z * Z) : Prop :=
  (fst (fst a) < fst (fst b)
   \/ (fst (fst a) = fst (fst b)
       /\ (snd (fst a) < snd (fst b)
           \/ (snd (fst a) = snd (fst b) /\ snd a < snd b))))%Z.

Definition Qltb (a b : Q) : bool := (Qnum a * QDen b <? Qnum b * QDen a)%Z.

(** Exact rational arithmetic. *)
Definition rational : Number := {|
  num := Q;
  num_add := Qplus;
  num_half := fun x => Qdiv x (2 # 1);
  num_sub := Qminus;
  num_abs := Qabs.Qabs;
  num_lt := Qltb
|}.

(** Every rational is comparable. *)
Definition any_rational (q : Q) : bool := true.

(** ** OCR blocks *)

Section Model.

Context {R : Number} {U : Unicode}.

Record BoundingBox := {
  Top : num;
  Height : num;
  Left : num;
  Width : num
}.

Record Relationship := {
  RelType : pystr;        (* rel["Type"] *)
  Ids : list pystr        (* rel["Ids"] *)
}.

(** A block of the OCR result.  [Geometry] is [b["Geometry"]["BoundingBox"]]. *)
Record Block := {
  Id : pystr;
  BlockType : pystr;
  Text : option pystr;
  Geometry : option BoundingBox;
  RowIndex : option Z;
  ColumnIndex : option Z;
  Relationships : option (list Relationship)
}.

Definition WORD : pystr := Eval vm_compute in py "WORD".
Definition LINE : pystr := Eval vm_compute in py "LINE".
Definition TABLE : pystr := Eval vm_compute in py "TABLE".
Definition CELL : pystr := Eval vm_compute in py "CELL".
Definition CHILD : pystr := Eval vm_compute in py "CHILD".

(** [bmap = {b["Id"]: b for b in blocks}] of the main flow. *)
Definition block_map (blocks : list Block) : gmap pystr Block :=
  fold_left (fun m b => <[Id b := b]> m) blocks ∅.

(** ** Checkbox resolver *)

Definition fragments : list (pystr * nat) := Eval vm_compute in
  [ (py "beqar", 0%nat); (py "martu", 1%nat);
    (py "shkuror", 2%nat); (py "vedov", 3%nat) ].

Definition male : list pystr := Eval vm_compute in
  [ py "Celibe"; py "Coniugato"; py "Divorziato"; py "Vedovo" ].
Definition female : list pystr := Eval vm_compute in
  [ py "Nubile"; py "Coniugata"; py "Divorziata"; py "Vedova" ].

Definition UNRESOLVED : pystr := Eval vm_compute in py "[X] Stato non riconosciuto".

(** [bb["Top"] + bb["Height"]/2] *)
Definition centre_y (bb : BoundingBox) : num :=
  num_add (Top bb) (num_half (Height bb)).

(** [centres] is a dict; its items are kept in insertion order. *)
Definition has_key (idx : nat) (centres : list (nat * num)) : bool :=
  existsb (fun p => Nat.eqb (fst p) idx) centres.

(** The inner loop [for frag, idx in fragments] on one WORD block. *)
Fixpoint record_fragments (w : Block) (text_low : pystr)
    (frs : list (pystr * nat)) (centres : list (nat * num))
  : option (list (nat * num)) :=
  match frs with
  | [] => Some centres
  | (frag, idx) :: frs' =>
      if contains frag text_low && negb (has_key idx centres)
      then bb ← Geometry w;
           record_fragments w text_low frs' (centres ++ [(idx, centre_y bb)])
      else record_fragments w text_low frs' centres
  end.

(** The loop [for w in blocks] that fills [centres]. *)
Fixpoint locate_centres (blocks : list Block) (centres : list (nat * num))
  : option (list (nat * num)) :=
  match blocks with
  | [] => Some centres
  | w :: rest =>
      if negb (str_eqb (BlockType w) WORD) then locate_centres rest centres
      else text ← Text w;
           centres' ← record_fragments w (lower (strip text)) fragments centres;
           locate_centres rest centres'
  end.

(** [sorted(items, key=lambda p: p[1])]: a stable sort that compares keys
    with [<] only, written as an insertion sort.  Whenever [<] is a strict
    weak order on the keys (no NaN among them) a sorted, stable permutation
    is unique, so this is the list [sorted] returns. *)
Fixpoint insert_by_y (p : nat * num) (l : list (nat * num)) : list (nat * num) :=
  match l with
  | [] => [p]
  | q :: l' => if num_lt (snd p) (snd q) then p :: l else q :: insert_by_y p l'
  end.

Definition sorted_by_y (l : list (nat * num)) : list (nat * num) :=
  fold_left (fun acc p => insert_by_y p acc) l [].

(** [min(items, key=...)]: the first item is kept until a later one has a
    strictly smaller key; [None] is the [ValueError] on an empty sequence. *)
Fixpoint min_go {A} (key : A -> num) (best : A) (l : list A) : A :=
  match l with
  | [] => best
  | p :: l' => min_go key (if num_lt (key p) (key best) then p else best) l'
  end.

Definition py_min {A} (key : A -> num) (l : list A) : option A :=
  match l with
  | [] => None
  | p :: l' => Some (min_go key p l')
  end.

Definition X_MARKS : list pystr := Eval vm_compute in [ py "x"; py "x."; py "x," ].

Definition is_x_mark (text : pystr) : bool :=
  existsb (str_eqb (lower (strip text))) X_MARKS.

(** [next((w for w in blocks if ...), None)] *)
Fixpoint find_x_block (blocks : list Block) : option (option Block) :=
  match blocks with
  | [] => Some None
  | w :: rest =>
      if str_eqb (BlockType w) WORD
      then text ← Text w;
           if is_x_mark text then Some (Some w) else find_x_block rest
      else find_x_block rest
  end.

Definition SLASH : pystr := Eval vm_compute in py " / ".

Definition get_stato_from_vertical_boxes (blocks : list Block)
    (bmap : gmap pystr Block) (gender : pystr) : option pystr :=
  centres ← locate_centres blocks [];
  if (length centres <? 4)%nat then Some UNRESOLVED
  else
    let ordered := sorted_by_y centres in
    x_block ← find_x_block blocks;
    match x_block with
    | None => Some UNRESOLVED
    | Some xb =>
        bbx ← Geometry xb;
        let x_centre_y := centre_y bbx in
        best ← py_min (fun p => num_abs (num_sub (snd p) x_centre_y)) ordered;
        let best_idx := fst best in
        let g := lower gender in
        if startswith [102] g then female !! best_idx       (* "f" *)
        else if startswith [109] g then male !! best_idx    (* "m" *)
        else m ← male !! best_idx;
             f ← female !! best_idx;
             Some (m ++ SLASH ++ f)
    end.

(** ** Electronic seal *)

Definition SEAL_MARKER : pystr := Eval vm_compute in py "vulosur elektronikisht".

(** [[b["Text"] for b in blocks if b["BlockType"] == "LINE"]] *)
Definition line_texts (blocks : list Block) : option (list pystr) :=
  mapM Text (filter (fun b => BlockType b = LINE) blocks).

(** [[i for i, t in enumerate(lines) if marker in t.lower()]], counting
    from [i]. *)
Fixpoint marker_indices (i : nat) (lines : list pystr) : list nat :=
  match lines with
  | [] => []
  | t :: rest =>
      if contains SEAL_MARKER (lower t) then i :: marker_indices (S i) rest
      else marker_indices (S i) rest
  end.

(** [\d{4}/\d{2}/\d{2}] *)
Definition DATE_RE : pattern := {|
  wb_before := false;
  body := [ isdecimal; isdecimal; isdecimal; isdecimal; lit 47;
            isdecimal; isdecimal; lit 47; isdecimal; isdecimal ];
  wb_after := false
|}.

(** [re.fullmatch(r"[A-Fa-f0-9]{30,40}", txt)] *)
Definition ishex (c : char) : bool :=
  in_range 65 70 c || in_range 97 102 c || in_range 48 57 c.

Definition fullmatch_hash (txt : pystr) : bool :=
  forallb ishex txt && (30 <=? length txt)%nat && (length txt <=? 40)%nat.

(** [re.sub(r"^(Date|Datë)\s*:?\s*", "", txt, flags=re.I)]: the pattern can
    only match at the start of [txt]. *)
Definition strip_date_label (txt : pystr) : pystr :=
  if match_seq (map ci_lit [68; 97; 116; 101]) txt
     || match_seq (map ci_lit [68; 97; 116; 235]) txt
  then
    let r := dropwhile isspace (drop 4 txt) in
    let r := match r with
             | 58 :: r' => r'
             | _ => r
             end in
    dropwhile isspace r
  else txt.

Definition IN_DATA : pystr := Eval vm_compute in py "In data ".

(** The loop [for raw in lines[start:]] with its [break]. *)
Fixpoint seal_scan (lines : list pystr) (date_line hash_line : pystr)
  : pystr * pystr :=
  match lines with
  | [] => (date_line, hash_line)
  | raw :: rest =>
      let txt := strip raw in
      let '(d, h) :=
        if negb (truthy date_line) && search DATE_RE txt
        then (IN_DATA ++ strip (strip_date_label txt), hash_line)
        else if negb (truthy hash_line) && fullmatch_hash txt
        then (date_line, txt)
        else (date_line, hash_line) in
      if truthy d && truthy h then (d, h) else seal_scan rest d h
  end.

Definition SEAL_HEADER_1 : pystr := Eval vm_compute in py "Timbro elettronico della Direzione".
Definition SEAL_HEADER_2 : pystr := Eval vm_compute in py "Generale dello Stato Civile".

Definition extract_seal_footer (blocks : list Block) : option pystr :=
  lines ← line_texts blocks;
  match marker_indices 0 lines with
  | _ :: start :: _ =>
      let '(date_line, hash_line) := seal_scan (drop start lines) [] [] in
      if negb (truthy date_line && truthy hash_line) then Some []
      else Some (join [10] [SEAL_HEADER_1; SEAL_HEADER_2; date_line; hash_line])
  | _ => Some []
  end.

(** ** Place exonyms *)

Definition word_ci (letters : pystr) (set : pystr) (tail : pystr) : pattern := {|
  wb_before := true;
  body := map ci_lit letters ++ [ci_set set] ++ map ci_lit tail;
  wb_after := true
|}.

Definition EXONYM_RULES : list (pattern * pystr) :=
  [ (word_ci [84; 105; 114; 97; 110] [235; 101] [],
      [84; 105; 114; 97; 110; 97]);                       (* Tiran[ëe] -> Tirana *)
    (word_ci [86; 108; 111; 114] [235; 101] [],
      [86; 97; 108; 111; 110; 97]);                       (* Vlor[ëe] -> Valona *)
    (word_ci [68; 117; 114; 114] [235; 101] [115],
      [68; 117; 114; 97; 122; 122; 111]);                 (* Durr[ëe]s -> Durazzo *)
    (word_ci [83; 104; 107; 111; 100] [235; 101] [114],
      [83; 99; 117; 116; 97; 114; 105]) ].                (* Shkod[ëe]r -> Scutari *)

Definition map_exonyms (text : pystr) : pystr :=
  if negb (truthy text) then text
  else fold_left (fun out rule => sub (fst rule) (snd rule) out) EXONYM_RULES text.

(** ** Table fields *)

(** The generator feeding [" ".join] for one cell: the texts of the WORD
    blocks among the blocks with the given ids. *)
Fixpoint word_texts (bmap : gmap pystr Block) (ids : list pystr)
  : option (list pystr) :=
  match ids with
  | [] => Some []
  | wid :: rest =>
      w ← bmap !! wid;
      if str_eqb (BlockType w) WORD
      then t ← Text w; ts ← word_texts bmap rest; Some (t :: ts)
      else word_texts bmap rest
  end.

Definition cell_text (bmap : gmap pystr Block) (cell : Block) : option pystr :=
  ts ← word_texts bmap (flat_map Ids (default [] (Relationships cell)));
  Some (strip (join [32] ts)).

(** [rows.setdefault(r, {})[c] = txt] *)
Definition set_cell (r c : Z) (txt : pystr) (rows : gmap Z (gmap Z pystr))
  : gmap Z (gmap Z pystr) :=
  <[r := <[c := txt]> (default ∅ (rows !! r))]> rows.

(** [rows.get(r, {}).get(c, "")] *)
Definition get_cell (rows : gmap Z (gmap Z pystr)) (r c : Z) : pystr :=
  default [] (default ∅ (rows !! r) !! c).

(** The loop [for cid in rel["Ids"]]. *)
Fixpoint add_cells (bmap : gmap pystr Block) (ids : list pystr)
    (rows : gmap Z (gmap Z pystr)) : option (gmap Z (gmap Z pystr)) :=
  match ids with
  | [] => Some rows
  | cid :: rest =>
      cell ← bmap !! cid;
      if negb (str_eqb (BlockType cell) CELL) then add_cells bmap rest rows
      else r ← RowIndex cell;
           c ← ColumnIndex cell;
           txt ← cell_text bmap cell;
           add_cells bmap rest (set_cell r c txt rows)
  end.

(** The loop [for rel in tbl.get("Relationships", [])]. *)
Fixpoint add_relationships (bmap : gmap pystr Block) (rels : list Relationship)
    (rows : gmap Z (gmap Z pystr)) : option (gmap Z (gmap Z pystr)) :=
  match rels with
  | [] => Some rows
  | rel :: rest =>
      if negb (str_eqb (RelType rel) CHILD) then add_relationships bmap rest rows
      else rows' ← add_cells bmap (Ids rel) rows;
           add_relationships bmap rest rows'
  end.

(** [next((b for b in blocks if b["BlockType"] == "TABLE"), None)] *)
Definition first_table (blocks : list Block) : option Block :=
  List.find (fun b => str_eqb (BlockType b) TABLE) blocks.

(** [r"Nd."], a regular expression: [.] is any character but a newline. *)
Definition ND_RE : pattern := {|
  wb_before := false;
  body := [lit 78; lit 100; dot];
  wb_after := false
|}.

Definition RESIDENZA_REPLACEMENTS : list (pystr * pystr) := Eval vm_compute in
  [ (py "H.", py "Int.");
    (py "Ap.", py "App.");
    (py "Njësia", py "Sezione");
    (py "Administrative", py "Amministrativa");
    (py "NJËSIA", py "Sezione");
    (py "ADMINISTRATIVE", py "Amministrativa");
    (py "NJESIA", py "Sezione");
    (py "Njesia", py "Sezione") ].

Definition ED : pystr := Eval vm_compute in py "Ed.".

(** [re.sub(r"Nd.", "Ed.", res_raw).replace(...).replace(...)...] *)
Definition clean_residenza (res_raw : pystr) : pystr :=
  fold_left (fun out r => replace (fst r) (snd r) out)
            RESIDENZA_REPLACEMENTS (sub ND_RE ED res_raw).

Definition K_NOME : pystr := Eval vm_compute in py "Nome".
Definition K_COGNOME : pystr := Eval vm_compute in py "Cognome".
Definition K_NUMERO : pystr := Eval vm_compute in py "Numero personale".
Definition K_PADRE : pystr := Eval vm_compute in py "Nome del padre".
Definition K_MADRE : pystr := Eval vm_compute in py "Nome della madre".
Definition K_NASCITA : pystr := Eval vm_compute in py "Data di nascita".
Definition K_LUOGO : pystr := Eval vm_compute in py "Luogo di nascita".
Definition K_RESIDENZA : pystr := Eval vm_compute in py "Residenza".
Definition K_SESSO : pystr := Eval vm_compute in py "Sesso".
Definition K_STATO : pystr := Eval vm_compute in py "Stato Civile".
Definition K_CITTADINANZA : pystr := Eval vm_compute in py "Cittadinanza".
Definition K_COGNOME_PRIMA : pystr := Eval vm_compute in py "Cognome prima del matrimonio".
Definition K_RILASCIO : pystr := Eval vm_compute in py "Data del rilascio".
Definition K_SEAL : pystr := Eval vm_compute in py "ElectronicSeal".

Definition MASCHIO : pystr := Eval vm_compute in py "Maschio".
Definition FEMMINILE : pystr := Eval vm_compute in py "Femminile".
Definition ALBANESE : pystr := Eval vm_compute in py "Albanese".
Definition ALBANIAN_VARIANTS : list pystr := Eval vm_compute in
  [ py "ALB"; py "ALBANIA"; py "SHQIPTARE"; py "SHQIPTAR" ].

(** The [if / elif / else] on [sesso_raw]. *)
Definition sesso_of (sesso_raw : pystr) : pystr :=
  if str_eqb sesso_raw [77] then MASCHIO            (* "M" *)
  else if str_eqb sesso_raw [70] then FEMMINILE     (* "F" *)
  else sesso_raw.

(** [result[k] = map_exonyms(result.get(k, ""))] *)
Definition normalize_place (k : pystr) (result : gmap pystr pystr)
  : gmap pystr pystr :=
  <[k := map_exonyms (default [] (result !! k))]> result.

Definition extract_table_fields (blocks : list Block) (bmap : gmap pystr Block)
  : option (gmap pystr pystr) :=
  match first_table blocks with
  | None => Some ∅
  | Some tbl =>
      rows ← add_relationships bmap (default [] (Relationships tbl)) ∅;
      let res_raw := get_cell rows 9 2 in
      rows ← (if truthy res_raw
              then row9 ← rows !! 9%Z;
                   Some (<[9%Z := <[2%Z := clean_residenza res_raw]> row9]> rows)
              else Some rows);
      let sesso_raw := upper (strip (get_cell rows 10 2)) in
      let sesso_val := sesso_of sesso_raw in
      stato ← get_stato_from_vertical_boxes blocks bmap sesso_val;
      seal ← extract_seal_footer blocks;
      let result : gmap pystr pystr :=
        list_to_map
          [ (K_NOME, get_cell rows 2 2);
            (K_COGNOME, get_cell rows 3 2);
            (K_NUMERO, get_cell rows 4 2);
            (K_PADRE, get_cell rows 5 2);
            (K_MADRE, get_cell rows 6 2);
            (K_NASCITA, get_cell rows 7 2);
            (K_LUOGO, get_cell rows 8 2);
            (K_RESIDENZA, get_cell rows 9 2);
            (K_SESSO, sesso_val);
            (K_STATO, stato);
            (K_CITTADINANZA, get_cell rows 12 2);
            (K_COGNOME_PRIMA, get_cell rows 13 2);
            (K_RILASCIO, get_cell rows 14 2);
            (K_SEAL, seal) ] in
      let result := normalize_place K_RESIDENZA (normalize_place K_LUOGO result) in
      let citt := upper (strip (default [] (result !! K_CITTADINANZA))) in
      if existsb (str_eqb citt) ALBANIAN_VARIANTS
      then Some (<[K_CITTADINANZA := ALBANESE]> result)
      else Some result
  end.

(** ** Header (Comune / Sezione) *)

Definition BASHKIA : pystr := Eval vm_compute in py "Bashkia".
Definition ADMINISTRATIVE : pystr := Eval vm_compute in py "Administrative".
Definition NJESIA_ADMINISTRATIVE_1 : pystr := Eval vm_compute in py "Njësia Administrative".
Definition NJESIA_ADMINISTRATIVE_2 : pystr := Eval vm_compute in py "Njesia Administrative".
Definition NR_MARKERS : list pystr := Eval vm_compute in [ py "nr."; py "nr" ].

(** The class [[A-ZÇËA-Za-zë\-]]. *)
Definition comune_class (c : char) : bool :=
  in_range 65 90 c || (c =? 199) || (c =? 203) || in_range 97 122 c
  || (c =? 235) || (c =? 45).

(** [re.search(r"Bashkia\s+([A-ZÇËA-Za-zë\-]+)", l)], giving [m.group(1)]. *)
Fixpoint search_bashkia (l : pystr) : option pystr :=
  let here :=
    if startswith BASHKIA l then
      let after := drop (length BASHKIA) l in
      let name := dropwhile isspace after in
      if (length name <? length after)%nat && truthy (takewhile comune_class name)
      then Some (takewhile comune_class name)
      else None
    else None in
  match here with
  | Some g => Some g
  | None =>
      match l with
      | [] => None
      | _ :: l' => search_bashkia l'
      end
  end.

(** The loop [for i, l in enumerate(lines)]; [lines[i+1]] is the head of
    what follows [l]. *)
Fixpoint scan_header (lines : list pystr) (comune sezione : pystr)
  : option (pystr * pystr) :=
  match lines with
  | [] => Some (comune, sezione)
  | l :: rest =>
      let comune' :=
        if contains BASHKIA l then
          match search_bashkia l with
          | Some g => title g
          | None => comune
          end
        else comune in
      sezione' ←
        (if contains NJESIA_ADMINISTRATIVE_1 l || contains NJESIA_ADMINISTRATIVE_2 l
         then
           after ← split_after ADMINISTRATIVE l;
           let suf := strip after in
           let suf :=
             if existsb (str_eqb (lower suf)) NR_MARKERS
             then suf ++ [32] ++ default [] (head rest)
             else suf in
           Some (title suf)
         else Some sezione);
      scan_header rest comune' sezione'
  end.

Definition extract_comune_sezione (blocks : list Block) : option (pystr * pystr) :=
  lines ← line_texts blocks;
  cs ← scan_header lines [] [];
  Some (map_exonyms (fst cs), map_exonyms (snd cs)).

(** ** Specification vocabulary

    The notions the statements below are phrased with. *)

(** A WORD block whose trimmed, lower-cased text contains [frag]. *)
Definition is_label (frag : pystr) (w : Block) : bool :=
  str_eqb (BlockType w) WORD
  && from_option (fun t => contains frag (lower (strip t))) false (Text w).

(** The first block, in block order, that carries the label fragment. *)
Definition first_label (frag : pystr) (blocks : list Block) : option Block :=
  List.find (is_label frag) blocks.

(** A WORD block whose trimmed, lower-cased text is "x", "x." or "x,". *)
Definition is_mark (w : Block) : bool :=
  str_eqb (BlockType w) WORD && from_option is_x_mark false (Text w).

Definition first_mark (blocks : list Block) : option Block :=
  List.find is_mark blocks.

(** How many of the four status fragments occur in some WORD block. *)
Definition fragments_found (blocks : list Block) : nat :=
  length (filter (fun fi => is_Some (first_label (fst fi) blocks)) fragments).

(** The vertical centre of a box: top + height/2. *)
Definition vertical_centre (bb : BoundingBox) : num :=
  num_add (Top bb) (num_half (Height bb)).

(** Vertical centre of the first block carrying the label fragment
    numbered [idx], and of the mark. *)
Definition label_centre (idx : nat) (blocks : list Block) : option num :=
  fi ← fragments !! idx;
  w ← first_label (fst fi) blocks;
  vertical_centre <$> Geometry w.

Definition mark_centre (blocks : list Block) : option num :=
  w ← first_mark blocks;
  vertical_centre <$> Geometry w.

(** The thirteen civil-status strings. *)
Definition STATO_VALUES : list pystr :=
  UNRESOLVED :: male ++ female
    ++ zip_with (fun m f => m ++ SLASH ++ f) male female.

Definition first_letter_is (c : char) (s : pystr) : bool :=
  match s with
  | c' :: _ => c' =? c
  | [] => false
  end.

(** The Italian form of status [idx] for a gender string: decided by the
    first letter, "f" (102) or "m" (109), case-insensitively. *)
Definition italian_form (gender : pystr) (idx : nat) : option pystr :=
  if first_letter_is 102 (lower gender) then female !! idx
  else if first_letter_is 109 (lower gender) then male !! idx
  else m ← male !! idx; f ← female !! idx; Some (m ++ SLASH ++ f).

(** The centre recorded for a label index in [centres]. *)
Definition centre_of (idx : nat) (centres : list (nat * num)) : option num :=
  snd <$> List.find (fun p => Nat.eqb (fst p) idx) centres.

(** Does a text contain a fragment numbered [idx]? *)
Definition hits (frs : list (pystr * nat)) (idx : nat) (text : pystr) : bool :=
  existsb (fun fi => Nat.eqb (snd fi) idx && contains (fst fi) text) frs.

Definition hit (idx : nat) (w : Block) : bool :=
  existsb (fun fi => Nat.eqb (snd fi) idx && is_label (fst fi) w) fragments.

(** [abs(p[1] - x_centre_y)], the key of the minimisation. *)
Definition distance_to (x : num) (p : nat * num) : num :=
  num_abs (num_sub (snd p) x).

(** The order [sorted] establishes: no item has a smaller key than an
    item before it. *)
Definition by_y (a b : nat * num) : Prop := num_lt (snd b) (snd a) = false.

(** Items whose key is neither smaller nor greater than [y]; a stable sort
    keeps them in their original order. *)
Definition same_y (y : num) (p : nat * num) : bool :=
  negb (num_lt (snd p) y) && negb (num_lt y (snd p)).

Definition DIVORZIATA : pystr := Eval vm_compute in py "Divorziata".

(** The seal footer, in the words of its description: the text is built
    from the first date line and the first hash line found from the second
    marker line on, and is empty unless all three exist. *)
Definition has_marker (t : pystr) : bool := contains SEAL_MARKER (lower t).
Definition is_date_line (raw : pystr) : bool := search DATE_RE (strip raw).
Definition is_hash_line (raw : pystr) : bool := fullmatch_hash (strip raw).

Definition second_marker (lines : list pystr) : option nat :=
  marker_indices 0 lines !! 1%nat.

Definition seal_date (raw : pystr) : pystr :=
  IN_DATA ++ strip (strip_date_label (strip raw)).

(** What the scanning loop leaves in [date_line] and [hash_line]: a value
    already set is kept, an unset one takes the first matching line. *)
Definition scan_date (lines : list pystr) (d0 : pystr) : pystr :=
  if truthy d0 then d0 else from_option seal_date [] (List.find is_date_line lines).

Definition scan_hash (lines : list pystr) (h0 : pystr) : pystr :=
  if truthy h0 then h0 else from_option strip [] (List.find is_hash_line lines).


Definition seal_text (lines : list pystr) : pystr :=
  match second_marker lines with
  | Some start =>
      match List.find is_date_line (drop start lines),
            List.find is_hash_line (drop start lines) with
      | Some rd, Some rh =>
          SEAL_HEADER_1 ++ [10] ++ SEAL_HEADER_2 ++ [10]
            ++ seal_date rd ++ [10] ++ strip rh
      | _, _ => []
      end
  | None => []
  end.

(** Every WORD block has a text and a bounding box. *)
Definition words_ok (blocks : list Block) : Prop :=
  forall w, w ∈ blocks -> BlockType w = WORD ->
    is_Some (Text w) /\ is_Some (Geometry w).

(** Well-formed OCR input: every relationship id resolves in the block map,
    every CELL block has RowIndex and ColumnIndex, every WORD and LINE block
    has Text, every WORD block has a bounding box. *)
Definition wf_block (bmap : gmap pystr Block) (b : Block) : Prop :=
  (forall rel id, rel ∈ default [] (Relationships b) -> id ∈ Ids rel ->
     is_Some (bmap !! id))
  /\ (BlockType b = CELL -> is_Some (RowIndex b) /\ is_Some (ColumnIndex b))
  /\ (BlockType b = WORD \/ BlockType b = LINE -> is_Some (Text b))
  /\ (BlockType b = WORD -> is_Some (Geometry b)).

Definition well_formed (blocks : list Block) (bmap : gmap pystr Block) : Prop :=
  (forall b, b ∈ blocks -> wf_block bmap b)
  /\ (forall id b, bmap !! id = Some b -> wf_block bmap b).

Definition has_table (blocks : list Block) : Prop :=
  exists b, b ∈ blocks /\ BlockType b = TABLE.

(** The grid [rows] the extractor builds from the first TABLE block. *)
Definition table_grid (blocks : list Block) (bmap : gmap pystr Block)
  : option (gmap Z (gmap Z pystr)) :=
  tbl ← first_table blocks;
  add_relationships bmap (default [] (Relationships tbl)) ∅.

(** The Residenza cell after the abbreviation clean-up, and the
    citizenship after normalisation. *)
Definition residenza_cell (rows : gmap Z (gmap Z pystr)) : pystr :=
  if truthy (get_cell rows 9 2) then clean_residenza (get_cell rows 9 2)
  else get_cell rows 9 2.

Definition cittadinanza_of (v : pystr) : pystr :=
  if existsb (str_eqb (upper (strip v))) ALBANIAN_VARIANTS then ALBANESE else v.

(** The record, field by field, for a grid, a civil status and a seal. *)
Definition expected_fields (rows : gmap Z (gmap Z pystr)) (stato seal : pystr)
  : list (pystr * pystr) :=
  [ (K_NOME, get_cell rows 2 2);
    (K_COGNOME, get_cell rows 3 2);
    (K_NUMERO, get_cell rows 4 2);
    (K_PADRE, get_cell rows 5 2);
    (K_MADRE, get_cell rows 6 2);
    (K_NASCITA, get_cell rows 7 2);
    (K_LUOGO, map_exonyms (get_cell rows 8 2));
    (K_RESIDENZA, map_exonyms (residenza_cell rows));
    (K_SESSO, sesso_of (upper (strip (get_cell rows 10 2))));
    (K_STATO, stato);
    (K_CITTADINANZA, cittadinanza_of (get_cell rows 12 2));
    (K_COGNOME_PRIMA, get_cell rows 13 2);
    (K_RILASCIO, get_cell rows 14 2);
    (K_SEAL, seal) ].

(** The literal replacements the Residenza clean-up is meant to perform,
    in order: "Nd." first, then the [str.replace] chain. *)
Definition ND_DOT : pystr := Eval vm_compute in py "Nd.".

Definition RESIDENZA_LITERALS : list (pystr * pystr) :=
  (ND_DOT, ED) :: RESIDENZA_REPLACEMENTS.

(** Every place where the pattern [Nd.] matches is a literal "Nd.": an
    "Nd" is followed by ".", by a newline, or by nothing. *)
Fixpoint nd_literal (s : pystr) : bool :=
  match s with
  | [] => true
  | _ :: s' =>
      eqb (match_seq (body ND_RE) s) (startswith ND_DOT s) && nd_literal s'
  end.

(** [result[k] = x] on a record written as a list of fields. *)
Definition update_field (k x : pystr) (l : list (pystr * pystr))
  : list (pystr * pystr) :=
  map (fun p => if bool_decide (fst p = k) then (k, x) else p) l.

(** [data[k]] on the outcome of the extractor, and a cell of the outcome of
    the grid construction. *)
Definition field (k : pystr) (rec : option (gmap pystr pystr)) : option pystr :=
  rec ≫= fun r => r !! k.

Definition grid_cell (rows : option (gmap Z (gmap Z pystr))) (r c : Z)
  : option pystr :=
  (fun rows => get_cell rows r c) <$> rows.

(** The keys of the record [extract_table_fields] builds. *)
Definition OUTPUT_KEYS : list pystr :=
  [ K_NOME; K_COGNOME; K_NUMERO; K_PADRE; K_MADRE; K_NASCITA; K_LUOGO;
    K_RESIDENZA; K_SESSO; K_STATO; K_CITTADINANZA; K_COGNOME_PRIMA;
    K_RILASCIO; K_SEAL ].

End Model.

(** ** Word-wise rewriting

    The exonym patterns are whole words between two [\\b]; substituting
    one of them amounts to rewriting the maximal runs of word characters
    one by one. *)

Section WordWise.

Context {U : Unicode}.

(** [f] applied to a run of word characters, nothing for an empty run. *)
Definition on_word (f : pystr -> pystr) (cur : pystr) : pystr :=
  match cur with
  | [] => []
  | _ :: _ => f cur
  end.

(** Apply [f] to every maximal run of word characters of [s]; [cur] is the
    run being read. *)
Fixpoint words_map_go (f : pystr -> pystr) (cur s : pystr) : pystr :=
  match s with
  | [] => on_word f cur
  | c :: s' =>
      if isword c then words_map_go f (cur ++ [c]) s'
      else on_word f cur ++ c :: words_map_go f [] s'
  end.

Definition words_map (f : pystr -> pystr) (s : pystr) : pystr :=
  words_map_go f [] s.

(** The body of [p] matches the whole of [w]. *)
Definition exact_match (p : pattern) (w : pystr) : bool :=
  (length w =? length (body p))%nat && match_seq (body p) w.

Definition rewrite_word (p : pattern) (repl w : pystr) : pystr :=
  if exact_match p w then repl else w.

(** A pattern [\\b...\\b] whose classes hold word characters only. *)
Definition word_pattern (p : pattern) : Prop :=
  wb_before p = true /\ wb_after p = true /\ body p <> []
  /\ Forall (fun cl : cls => forall c, cl c = true -> isword c = true) (body p).

Definition all_word (w : pystr) : Prop := Forall (fun c => isword c = true) w.

(** Empty, or starting with a character that is not a word character. *)
Definition sep_headed (rest : pystr) : Prop :=
  match rest with
  | [] => True
  | d :: _ => isword d = false
  end.

(** What [re.sub] does from a separator on. *)
Definition sub_rest (p : pattern) (repl rest : pystr) : pystr :=
  match rest with
  | [] => []
  | d :: r => d :: sub_go p repl 0 (Some d) r
  end.

Definition words_rest (f : pystr -> pystr) (rest : pystr) : pystr :=
  match rest with
  | [] => []
  | d :: r => d :: words_map f r
  end.

(** A pattern letter all of whose case variants are word characters. *)
Definition letter_ok (c : char) : bool :=
  isword (tolower c) && forallb isword (ignorecase_fixes (tolower c)).

(** The four exonym rules, word by word. *)
Definition exonym_word (w : pystr) : pystr :=
  fold_left (fun out rule => rewrite_word (fst rule) (snd rule) out)
            EXONYM_RULES w.

End WordWise.

(** ** Main flow

    What the main flow does with the blocks of one uploaded file, and what
    [make_docx] reads from the record it is given.  The calls of the
    document library around them are outside the model. *)

Section MainFlow.

Context {R : Number} {U : Unicode}.

Definition K_COMUNE : pystr := Eval vm_compute in py "Comune".
Definition K_SEZIONE : pystr := Eval vm_compute in py "Sezione".

(** [bmap = {b["Id"]: b for b in blocks}],
    [data = extract_table_fields(blocks, bmap)],
    [data["Comune"], data["Sezione"] = extract_comune_sezione(blocks)]. *)
Definition main_flow_data (blocks : list (@Block R)) : option (gmap pystr pystr) :=
  let bmap := block_map blocks in
  data ← extract_table_fields blocks bmap;
  cs ← extract_comune_sezione blocks;
  Some (<[K_SEZIONE := snd cs]> (<[K_COMUNE := fst cs]> data)).

Definition MARKER_ROW : pystr := Eval vm_compute in
  py "Timbrato elettronicamente dalla Direzione Generale dello Stato Civile"
    ++ [10; 10].

(** The list [fields] of [make_docx]: thirteen labels with [data[label]],
    then the marker row whose value is [None].  [data[label]] raises
    [KeyError] on a missing key. *)
Definition make_docx_fields (data : gmap pystr pystr)
  : option (list (pystr * option pystr)) :=
  nome ← data !! K_NOME;
  cognome ← data !! K_COGNOME;
  numero ← data !! K_NUMERO;
  padre ← data !! K_PADRE;
  madre ← data !! K_MADRE;
  nascita ← data !! K_NASCITA;
  luogo ← data !! K_LUOGO;
  residenza ← data !! K_RESIDENZA;
  sesso ← data !! K_SESSO;
  stato ← data !! K_STATO;
  cittadinanza ← data !! K_CITTADINANZA;
  cognome_prima ← data !! K_COGNOME_PRIMA;
  rilascio ← data !! K_RILASCIO;
  Some [ (K_NOME, Some nome); (K_COGNOME, Some cognome);
         (K_NUMERO, Some numero); (K_PADRE, Some padre);
         (K_MADRE, Some madre); (K_NASCITA, Some nascita);
         (K_LUOGO, Some luogo); (K_RESIDENZA, Some residenza);
         (K_SESSO, Some sesso); (K_STATO, Some stato);
         (K_CITTADINANZA, Some cittadinanza);
         (K_COGNOME_PRIMA, Some cognome_prima);
         (K_RILASCIO, Some rilascio);
         (MARKER_ROW, None) ].

(** The thirteen keys [make_docx] reads with [data[...]]. *)
Definition DOCX_KEYS : list pystr :=
  [ K_NOME; K_COGNOME; K_NUMERO; K_PADRE; K_MADRE; K_NASCITA; K_LUOGO;
    K_RESIDENZA; K_SESSO; K_STATO; K_CITTADINANZA; K_COGNOME_PRIMA;
    K_RILASCIO ].

(** [data.get(key, key).strip().replace(" ", "_")]: the default of
    [data.get("Nome", "Nome")] and of [data.get("Cognome", "Cognome")] is
    the key itself. *)
Definition name_part (key : pystr) (data : gmap pystr pystr) : pystr :=
  replace [32] [95] (strip (default key (data !! key))).

Definition CERTIFICATO : pystr := Eval vm_compute in py "_Certificato_di_Nascita_".

(** [f"{nome}_{cognome}_Certificato_di_Nascita_{today_str}"] *)
Definition file_name (data : gmap pystr pystr) (today_str : pystr) : pystr :=
  name_part K_NOME data ++ [95] ++ name_part K_COGNOME data
    ++ CERTIFICATO ++ today_str.

(** Every block of the list is well formed for the map built from the
    list: the input condition of the main flow. *)
Definition blocks_ok (blocks : list (@Block R)) : Prop :=
  forall b, b ∈ blocks -> wf_block (block_map blocks) b.

(** A string that [strip] leaves unchanged, and a grid of such strings. *)
Definition trimmed (s : pystr) : Prop := strip s = s.

Definition all_trimmed (rows : gmap Z (gmap Z pystr)) : Prop :=
  forall r c, trimmed (get_cell rows r c).

(** A cell of the grid is empty or the text of a CELL block of the map
    with the cell's row and column. *)
Definition from_cell (bmap : gmap pystr (@Block R))
    (rows : gmap Z (gmap Z pystr)) : Prop :=
  forall r c, get_cell rows r c <> [] ->
    exists cid cell, bmap !! cid = Some cell /\ BlockType cell = CELL
      /\ RowIndex cell = Some r /\ ColumnIndex cell = Some c
      /\ cell_text bmap cell = Some (get_cell rows r c).

(** The blocks of the list that are not WORD blocks removed. *)
Definition words_only (blocks : list (@Block R)) : list (@Block R) :=
  List.filter (fun b => str_eqb (BlockType b) WORD) blocks.

(** No line mentions the municipality, or the administrative unit. *)
Definition no_bashkia (lines : list pystr) : Prop :=
  Forall (fun l => contains BASHKIA l = false) lines.

Definition no_njesia (lines : list pystr) : Prop :=
  Forall (fun l => contains NJESIA_ADMINISTRATIVE_1 l
                   || contains NJESIA_ADMINISTRATIVE_2 l = false) lines.

End MainFlow.

(** ** Decidable well-formedness *)

Section Checkers.

Context {R : Number} {U : Unicode}.

Definition words_okb (blocks : list (@Block R)) : bool :=
  forallb (fun w => negb (str_eqb (BlockType w) WORD)
                    || (bool_decide (is_Some (Text w))
                        && bool_decide (is_Some (Geometry w)))) blocks.

Definition wf_blockb (bmap : gmap pystr (@Block R)) (b : @Block R) : bool :=
  forallb (fun rel => forallb (fun id => bool_decide (is_Some (bmap !! id))) (Ids rel))
          (default [] (Relationships b))
  && (negb (str_eqb (BlockType b) CELL)
      || (bool_decide (is_Some (RowIndex b)) && bool_decide (is_Some (ColumnIndex b))))
  && (negb (str_eqb (BlockType b) WORD || str_eqb (BlockType b) LINE)
      || bool_decide (is_Some (Text b)))
  && (negb (str_eqb (BlockType b) WORD) || bool_decide (is_Some (Geometry b))).

Definition well_formedb (blocks : list (@Block R)) (bmap : gmap pystr (@Block R)) : bool :=
  forallb (wf_blockb bmap) blocks
  && forallb (fun kb => wf_blockb bmap (snd kb)) (map_to_list bmap).

End Checkers.

(** ** A sample certificate

    A complete table (rows 2 to 14), the four status labels with a mark
    next to the third, and the seal footer; coordinates are rationals. *)

Module Sample.

Local Open Scope string_scope.

Definition word (id text : string) (top : Q) : @Block rational := {|
  Id := py id; BlockType := WORD; Text := Some (py text);
  Geometry := Some (@Build_BoundingBox rational top (1 # 50)%Q (1 # 10)%Q (1 # 5)%Q);
  RowIndex := None; ColumnIndex := None; Relationships := None
|}.

Definition line (id text : string) : @Block rational := {|
  Id := py id; BlockType := LINE; Text := Some (py text);
  Geometry := None;
  RowIndex := None; ColumnIndex := None; Relationships := None
|}.

Definition cell (id : string) (row col : Z) (words : list string) : @Block rational := {|
  Id := py id; BlockType := CELL; Text := None;
  Geometry := None;
  RowIndex := Some row; ColumnIndex := Some col;
  Relationships := Some [ {| RelType := CHILD; Ids := map py words |} ]
|}.

Definition table (id : string) (cells : list string) : @Block rational := {|
  Id := py id; BlockType := TABLE; Text := None;
  Geometry := None;
  RowIndex := None; ColumnIndex := None;
  Relationships := Some [ {| RelType := CHILD; Ids := map py cells |} ]
|}.

Definition labels : list (@Block rational) :=
  [ word "l0" "Beqar/e" (10 # 100);
    word "l1" "I/E martuar" (20 # 100);
    word "l2" "I/E shkurorëzuar" (30 # 100);
    word "l3" "I/E vedovë" (40 # 100) ].

Definition mark : @Block rational := word "m" " X. " (31 # 100).

Definition seal_lines : list (@Block rational) :=
  [ line "s0" "Vulosur elektronikisht nga Drejtoria";
    line "s1" "Certifikatë lindjeje";
    line "s2" "Vulosur Elektronikisht nga Drejtoria e Përgjithshme";
    line "s3" "Datë: 2023/05/10";
    line "s4" "0123456789abcdef0123456789ABCDEF" ].

Definition header_lines : list (@Block rational) :=
  [ line "h0" "Bashkia TIRANË";
    line "h1" "Njësia Administrative Nr.";
    line "h2" "5" ].

Definition cells : list (@Block rational) :=
  [ cell "c2" 2 2 ["w2"]; cell "c3" 3 2 ["w3"]; cell "c4" 4 2 ["w4"];
    cell "c5" 5 2 ["w5"]; cell "c6" 6 2 ["w6"]; cell "c7" 7 2 ["w7"];
    cell "c8" 8 2 ["w8"]; cell "c9" 9 2 ["w9a"; "w9b"; "w9c"; "w9d"];
    cell "c10" 10 2 ["w10"]; cell "c12" 12 2 ["w12"];
    cell "c13" 13 2 ["w13"]; cell "c14" 14 2 ["w14"] ].

Definition cell_words : list (@Block rational) :=
  [ word "w2" "Arta" (50 # 100); word "w3" "Hoxha" (51 # 100);
    word "w4" "J12345678A" (52 # 100); word "w5" "Agim" (53 # 100);
    word "w6" "Drita" (54 # 100); word "w7" "01/02/1990" (55 # 100);
    word "w8" "Vlorë" (56 # 100);
    word "w9a" "Tiranë" (57 # 100); word "w9b" "Njësia" (57 # 100);
    word "w9c" "Administrative" (57 # 100); word "w9d" "Ap.3" (57 # 100);
    word "w10" "F" (58 # 100); word "w12" "Shqiptare" (59 # 100);
    word "w13" "Hoxha" (60 # 100); word "w14" "10/05/2023" (61 # 100) ].

Definition table_block : @Block rational :=
  table "t" [ "c2"; "c3"; "c4"; "c5"; "c6"; "c7"; "c8"; "c9"; "c10"; "c12";
              "c13"; "c14" ].

Definition blocks : list (@Block rational) :=
  (header_lines ++ [table_block] ++ cells ++ cell_words ++ labels ++ [mark]
     ++ seal_lines)%list.

Definition bmap : gmap pystr (@Block rational) := block_map blocks.

Definition lines : list pystr := default [] (line_texts blocks).


(** The seal lines with the first marker line removed. *)
Definition one_marker : list (@Block rational) := drop 1 seal_lines.

(** A table with the single cell (row, 2), made of the given words. *)
Definition single_cell (row : Z) (texts : list string) : list (@Block rational) :=
  table "t" ["c"] :: cell "c" row 2 texts
    :: List.map (fun t => word t t (50 # 100)) texts.

Definition sesso_n : list (@Block rational) := single_cell 10 ["n"].
Definition residenza_lower : list (@Block rational) :=
  single_cell 9 ["njësia"; "administrative"; "5"].
Definition residenza_upper : list (@Block rational) :=
  single_cell 9 ["Njësia"; "Administrative"; "5"].
Definition residenza_nd : list (@Block rational) :=
  single_cell 9 ["Nda"; "Ndreu"; "5"].

(** Centres of the labels and of the mark, as the resolver computes them. *)
Definition centre (idx : nat) : Q := default 0%Q (label_centre idx blocks).
Definition mark_y : Q := default 0%Q (mark_centre blocks).

(** The same labels and mark in binary64. *)
Definition fword (text : string) (top : float) : @Block binary64 := {|
  Id := py text; BlockType := WORD; Text := Some (py text);
  Geometry := Some (@Build_BoundingBox binary64 top 0.5%float 0%float 0.5%float);
  RowIndex := None; ColumnIndex := None; Relationships := None
|}.

(** Boxes of different heights in binary64: label 2 is tall, and the mark
    is at its middle. *)
Definition fbox (text : string) (top height : float) : @Block binary64 := {|
  Id := py text; BlockType := WORD; Text := Some (py text);
  Geometry := Some (@Build_BoundingBox binary64 top height 0%float 0.5%float);
  RowIndex := None; ColumnIndex := None; Relationships := None
|}.

Definition tall_blocks : list (@Block binary64) :=
  [ fbox "Beqar/e" 0.0625%float 0.0625%float;
    fbox "I/E martuar" 0.125%float 0.0625%float;
    fbox "I/E shkurorëzuar" 0.25%float 0.75%float;
    fbox "I/E vedovë" 0.5%float 0.0625%float;
    fbox "x" 0.5625%float 0.125%float ].

Definition tall_centre (idx : nat) : float :=
  default 0%float (label_centre idx tall_blocks).
Definition tall_mark : float := default 0%float (mark_centre tall_blocks).

Definition float_blocks : list (@Block binary64) :=
  [ fword "Beqar/e" 1%float; fword "I/E martuar" 2%float;
    fword "I/E shkurorëzuar" 3%float; fword "I/E vedovë" 4%float;
    fword "x" 3.25%float ].

(** A WORD block without text. *)
Definition textless_word : @Block rational := {|
  Id := py "w"; BlockType := WORD; Text := None;
  Geometry := None;
  RowIndex := None; ColumnIndex := None; Relationships := None
|}.

(** A table whose only child is not among the blocks. *)
Definition dangling_table : @Block rational := table "t" ["c"].

(** Two lines after the seal. *)
Definition later_lines : list (@Block rational) :=
  [ line "e0" "Datë: 2024/01/01";
    line "e1" "ffffffffffffffffffffffffffffffffffff" ].

End Sample.

(** * Properties *)

(** ** Strings *)

Section StringFacts.

Context {U : Unicode}.

Lemma str_eqb_true (a b : pystr) : str_eqb a b = true <-> a = b.
Proof. unfold str_eqb. apply bool_decide_eq_true. Qed.

Lemma str_eqb_false (a b : pystr) : str_eqb a b = false <-> a <> b.
Proof. unfold str_eqb. apply bool_decide_eq_false. Qed.

Lemma truthy_true (s : pystr) : truthy s = true <-> s <> [].
Proof. destruct s; simpl; split; congruence. Qed.

Lemma truthy_false (s : pystr) : truthy s = false <-> s = [].
Proof. destruct s; simpl; split; congruence. Qed.

Lemma startswith_app (p s : pystr) :
  startswith p s = true <-> exists post, s = p ++ post.
Proof.
  revert s. induction p as [|a p IH]; intros s; simpl.
  - split; eauto.
  - destruct s as [|b s].
    + split; [discriminate | intros [post H]; discriminate].
    + rewrite andb_true_iff, N.eqb_eq, IH. split.
      * intros [-> [post ->]]. eauto.
      * intros [post [= -> ->]]. eauto.
Qed.

Lemma contains_app (needle hay : pystr) :
  contains needle hay = true <-> exists pre post, hay = pre ++ needle ++ post.
Proof.
  induction hay as [|c hay IH]; cbn [contains].
  - rewrite orb_false_r, startswith_app. split.
    + intros [post ->]. exists [], post. reflexivity.
    + intros (pre & post & H). symmetry in H.
      apply app_eq_nil in H as [-> H]. eauto.
  - rewrite orb_true_iff, startswith_app, IH. split.
    + intros [[post H] | (pre & post & ->)].
      * exists [], post. exact H.
      * exists (c :: pre), post. reflexivity.
    + intros (pre & post & H). destruct pre as [|c' pre].
      * left. eauto.
      * injection H as -> ->. right. eauto.
Qed.

Lemma contains_suffix (a b hay : pystr) :
  contains (a ++ b) hay = true -> contains b hay = true.
Proof.
  rewrite !contains_app. intros (pre & post & ->).
  exists (pre ++ a), post. rewrite <- !app_assoc. reflexivity.
Qed.

Lemma split_after_is_Some (sep s : pystr) :
  contains sep s = true -> is_Some (split_after sep s).
Proof.
  induction s as [|c s IH]; cbn [contains split_after].
  - rewrite orb_false_r. intros ->. eauto.
  - destruct (startswith sep (c :: s)); [eauto|]. simpl. exact IH.
Qed.

End StringFacts.

(** ** Checkbox resolver *)

Section Resolver.

Context {R : Number} {U : Unicode}.

Implicit Types (blocks : list (@Block R)) (w : @Block R).
Implicit Types (centres : list (nat * num)).

Local Opaque fragments.

Lemma has_key_true idx centres : has_key idx centres = true <-> idx ∈ centres.*1.
Proof.
  unfold has_key. induction centres as [|[k y] c IH]; simpl.
  - split; [discriminate | intros H; inversion H].
  - rewrite orb_true_iff, IH, elem_of_cons, Nat.eqb_eq. intuition congruence.
Qed.

Lemma has_key_false idx centres : has_key idx centres = false <-> idx ∉ centres.*1.
Proof.
  rewrite <- has_key_true. destruct (has_key idx centres); intuition congruence.
Qed.

Lemma centre_of_app idx centres k y :
  centre_of idx (centres ++ [(k, y)])
  = match centre_of idx centres with
    | Some z => Some z
    | None => if Nat.eqb k idx then Some y else None
    end.
Proof.
  unfold centre_of. induction centres as [|[k' y'] c IH]; simpl.
  - destruct (Nat.eqb k idx); reflexivity.
  - destruct (Nat.eqb k' idx); [reflexivity | apply IH].
Qed.

Lemma centre_of_Some idx centres y :
  centre_of idx centres = Some y -> (idx, y) ∈ centres.
Proof.
  unfold centre_of. induction centres as [|[k' y'] c IH]; simpl; [discriminate|].
  destruct (Nat.eqb k' idx) eqn:E; simpl.
  - apply Nat.eqb_eq in E. intros [= ->]. subst. left.
  - intros H. right. auto.
Qed.

Lemma centre_of_None idx centres :
  centre_of idx centres = None <-> idx ∉ centres.*1.
Proof.
  rewrite <- has_key_false. unfold centre_of, has_key.
  induction centres as [|[k' y'] c IH]; simpl; [tauto|].
  destruct (Nat.eqb k' idx); simpl; [split; discriminate | apply IH].
Qed.

Lemma centre_of_NoDup idx centres y :
  NoDup centres.*1 -> (idx, y) ∈ centres -> centre_of idx centres = Some y.
Proof.
  unfold centre_of. induction centres as [|[k' y'] c IH]; simpl.
  - intros _ H. inversion H.
  - intros Hnd Hin. apply NoDup_cons in Hnd as [Hk Hnd].
    apply elem_of_cons in Hin as [Heq | Hin].
    + injection Heq as -> ->. rewrite Nat.eqb_refl. reflexivity.
    + destruct (Nat.eqb k' idx) eqn:E.
      * apply Nat.eqb_eq in E. subst. exfalso. apply Hk.
        apply list_elem_of_fmap. exists (idx, y). auto.
      * auto.
Qed.

(** *** Filling [centres] *)

Lemma record_fragments_keys w text frs c0 c1 :
  record_fragments w text frs c0 = Some c1 ->
  forall k, k ∈ c1.*1 -> k ∈ c0.*1 \/ k ∈ frs.*2.
Proof.
  revert c0. induction frs as [|[frag idx] frs IH]; simpl; intros c0 H k Hk.
  - injection H as <-. auto.
  - destruct (contains frag text && negb (has_key idx c0)).
    + destruct (Geometry w) as [bb|]; simpl in H; [|discriminate].
      destruct (IH _ H k Hk) as [Hin | Hin].
      * rewrite fmap_app, elem_of_app in Hin. destruct Hin as [Hin | Hin]; auto.
        simpl in Hin. apply list_elem_of_singleton in Hin. subst.
        right. left.
      * right. right. exact Hin.
    + destruct (IH _ H k Hk); auto. right. right. assumption.
Qed.

Lemma locate_centres_keys blocks c0 c1 :
  locate_centres blocks c0 = Some c1 ->
  forall k, k ∈ c1.*1 -> k ∈ c0.*1 \/ k ∈ fragments.*2.
Proof.
  revert c0. induction blocks as [|w blocks IH]; simpl; intros c0 H k Hk.
  - injection H as <-. auto.
  - destruct (negb (str_eqb (BlockType w) WORD)); [eauto|].
    destruct (Text w) as [t|]; simpl in H; [|discriminate].
    destruct (record_fragments w (lower (strip t)) fragments c0) as [c'|] eqn:E;
      simpl in H; [|discriminate].
    destruct (IH _ H k Hk) as [Hin | Hin]; auto.
    eapply record_fragments_keys; eauto.
Qed.

Lemma record_fragments_lookup w text bb frs c0 :
  Geometry w = Some bb ->
  exists c1, record_fragments w text frs c0 = Some c1
    /\ (forall idx, centre_of idx c1
          = match centre_of idx c0 with
            | Some y => Some y
            | None => if hits frs idx text then Some (centre_y bb) else None
            end)
    /\ (NoDup c0.*1 -> NoDup c1.*1).
Proof.
  intros Hg. revert c0. induction frs as [|[frag idx0] frs IH]; simpl; intros c0.
  - exists c0. split; [reflexivity|]. split; [|auto].
    intros idx. destruct (centre_of idx c0); reflexivity.
  - destruct (contains frag text) eqn:Ec; simpl.
    + destruct (has_key idx0 c0) eqn:Ek; simpl.
      * destruct (IH c0) as (c1 & -> & Hl & Hn). exists c1.
        split; [reflexivity|]. split; [|exact Hn].
        intros idx. rewrite Hl. destruct (centre_of idx c0) eqn:Ei; [reflexivity|].
        rewrite andb_true_r. destruct (Nat.eqb idx0 idx) eqn:E; [|reflexivity].
        apply Nat.eqb_eq in E. subst. apply centre_of_None in Ei.
        apply has_key_true in Ek. contradiction.
      * rewrite Hg. simpl.
        destruct (IH (c0 ++ [(idx0, centre_y bb)])) as (c1 & -> & Hl & Hn).
        exists c1. split; [reflexivity|]. split.
        -- intros idx. rewrite Hl, centre_of_app.
           destruct (centre_of idx c0); [reflexivity|].
           rewrite andb_true_r. destruct (Nat.eqb idx0 idx); reflexivity.
        -- intros Hnd. apply Hn. rewrite fmap_app. simpl.
           apply NoDup_app. split; [exact Hnd|]. split.
           ++ intros k Hk Hk'. apply list_elem_of_singleton in Hk'. subst.
              apply has_key_false in Ek. contradiction.
           ++ apply NoDup_singleton.
    + destruct (IH c0) as (c1 & -> & Hl & Hn). exists c1.
      split; [reflexivity|]. split; [|exact Hn].
      intros idx. rewrite Hl. rewrite andb_false_r. reflexivity.
Qed.

Lemma hits_hit idx w t :
  BlockType w = WORD -> Text w = Some t ->
  hits fragments idx (lower (strip t)) = hit idx w.
Proof.
  intros Hw Ht. unfold hits, hit, is_label. rewrite Ht. simpl.
  apply (proj2 (str_eqb_true _ _)) in Hw. rewrite Hw. reflexivity.
Qed.

Lemma hit_not_word idx w : BlockType w <> WORD -> hit idx w = false.
Proof.
  intros Hw. unfold hit, is_label.
  apply (proj2 (str_eqb_false _ _)) in Hw. rewrite Hw. simpl.
  induction fragments as [|fi frs IH]; simpl; [reflexivity|].
  rewrite andb_false_r. exact IH.
Qed.

Lemma words_ok_cons w blocks :
  words_ok (w :: blocks) ->
  (BlockType w = WORD -> is_Some (Text w) /\ is_Some (Geometry w))
  /\ words_ok blocks.
Proof.
  intros H. split.
  - apply H. left.
  - intros w' Hin. apply H. right. exact Hin.
Qed.

Lemma locate_centres_lookup blocks c0 :
  words_ok blocks ->
  exists c1, locate_centres blocks c0 = Some c1
    /\ (forall idx, centre_of idx c1
          = match centre_of idx c0 with
            | Some y => Some y
            | None => w ← List.find (hit idx) blocks; centre_y <$> Geometry w
            end)
    /\ (NoDup c0.*1 -> NoDup c1.*1).
Proof.
  revert c0. induction blocks as [|w blocks IH]; intros c0 Hok.
  - exists c0. simpl. split; [reflexivity|]. split; [|auto].
    intros idx. destruct (centre_of idx c0); reflexivity.
  - apply words_ok_cons in Hok as [Hw Hok]. simpl.
    destruct (str_eqb (BlockType w) WORD) eqn:Eb; simpl.
    + apply str_eqb_true in Eb. destruct (Hw Eb) as [[t Ht] [bb Hg]].
      rewrite Ht. simpl.
      destruct (record_fragments_lookup w (lower (strip t)) bb fragments c0 Hg)
        as (c' & -> & Hl' & Hn'). simpl.
      destruct (IH c' Hok) as (c1 & -> & Hl & Hn). exists c1.
      split; [reflexivity|]. split; [|auto].
      intros idx. rewrite Hl, Hl'. destruct (centre_of idx c0); [reflexivity|].
      rewrite (hits_hit idx w t Eb Ht).
      destruct (hit idx w); [|reflexivity]. simpl. rewrite Hg. reflexivity.
    + apply str_eqb_false in Eb.
      destruct (IH c0 Hok) as (c1 & -> & Hl & Hn). exists c1.
      split; [reflexivity|]. split; [|auto].
      intros idx. rewrite Hl, (hit_not_word idx w Eb). reflexivity.
Qed.

Local Transparent fragments.

Lemma hit_fragment idx w :
  hit idx w = from_option (fun fi => is_label (fst fi) w) false (fragments !! idx).
Proof.
  unfold hit.
  destruct idx as [|[|[|[|idx]]]]; simpl;
    rewrite ?orb_false_r, ?andb_false_r; reflexivity.
Qed.

Lemma fragments_keys k : k ∈ fragments.*2 <-> (k < 4)%nat.
Proof.
  simpl. rewrite !elem_of_cons, elem_of_nil. lia.
Qed.

Local Opaque fragments.

Lemma find_hit idx blocks :
  List.find (hit idx) blocks
  = fi ← fragments !! idx; first_label (fst fi) blocks.
Proof.
  unfold first_label.
  induction blocks as [|w blocks IH]; simpl.
  - destruct (fragments !! idx); reflexivity.
  - rewrite hit_fragment, IH. destruct (fragments !! idx) as [fi|]; simpl; reflexivity.
Qed.

(** The dictionary [centres] after the first loop: one entry per fragment
    that occurs, holding the centre of the first block that carries it. *)
Lemma centres_spec blocks :
  words_ok blocks ->
  exists centres, locate_centres blocks [] = Some centres
    /\ NoDup centres.*1
    /\ (forall k, k ∈ centres.*1 -> (k < 4)%nat)
    /\ (forall idx, centre_of idx centres = label_centre idx blocks).
Proof.
  intros Hok. destruct (locate_centres_lookup blocks [] Hok) as (c & Hc & Hl & Hn).
  exists c. split; [exact Hc|]. split; [apply Hn; constructor|]. split.
  - intros k Hk. destruct (locate_centres_keys _ _ _ Hc k Hk) as [H|H].
    + inversion H.
    + apply fragments_keys. exact H.
  - intros idx. rewrite Hl. simpl. rewrite find_hit. unfold label_centre.
    destruct (fragments !! idx); reflexivity.
Qed.

Lemma keys_length centres :
  NoDup centres.*1 -> (forall k, k ∈ centres.*1 -> (k < 4)%nat) ->
  (length centres <= 4)%nat
  /\ (length centres = 4%nat <-> forall k, (k < 4)%nat -> k ∈ centres.*1).
Proof.
  intros Hnd Hlt.
  assert (Hsub : centres.*1 ⊆+ [0; 1; 2; 3]%nat).
  { apply NoDup_submseteq; [exact Hnd|]. intros k Hk. apply Hlt in Hk.
    rewrite !elem_of_cons, elem_of_nil. lia. }
  pose proof (submseteq_length _ _ Hsub) as Hlen.
  rewrite length_fmap in Hlen. simpl in Hlen. split; [exact Hlen|]. split.
  - intros H4 k Hk.
    assert (Hp : centres.*1 ≡ₚ [0; 1; 2; 3]%nat).
    { apply submseteq_length_Permutation; [exact Hsub|].
      rewrite length_fmap. simpl. lia. }
    rewrite Hp, !elem_of_cons, elem_of_nil. lia.
  - intros Hall.
    assert (Hsub' : [0; 1; 2; 3]%nat ⊆+ centres.*1).
    { apply NoDup_submseteq.
      - repeat (apply NoDup_cons; split;
                [rewrite ?elem_of_cons, elem_of_nil; lia|]). apply NoDup_nil_2.
      - intros k Hk. apply Hall. rewrite !elem_of_cons, elem_of_nil in Hk. lia. }
    apply submseteq_length in Hsub'. rewrite length_fmap in Hsub'.
    simpl in Hsub'. lia.
Qed.

Local Transparent fragments.

Lemma fragments_found_le blocks : (fragments_found blocks <= 4)%nat.
Proof. unfold fragments_found. apply (length_filter _ fragments). Qed.

Lemma filter_length_all {A} (P : A -> Prop) `{forall x, Decision (P x)} (l : list A) :
  length (filter P l) = length l <-> Forall P l.
Proof.
  induction l as [|x l IH].
  - split; [constructor | reflexivity].
  - rewrite filter_cons. pose proof (length_filter P l) as Hle.
    destruct (decide (P x)) as [Hp|Hp]; simpl.
    + rewrite Forall_cons. split.
      * intros [= Hl]. split; [exact Hp | apply IH; exact Hl].
      * intros [_ Hl]. f_equal. apply IH. exact Hl.
    + rewrite Forall_cons. split; [lia | tauto].
Qed.

Lemma fragments_found_all blocks :
  fragments_found blocks = 4%nat
  <-> forall idx, (idx < 4)%nat ->
        exists fi, fragments !! idx = Some fi /\ is_Some (first_label (fst fi) blocks).
Proof.
  unfold fragments_found.
  change 4%nat with (length fragments) at 1.
  rewrite filter_length_all, Forall_lookup. split.
  - intros H idx Hidx.
    destruct (lookup_lt_is_Some_2 fragments idx Hidx) as [fi Hfi]. eauto.
  - intros H idx fi Hfi.
    destruct (H idx) as (fi' & Hfi' & Hs).
    + apply lookup_lt_Some in Hfi. exact Hfi.
    + congruence.
Qed.

Local Opaque fragments.

Lemma label_centre_is_Some blocks idx :
  words_ok blocks ->
  (is_Some (label_centre idx blocks)
   <-> exists fi, fragments !! idx = Some fi /\ is_Some (first_label (fst fi) blocks)).
Proof.
  intros Hok. unfold label_centre.
  destruct (fragments !! idx) as [fi|]; simpl.
  - destruct (first_label (fst fi) blocks) as [w|] eqn:Ef; simpl.
    + pose proof (find_some _ _ Ef) as [Hin Hl].
      unfold is_label in Hl. apply andb_true_iff in Hl as [Hw _].
      apply str_eqb_true in Hw.
      destruct (Hok w (proj2 (list_elem_of_In _ _) Hin) Hw) as [_ [bb Hg]].
      rewrite Hg. simpl. split; [|eauto].
      intros _. exists fi. rewrite Ef. eauto.
    + split; [intros [? ?]; discriminate|].
      intros (fi' & [= <-] & Hs). rewrite Ef in Hs. destruct Hs; discriminate.
  - split; [intros [? ?]; discriminate|]. intros (? & ? & _). discriminate.
Qed.

Lemma centres_length blocks centres :
  words_ok blocks -> locate_centres blocks [] = Some centres ->
  (length centres <? 4)%nat = (fragments_found blocks <? 4)%nat.
Proof.
  intros Hok Hc.
  destruct (centres_spec blocks Hok) as (c & Hc' & Hnd & Hlt & Hl).
  rewrite Hc in Hc'. injection Hc' as <-.
  destruct (keys_length centres Hnd Hlt) as [Hle H4].
  pose proof (fragments_found_le blocks) as Hle'.
  pose proof (fragments_found_all blocks) as H4'.
  assert (Hiff : length centres = 4%nat <-> fragments_found blocks = 4%nat).
  { rewrite H4, H4'. split; intros H idx Hidx.
    - apply label_centre_is_Some; [exact Hok|]. rewrite <- Hl.
      specialize (H idx Hidx). apply has_key_true in H.
      destruct (centre_of idx centres) eqn:E; [eauto|].
      apply centre_of_None, has_key_false in E. congruence.
    - specialize (H idx Hidx). apply label_centre_is_Some in H; [|exact Hok].
      rewrite <- Hl in H. destruct H as [y Hy].
      apply centre_of_Some in Hy. apply list_elem_of_fmap. exists (idx, y). auto. }
  destruct (Nat.ltb_spec (length centres) 4), (Nat.ltb_spec (fragments_found blocks) 4);
    try reflexivity; lia.
Qed.

(** *** Locating the mark *)

Lemma find_x_block_spec blocks :
  (forall w, w ∈ blocks -> BlockType w = WORD -> is_Some (Text w)) ->
  find_x_block blocks = Some (first_mark blocks).
Proof.
  unfold first_mark. induction blocks as [|w blocks IH]; intros Hok; [reflexivity|].
  simpl. unfold is_mark at 1.
  destruct (str_eqb (BlockType w) WORD) eqn:Eb; simpl.
  - apply str_eqb_true in Eb. destruct (Hok w ltac:(left) Eb) as [t Ht].
    rewrite Ht. simpl. destruct (is_x_mark t); [reflexivity|].
    apply IH. intros w' Hin. apply Hok. right. exact Hin.
  - apply IH. intros w' Hin. apply Hok. right. exact Hin.
Qed.

Lemma find_x_block_word blocks xb :
  find_x_block blocks = Some (Some xb) -> xb ∈ blocks /\ is_mark xb = true.
Proof.
  induction blocks as [|w blocks IH]; simpl; [discriminate|].
  unfold is_mark.
  destruct (str_eqb (BlockType w) WORD) eqn:Eb.
  - destruct (Text w) as [t|] eqn:Et; simpl; [|discriminate].
    destruct (is_x_mark t) eqn:Ex.
    + intros [= <-]. split; [left|]. rewrite Eb, Et. simpl. exact Ex.
    + intros H. destruct (IH H). split; [right|]; assumption.
  - intros H. destruct (IH H). split; [right|]; assumption.
Qed.

(** *** Sorting and minimising *)

Lemma insert_by_y_perm p (l : list (nat * num)) : insert_by_y p l ≡ₚ p :: l.
Proof.
  induction l as [|q l IH]; simpl; [reflexivity|].
  destruct (num_lt (snd p) (snd q)); [reflexivity|].
  rewrite IH. apply Permutation_swap.
Qed.

Lemma sorted_by_y_perm (l : list (nat * num)) : sorted_by_y l ≡ₚ l.
Proof.
  unfold sorted_by_y.
  assert (H : forall acc, fold_left (fun acc p => insert_by_y p acc) l acc ≡ₚ l ++ acc).
  { induction l as [|p l IH]; intros acc; simpl; [reflexivity|].
    rewrite IH, insert_by_y_perm. symmetry. apply Permutation_middle. }
  rewrite H, app_nil_r. reflexivity.
Qed.

Lemma min_go_elem {A} (key : A -> num) (b : A) (l : list A) :
  min_go key b l ∈ b :: l.
Proof.
  revert b. induction l as [|p l IH]; intros b; simpl; [left|].
  specialize (IH (if num_lt (key p) (key b) then p else b)).
  apply elem_of_cons in IH as [-> | IH].
  - destruct (num_lt (key p) (key b)); [right; left | left].
  - right. right. exact IH.
Qed.

Lemma py_min_elem {A} (key : A -> num) (l : list A) (m : A) :
  py_min key l = Some m -> m ∈ l.
Proof.
  destruct l as [|p l]; simpl; [discriminate|].
  intros [= <-]. apply min_go_elem.
Qed.

Lemma py_min_is_Some {A} (key : A -> num) (l : list A) :
  l <> [] -> is_Some (py_min key l).
Proof. destruct l; [congruence | simpl; eauto]. Qed.

(** *** The gendered form *)

Lemma gender_form gender idx :
  (if startswith [102] (lower gender) then female !! idx
   else if startswith [109] (lower gender) then male !! idx
   else m ← male !! idx; f ← female !! idx; Some (m ++ SLASH ++ f))
  = italian_form gender idx.
Proof.
  unfold italian_form. destruct (lower gender) as [|c g]; [reflexivity|].
  cbn [startswith first_letter_is].
  rewrite !andb_true_r, (N.eqb_sym 102 c), (N.eqb_sym 109 c). reflexivity.
Qed.

Lemma italian_form_values gender idx :
  (idx < 4)%nat ->
  exists s, italian_form gender idx = Some s
    /\ s ∈ STATO_VALUES /\ s <> UNRESOLVED.
Proof.
  intros Hidx. unfold italian_form.
  destruct idx as [|[|[|[|idx]]]]; try lia;
    destruct (first_letter_is 102 (lower gender));
    try destruct (first_letter_is 109 (lower gender));
    simpl; eexists; (split; [reflexivity|]);
    (split; [apply list_elem_of_In; vm_compute; tauto | discriminate]).
Qed.

(** *** The resolver, case by case *)

Lemma get_stato_unfold blocks bmap gender :
  words_ok blocks ->
  exists centres, locate_centres blocks [] = Some centres
    /\ get_stato_from_vertical_boxes blocks bmap gender
       = if (fragments_found blocks <? 4)%nat then Some UNRESOLVED
         else match first_mark blocks with
              | None => Some UNRESOLVED
              | Some xb =>
                  bbx ← Geometry xb;
                  best ← py_min (distance_to (centre_y bbx)) (sorted_by_y centres);
                  italian_form gender (fst best)
              end.
Proof.
  intros Hok. destruct (centres_spec blocks Hok) as (c & Hc & _).
  exists c. split; [exact Hc|]. unfold get_stato_from_vertical_boxes.
  rewrite Hc. simpl. rewrite (centres_length blocks c Hok Hc).
  destruct (fragments_found blocks <? 4)%nat; [reflexivity|].
  rewrite find_x_block_spec by (intros w Hin Hw; apply Hok; assumption).
  simpl. destruct (first_mark blocks) as [xb|]; [|reflexivity].
  destruct (Geometry xb) as [bbx|]; simpl; [|reflexivity].
  unfold distance_to.
  destruct (py_min _ (sorted_by_y c)) as [best|]; simpl; [|reflexivity].
  apply gender_form.
Qed.

Lemma first_mark_geometry blocks xb :
  words_ok blocks -> first_mark blocks = Some xb -> is_Some (Geometry xb).
Proof.
  intros Hok Hx. apply find_some in Hx as [Hin Hm].
  unfold is_mark in Hm. apply andb_true_iff in Hm as [Hw _].
  apply str_eqb_true in Hw. apply Hok; [apply list_elem_of_In|]; assumption.
Qed.

Lemma best_index_bound blocks centres (key : nat * num -> num) best :
  locate_centres blocks [] = Some centres ->
  py_min key (sorted_by_y centres) = Some best -> (fst best < 4)%nat.
Proof.
  intros Hc Hb. apply py_min_elem in Hb. rewrite sorted_by_y_perm in Hb.
  apply fragments_keys.
  destruct (locate_centres_keys _ _ _ Hc (fst best)) as [H|H]; [|inversion H|exact H].
  apply list_elem_of_fmap. exists best. auto.
Qed.

Lemma sorted_by_y_nonempty centres :
  (4 <= length centres)%nat -> sorted_by_y centres <> [].
Proof.
  intros Hlen Hnil. pose proof (Permutation_length (sorted_by_y_perm centres)) as H.
  rewrite Hnil in H. simpl in H. lia.
Qed.

(** With the four labels and the mark located, the resolver answers with
    the Italian form of one of the four indices. *)
Lemma get_stato_resolved blocks bmap gender xb :
  words_ok blocks -> (4 <= fragments_found blocks)%nat ->
  first_mark blocks = Some xb ->
  exists centres bbx best,
    locate_centres blocks [] = Some centres
    /\ Geometry xb = Some bbx
    /\ py_min (distance_to (centre_y bbx)) (sorted_by_y centres) = Some best
    /\ (fst best < 4)%nat
    /\ get_stato_from_vertical_boxes blocks bmap gender
       = italian_form gender (fst best).
Proof.
  intros Hok H4 Hx.
  destruct (get_stato_unfold blocks bmap gender Hok) as (c & Hc & Hg).
  destruct (first_mark_geometry blocks xb Hok Hx) as [bbx Hbb].
  pose proof (centres_length blocks c Hok Hc) as Hlen.
  destruct (Nat.ltb_spec (fragments_found blocks) 4) as [?|_]; [lia|].
  apply Nat.ltb_ge in Hlen.
  destruct (py_min_is_Some (distance_to (centre_y bbx)) (sorted_by_y c)
              (sorted_by_y_nonempty c Hlen)) as [best Hbest].
  exists c, bbx, best. repeat split; try assumption.
  - eapply best_index_bound; eassumption.
  - rewrite Hg, Hx. simpl. rewrite Hbb. simpl. rewrite Hbest. reflexivity.
Qed.

Lemma get_stato_total blocks bmap gender :
  words_ok blocks -> is_Some (get_stato_from_vertical_boxes blocks bmap gender).
Proof.
  intros Hok.
  destruct (get_stato_unfold blocks bmap gender Hok) as (c & Hc & Hg).
  destruct (Nat.ltb_spec (fragments_found blocks) 4) as [Hlt|Hge].
  - rewrite Hg. eauto.
  - destruct (first_mark blocks) as [xb|] eqn:Hx.
    + destruct (get_stato_resolved blocks bmap gender xb Hok Hge Hx)
        as (c' & bbx & best & _ & _ & _ & Hb & ->).
      destruct (italian_form_values gender (fst best) Hb) as (s & -> & _). eauto.
    + rewrite Hg. eauto.
Qed.

Lemma get_stato_range blocks bmap gender s :
  get_stato_from_vertical_boxes blocks bmap gender = Some s -> s ∈ STATO_VALUES.
Proof.
  unfold get_stato_from_vertical_boxes.
  destruct (locate_centres blocks []) as [c|] eqn:Hc; simpl; [|discriminate].
  destruct (length c <? 4)%nat; [intros [= <-]; left|].
  destruct (find_x_block blocks) as [[xb|]|]; simpl;
    [| intros [= <-]; left | discriminate].
  destruct (Geometry xb) as [bbx|]; simpl; [|discriminate].
  destruct (py_min _ (sorted_by_y c)) as [best|] eqn:Hb; simpl; [|discriminate].
  pose proof (best_index_bound _ _ _ _ Hc Hb) as Hlt.
  intros Hs.
  assert (Hs2 : italian_form gender (fst best) = Some s)
    by (rewrite <- gender_form; exact Hs).
  destruct (italian_form_values gender (fst best) Hlt) as (s' & Hs' & Hin & _).
  congruence.
Qed.

End Resolver.

(** *** Nearest label, under a strict weak order *)

Section ResolverOrder.

Context {R : Number} {ok : num -> bool} {O : NumberOrder R ok} {U : Unicode}.

Implicit Types (blocks : list (@Block R)) (centres : list (nat * num)).

Lemma num_lt_asym (a b : num) : num_lt a b = true -> num_lt b a = false.
Proof.
  intros Hab. destruct (num_lt b a) eqn:Hba; [|reflexivity].
  pose proof (num_lt_trans _ _ _ Hab Hba) as H. rewrite num_lt_irrefl in H.
  discriminate.
Qed.

Lemma num_lt_below (a b c : num) :
  ok c = true ->
  num_lt a b = true -> num_lt c b = false -> num_lt a c = true.
Proof.
  intros Hc Hab Hcb.
  destruct (num_lt_cotrans _ _ c Hc Hab) as [H|H]; [exact H|].
  congruence.
Qed.

(** [min] returns the first of the items with the least key: the items
    before it have a strictly greater key, no item after it a smaller one. *)
Lemma min_go_split {A} (key : A -> num) (l pre0 mid : list A) (b : A) :
  (forall p, p ∈ mid -> ok (key p) = true) ->
  (forall p, p ∈ l -> ok (key p) = true) ->
  (forall p, p ∈ pre0 -> num_lt (key b) (key p) = true) ->
  (forall p, p ∈ mid -> num_lt (key p) (key b) = false) ->
  exists pre post,
    pre0 ++ b :: mid ++ l = pre ++ min_go key b l :: post
    /\ (forall p, p ∈ pre -> num_lt (key (min_go key b l)) (key p) = true)
    /\ (forall p, p ∈ post -> num_lt (key p) (key (min_go key b l)) = false).
Proof.
  revert pre0 mid b.
  induction l as [|q l IH]; intros pre0 mid b Hokm Hokl Hpre Hmid; simpl.
  - exists pre0, mid. rewrite app_nil_r. auto.
  - assert (Hokl' : forall p, p ∈ l -> ok (key p) = true)
      by (intros p Hp; apply Hokl; right; exact Hp).
    destruct (num_lt (key q) (key b)) eqn:Hq.
    + destruct (IH (pre0 ++ b :: mid) [] q) as (pre & post & Heq & H1 & H2).
      * intros p Hp. inversion Hp.
      * exact Hokl'.
      * intros p Hp. apply elem_of_app in Hp as [Hp | Hp].
        -- eapply num_lt_trans; [exact Hq | auto].
        -- apply elem_of_cons in Hp as [-> | Hp]; [exact Hq|].
           eapply num_lt_below; [auto | exact Hq | auto].
      * intros p Hp. inversion Hp.
      * exists pre, post. split; [|auto]. rewrite <- Heq. simpl.
        rewrite <- app_assoc. reflexivity.
    + destruct (IH pre0 (mid ++ [q]) b) as (pre & post & Heq & H1 & H2).
      * intros p Hp. apply elem_of_app in Hp as [Hp | Hp]; [auto|].
        apply list_elem_of_singleton in Hp. subst. apply Hokl. left.
      * exact Hokl'.
      * exact Hpre.
      * intros p Hp. apply elem_of_app in Hp as [Hp | Hp]; [auto|].
        apply list_elem_of_singleton in Hp. subst. exact Hq.
      * exists pre, post. split; [|auto]. rewrite <- Heq.
        rewrite <- app_assoc. reflexivity.
Qed.

Lemma py_min_first {A} (key : A -> num) (l : list A) (m : A) :
  (forall p, p ∈ l -> ok (key p) = true) ->
  py_min key l = Some m ->
  exists pre post,
    l = pre ++ m :: post
    /\ (forall p, p ∈ pre -> num_lt (key m) (key p) = true)
    /\ (forall p, p ∈ post -> num_lt (key p) (key m) = false).
Proof.
  destruct l as [|b l]; simpl; [discriminate|]. intros Hok [= <-].
  destruct (min_go_split key l [] [] b) as (pre & post & Heq & H1 & H2).
  - intros p Hp. inversion Hp.
  - intros p Hp. apply Hok. right. exact Hp.
  - intros p Hp. inversion Hp.
  - intros p Hp. inversion Hp.
  - exists pre, post. auto.
Qed.

Lemma insert_by_y_sorted p l :
  StronglySorted by_y l -> StronglySorted by_y (insert_by_y p l).
Proof.
  induction 1 as [|q l Hs IH Hq]; simpl.
  - repeat constructor.
  - destruct (num_lt (snd p) (snd q)) eqn:Hpq.
    + constructor; [constructor; assumption|].
      constructor; [apply num_lt_asym; exact Hpq|].
      apply Forall_forall. intros r Hr.
      rewrite Forall_forall in Hq. specialize (Hq r Hr). unfold by_y in *.
      destruct (num_lt (snd r) (snd p)) eqn:Hrp; [|reflexivity].
      rewrite (num_lt_trans _ _ _ Hrp Hpq) in Hq. discriminate.
    + constructor; [exact IH|].
      apply Forall_forall. intros r Hr.
      rewrite insert_by_y_perm in Hr. apply elem_of_cons in Hr as [-> | Hr].
      * exact Hpq.
      * rewrite Forall_forall in Hq. auto.
Qed.

Lemma sorted_by_y_sorted l : StronglySorted by_y (sorted_by_y l).
Proof.
  unfold sorted_by_y.
  assert (H : forall acc, StronglySorted by_y acc ->
            StronglySorted by_y (fold_left (fun acc p => insert_by_y p acc) l acc)).
  { induction l as [|p l IH]; intros acc Hacc; simpl; [exact Hacc|].
    apply IH, insert_by_y_sorted, Hacc. }
  apply H. constructor.
Qed.

Lemma insert_by_y_stable p l (y : num) :
  ok y = true -> (forall r, r ∈ l -> ok (snd r) = true) ->
  StronglySorted by_y l ->
  List.filter (same_y y) (insert_by_y p l)
  = List.filter (same_y y) l ++ List.filter (same_y y) [p].
Proof.
  intros Hy Hokl Hsorted. induction Hsorted as [|q l Hs IH Hq]; [reflexivity|].
  assert (Hokl' : forall r, r ∈ l -> ok (snd r) = true)
    by (intros r Hr; apply Hokl; right; exact Hr).
  specialize (IH Hokl').
  cbn [insert_by_y]. destruct (num_lt (snd p) (snd q)) eqn:Hpq.
  - cbn [List.filter]. destruct (same_y y p) eqn:Hp; [|rewrite app_nil_r; reflexivity].
    assert (Hnone : forall r, r ∈ q :: l -> same_y y r = false).
    { intros r Hr. unfold same_y in *.
      apply andb_true_iff in Hp as [Hp1 Hp2].
      apply negb_true_iff in Hp1, Hp2.
      assert (Hpr : num_lt (snd p) (snd r) = true).
      { apply elem_of_cons in Hr as [-> | Hr]; [exact Hpq|].
        rewrite Forall_forall in Hq.
        eapply num_lt_below; [apply Hokl'; exact Hr | exact Hpq | apply Hq, Hr]. }
      destruct (num_lt_cotrans _ _ y Hy Hpr) as [H|H]; [congruence|].
      rewrite H. apply andb_false_r. }
    assert (Hnil : List.filter (same_y y) (q :: l) = []).
    { clear -Hnone. induction (q :: l) as [|r rs IHrs]; [reflexivity|].
      cbn [List.filter]. rewrite (Hnone r) by left.
      apply IHrs. intros r' Hr'. apply Hnone. right. exact Hr'. }
    cbn [List.filter] in Hnil. rewrite Hnil. reflexivity.
  - cbn [List.filter]. rewrite IH.
    destruct (same_y y q); [reflexivity|reflexivity].
Qed.

Lemma sorted_by_y_snoc l p : sorted_by_y (l ++ [p]) = insert_by_y p (sorted_by_y l).
Proof. unfold sorted_by_y. rewrite fold_left_app. reflexivity. Qed.

(** [sorted] is stable: items with the same key keep their order. *)
Lemma sorted_by_y_stable l (y : num) :
  ok y = true -> (forall r, r ∈ l -> ok (snd r) = true) ->
  List.filter (same_y y) (sorted_by_y l) = List.filter (same_y y) l.
Proof.
  intros Hy. induction l as [|p l IH] using rev_ind; intros Hokl; [reflexivity|].
  assert (Hokl' : forall r, r ∈ l -> ok (snd r) = true)
    by (intros r Hr; apply Hokl, elem_of_app; left; exact Hr).
  rewrite sorted_by_y_snoc, insert_by_y_stable.
  - rewrite (IH Hokl'), List.filter_app. reflexivity.
  - exact Hy.
  - intros r Hr. rewrite sorted_by_y_perm in Hr. apply Hokl'. exact Hr.
  - apply sorted_by_y_sorted.
Qed.

Lemma sorted_after pre x post :
  StronglySorted by_y (pre ++ x :: post) ->
  forall p, p ∈ post -> num_lt (snd p) (snd x) = false.
Proof.
  induction pre as [|q pre IH]; simpl; intros Hs p Hp.
  - apply StronglySorted_inv in Hs as [_ Hx].
    rewrite Forall_forall in Hx. apply Hx. exact Hp.
  - apply StronglySorted_inv in Hs as [Hs _]. auto.
Qed.

Lemma labels_all_found blocks (c : nat -> num) :
  words_ok blocks ->
  (forall idx, (idx < 4)%nat -> label_centre idx blocks = Some (c idx)) ->
  fragments_found blocks = 4%nat.
Proof.
  intros Hok Hlab. apply fragments_found_all. intros idx Hidx.
  apply label_centre_is_Some; [exact Hok|]. rewrite (Hlab idx Hidx). eauto.
Qed.

Lemma centres_perm blocks centres (c : nat -> num) :
  NoDup centres.*1 ->
  (forall k, k ∈ centres.*1 -> (k < 4)%nat) ->
  (forall idx, (idx < 4)%nat -> centre_of idx centres = Some (c idx)) ->
  centres ≡ₚ [(0, c 0); (1, c 1); (2, c 2); (3, c 3)]%nat.
Proof.
  intros Hnd Hlt Hl. apply NoDup_Permutation.
  - eapply NoDup_fmap_1. exact Hnd.
  - apply (NoDup_fmap_1 fst). simpl.
    repeat (apply NoDup_cons; split;
            [rewrite ?elem_of_cons, elem_of_nil; lia|]). apply NoDup_nil_2.
  - intros [k y]. split.
    + intros Hin.
      assert (Hk : (k < 4)%nat).
      { apply Hlt. apply list_elem_of_fmap. exists (k, y). auto. }
      pose proof (centre_of_NoDup k centres y Hnd Hin) as Hy.
      rewrite (Hl k Hk) in Hy. injection Hy as <-.
      rewrite !elem_of_cons, elem_of_nil.
      destruct k as [|[|[|[|k]]]]; try lia; auto.
    + rewrite !elem_of_cons, elem_of_nil.
      intros [H|[H|[H|[H|[]]]]]; injection H as -> ->;
        apply centre_of_Some, Hl; lia.
Qed.

(** The resolver returns the form of the label nearest to the mark, the
    first such label in the order of [sorted]. *)
Lemma resolver_nearest blocks bmap gender (c : nat -> num) (x : num) :
  words_ok blocks ->
  (forall idx, (idx < 4)%nat -> label_centre idx blocks = Some (c idx)) ->
  mark_centre blocks = Some x ->
  let d := fun idx => num_abs (num_sub (c idx) x) in
  (forall idx, (idx < 4)%nat -> ok (c idx) = true /\ ok (d idx) = true) ->
  exists best centres pre post,
    (best < 4)%nat
    /\ get_stato_from_vertical_boxes blocks bmap gender = italian_form gender best
    /\ (forall j, (j < 4)%nat -> num_lt (d j) (d best) = false)
    /\ locate_centres blocks [] = Some centres
    /\ centres ≡ₚ [(0, c 0); (1, c 1); (2, c 2); (3, c 3)]%nat
    /\ StronglySorted by_y (sorted_by_y centres)
    /\ (forall y, ok y = true ->
          List.filter (same_y y) (sorted_by_y centres)
          = List.filter (same_y y) centres)
    /\ sorted_by_y centres = pre ++ (best, c best) :: post
    /\ (forall p, p ∈ pre -> num_lt (d best) (distance_to x p) = true)
    /\ (forall p, p ∈ post -> num_lt (distance_to x p) (d best) = false)
    /\ (forall j, (j < 4)%nat -> num_lt (d best) (d j) = false ->
          num_lt (c j) (c best) = false).
Proof.
  intros Hok Hlab Hmark d Hcmp.
  pose proof (labels_all_found blocks c Hok Hlab) as H4.
  unfold mark_centre in Hmark.
  destruct (first_mark blocks) as [xb|] eqn:Hx; simpl in Hmark; [|discriminate].
  destruct (get_stato_resolved blocks bmap gender xb Hok ltac:(lia) Hx)
    as (cs & bbx & [bi y] & Hc & Hbb & Hbest & Hlt & Hres).
  rewrite Hbb in Hmark. injection Hmark as <-.
  destruct (centres_spec blocks Hok) as (cs' & Hc' & Hnd & Hkeys & Hl).
  rewrite Hc in Hc'. injection Hc' as <-.
  assert (Hcl : forall idx, (idx < 4)%nat -> centre_of idx cs = Some (c idx)).
  { intros idx Hidx. rewrite Hl. auto. }
  pose proof (centres_perm blocks cs c Hnd Hkeys Hcl) as Hperm.
  assert (Hform : forall p, p ∈ cs -> exists j, (j < 4)%nat /\ p = (j, c j)).
  { intros p Hp. rewrite Hperm in Hp. rewrite !elem_of_cons, elem_of_nil in Hp.
    destruct Hp as [->|[->|[->|[->|[]]]]]; eexists; (split; [|reflexivity]); lia. }
  pose proof (py_min_elem _ _ _ Hbest) as Hin.
  rewrite sorted_by_y_perm in Hin. simpl in Hlt.
  assert (Hy : y = c bi).
  { pose proof (centre_of_NoDup bi cs y Hnd Hin) as E.
    rewrite (Hcl bi Hlt) in E. congruence. }
  subst y.
  assert (Hkeys' : forall p, p ∈ sorted_by_y cs ->
            ok (distance_to (centre_y bbx) p) = true).
  { intros p Hp. rewrite sorted_by_y_perm in Hp.
    destruct (Hform p Hp) as (j & Hj & ->). apply (Hcmp j Hj). }
  destruct (py_min_first _ _ _ Hkeys' Hbest)
    as (pre & post & Hsplit & Hpre & Hpost).
  assert (Hmem : forall j, (j < 4)%nat ->
            (j, c j) ∈ pre \/ (j, c j) = (bi, c bi) \/ (j, c j) ∈ post).
  { intros j Hj. pose proof (centre_of_Some j cs (c j) (Hcl j Hj)) as Hjin.
    rewrite <- (sorted_by_y_perm cs), Hsplit in Hjin.
    rewrite elem_of_app, elem_of_cons in Hjin. tauto. }
  exists bi, cs, pre, post.
  split; [exact Hlt|]. split; [exact Hres|]. split; [|split; [exact Hc|]].
  - intros j Hj. destruct (Hmem j Hj) as [H|[H|H]].
    + apply num_lt_asym. apply (Hpre _ H).
    + injection H as -> _. apply num_lt_irrefl.
    + apply (Hpost _ H).
  - split; [exact Hperm|].
    split; [apply sorted_by_y_sorted|].
    split.
    { intros y0 Hy0. apply sorted_by_y_stable; [exact Hy0|].
      intros r Hr. destruct (Hform r Hr) as (j & Hj & ->). apply (Hcmp j Hj). }
    split; [exact Hsplit|]. split; [exact Hpre|]. split; [exact Hpost|].
    intros j Hj Htie. destruct (Hmem j Hj) as [H|[H|H]].
    + specialize (Hpre _ H). unfold distance_to in Hpre. simpl in Hpre.
      unfold d in Htie.
      change (vertical_centre bbx) with (centre_y bbx) in Htie. congruence.
    + injection H as -> _. apply num_lt_irrefl.
    + pose proof (sorted_by_y_sorted cs) as Hs. rewrite Hsplit in Hs.
      apply (sorted_after _ _ _ Hs _ H).
Qed.

(** C4.  When the four status fragments and a mark are found, and the
    centres and distances are comparable numbers (every rational; every
    float but NaN), the resolver selects the label whose vertical centre
    (top + height/2, in the arithmetic of the numbers) is nearest to the
    centre of the mark, the first such label in the order in which [min]
    meets them (the labels sorted by centre, labels of equal centre in the
    order they were located), and returns its Italian form for the gender:
    feminine when the lower-cased gender starts with "f", masculine when it
    starts with "m", both forms joined by " / " otherwise.  In particular
    a mark strictly nearest to label 2 with gender "Femminile" gives
    "Divorziata". *)
Theorem stato_nearest_label blocks bmap gender (c : nat -> num) (x : num) :
  words_ok blocks ->
  (forall idx, (idx < 4)%nat -> label_centre idx blocks = Some (c idx)) ->
  mark_centre blocks = Some x ->
  let d := fun idx => num_abs (num_sub (c idx) x) in
  (forall idx, (idx < 4)%nat -> ok (c idx) = true /\ ok (d idx) = true) ->
  (exists best centres pre post,
      (best < 4)%nat
      /\ get_stato_from_vertical_boxes blocks bmap gender = italian_form gender best
      /\ (forall j, (j < 4)%nat -> num_lt (d j) (d best) = false)
      /\ locate_centres blocks [] = Some centres
      /\ centres ≡ₚ [(0, c 0); (1, c 1); (2, c 2); (3, c 3)]%nat
      /\ StronglySorted by_y (sorted_by_y centres)
      /\ (forall y, ok y = true ->
            List.filter (same_y y) (sorted_by_y centres)
            = List.filter (same_y y) centres)
      /\ sorted_by_y centres = pre ++ (best, c best) :: post
      /\ (forall p, p ∈ pre -> num_lt (d best) (distance_to x p) = true)
      /\ (forall p, p ∈ post -> num_lt (distance_to x p) (d best) = false)
      /\ (forall j, (j < 4)%nat -> num_lt (d best) (d j) = false ->
            num_lt (c j) (c best) = false))
  /\ (italian_form gender
      = fun idx =>
          if first_letter_is 102 (lower gender) then female !! idx
          else if first_letter_is 109 (lower gender) then male !! idx
          else m ← male !! idx; f ← female !! idx; Some (m ++ SLASH ++ f))
  /\ ((forall j, (j < 4)%nat -> j <> 2%nat -> num_lt (d 2%nat) (d j) = true) ->
      get_stato_from_vertical_boxes blocks bmap FEMMINILE = Some DIVORZIATA).
Proof.
  intros Hok Hlab Hmark d Hcmp. split; [|split].
  - apply resolver_nearest; assumption.
  - reflexivity.
  - intros Hnear.
    destruct (resolver_nearest blocks bmap FEMMINILE c x Hok Hlab Hmark Hcmp)
      as (best & _ & _ & _ & Hlt & -> & Hmin & _).
    destruct (Nat.eq_dec best 2%nat) as [-> | Hne]; [reflexivity|].
    specialize (Hmin 2%nat ltac:(lia)).
    pose proof (Hnear best Hlt Hne) as Hn. unfold d in Hn. congruence.
Qed.

End ResolverOrder.

(** *** What the resolver returns *)

Section ResolverValues.

Context {R : Number} {U : Unicode}.

Implicit Types (blocks : list (@Block R)).

(** C3.  On blocks whose WORD blocks carry a text and a bounding box, the
    resolver returns the unresolved sentinel exactly when fewer than four
    of the status fragments occur in the trimmed, lower-cased text of some
    WORD block, or no WORD block has "x", "x." or "x," for trimmed,
    lower-cased text.  With fewer than four fragments the sentinel is
    returned whether or not a mark is present. *)
Theorem stato_unresolved_iff blocks bmap gender :
  words_ok blocks ->
  (get_stato_from_vertical_boxes blocks bmap gender = Some UNRESOLVED
   <-> (fragments_found blocks < 4)%nat \/ first_mark blocks = None)
  /\ ((fragments_found blocks < 4)%nat ->
      get_stato_from_vertical_boxes blocks bmap gender = Some UNRESOLVED).
Proof.
  intros Hok.
  destruct (get_stato_unfold blocks bmap gender Hok) as (c & Hc & Hg).
  assert (Hlt : (fragments_found blocks < 4)%nat ->
                get_stato_from_vertical_boxes blocks bmap gender = Some UNRESOLVED).
  { intros H. apply Nat.ltb_lt in H. rewrite Hg, H. reflexivity. }
  split; [|exact Hlt]. split.
  - intros Hres.
    destruct (Nat.ltb_spec (fragments_found blocks) 4) as [H|H]; [left; exact H|].
    destruct (first_mark blocks) as [xb|] eqn:Hx; [|right; reflexivity].
    exfalso.
    destruct (get_stato_resolved blocks bmap gender xb Hok H Hx)
      as (c' & bbx & best & _ & _ & _ & Hb & Heq).
    destruct (italian_form_values gender (fst best) Hb) as (s & Hs & _ & Hne).
    congruence.
  - intros [H|H]; [exact (Hlt H)|].
    rewrite Hg, H. destruct (fragments_found blocks <? 4)%nat; reflexivity.
Qed.

(** C10.  Whatever the blocks and the gender, a returned civil status is
    one of thirteen strings: the sentinel, the four masculine forms, the
    four feminine forms, or a masculine form joined by " / " to the
    feminine form of the same index.  The resolver returns whenever the
    WORD blocks carry a text and a bounding box. *)
Theorem stato_values blocks bmap gender :
  match get_stato_from_vertical_boxes blocks bmap gender with
  | Some s => s ∈ STATO_VALUES
  | None => ~ words_ok blocks
  end
  /\ length STATO_VALUES = 13%nat
  /\ NoDup STATO_VALUES.
Proof.
  split; [|split].
  - destruct (get_stato_from_vertical_boxes blocks bmap gender) as [s|] eqn:E.
    + eapply get_stato_range. exact E.
    + intros Hok. destruct (get_stato_total blocks bmap gender Hok) as [s Hs].
      congruence.
  - reflexivity.
  - apply (bool_decide_unpack _). vm_compute. reflexivity.
Qed.

End ResolverValues.

(** ** The rationals are a strict weak order *)

Lemma Qltb_lt (a b : Q) : Qltb a b = true <-> (a < b)%Q.
Proof. unfold Qltb, Qlt. apply Z.ltb_lt. Qed.

Lemma rational_order : NumberOrder rational any_rational.
Proof.
  constructor; cbn [num_lt num rational].
  - intros a. unfold Qltb. apply Z.ltb_irrefl.
  - intros a b c. rewrite !Qltb_lt. apply Qlt_trans.
  - intros a b c _. rewrite !Qltb_lt. intros Hab.
    destruct (Qlt_le_dec a c) as [H|H]; [left; exact H|].
    right. eapply Qle_lt_trans; eassumption.
Qed.

(** *** The order of the floats *)

Lemma SFltb_lex (x y : spec_float) :
  sf_nan x = false -> sf_nan y = false ->
  SFltb x y = true <-> lex_lt (sf_key x) (sf_key y).
Proof.
  destruct x as [sx|sx| |sx mx ex], y as [sy|sy| |sy my ey];
    try discriminate; intros _ _; unfold SFltb, lex_lt;
    cbn [SFcompare sf_key fst snd];
    try destruct sx; try destruct sy; cbn [fst snd];
    try (split; [discriminate | lia]);
    try (split; [lia | reflexivity]).
  - change (Pos.compare_cont Eq mx my) with (Pos.compare mx my).
    destruct (Z.compare_spec ex ey), (Pos.compare_spec mx my); cbn [CompOpp];
      split; try discriminate; try lia; reflexivity.
  - change (Pos.compare_cont Eq mx my) with (Pos.compare mx my).
    destruct (Z.compare_spec ex ey), (Pos.compare_spec mx my);
      split; try discriminate; try lia; reflexivity.
Qed.

Lemma SFltb_not_nan (x y : spec_float) :
  SFltb x y = true -> sf_nan x = false /\ sf_nan y = false.
Proof.
  destruct x, y; unfold SFltb; cbn [SFcompare sf_nan]; try discriminate; auto.
Qed.

Lemma not_nan_spec (x : float) : not_nan x = negb (sf_nan (Prim2SF x)).
Proof.
  unfold not_nan, is_nan. rewrite FloatAxioms.eqb_spec. f_equal. unfold SFeqb.
  destruct (Prim2SF x) as [s|s| |s m e]; cbn [SFcompare sf_nan];
    try destruct s; try reflexivity.
  - rewrite Z.compare_refl.
    change (Pos.compare_cont Eq m m) with (Pos.compare m m).
    rewrite Pos.compare_refl. reflexivity.
  - rewrite Z.compare_refl.
    change (Pos.compare_cont Eq m m) with (Pos.compare m m).
    rewrite Pos.compare_refl. reflexivity.
Qed.

Lemma ltb_lex (x y : float) :
  PrimFloat.ltb x y = true <->
  sf_nan (Prim2SF x) = false /\ sf_nan (Prim2SF y) = false
  /\ lex_lt (sf_key (Prim2SF x)) (sf_key (Prim2SF y)).
Proof.
  rewrite FloatAxioms.ltb_spec. split.
  - intros H. destruct (SFltb_not_nan _ _ H) as [Hx Hy].
    split; [exact Hx|]. split; [exact Hy|]. apply SFltb_lex; assumption.
  - intros (Hx & Hy & H). apply SFltb_lex; assumption.
Qed.

(** On IEEE 754 binary64 [<] is a strict weak order on the floats that
    are not NaN. *)
Lemma binary64_order : NumberOrder binary64 not_nan.
Proof.
  constructor; cbn [num_lt num binary64].
  - intros a. destruct (PrimFloat.ltb a a) eqn:E; [|reflexivity].
    apply ltb_lex in E as (_ & _ & H). unfold lex_lt in H. lia.
  - intros a b c. rewrite !ltb_lex. intros (Ha & Hb & H1) (_ & Hc & H2).
    split; [exact Ha|]. split; [exact Hc|]. unfold lex_lt in *. lia.
  - intros a b c. rewrite not_nan_spec, negb_true_iff, !ltb_lex.
    intros Hc (Ha & Hb & H).
    assert (Hk : lex_lt (sf_key (Prim2SF a)) (sf_key (Prim2SF c))
                 \/ lex_lt (sf_key (Prim2SF c)) (sf_key (Prim2SF b)))
      by (unfold lex_lt in *; lia).
    destruct Hk as [Hk|Hk]; [left | right]; auto.
Qed.

(** ** Checking well-formedness *)

Section CheckerFacts.

Context {R : Number} {U : Unicode}.

Lemma words_okb_ok (blocks : list (@Block R)) :
  words_okb blocks = true -> words_ok blocks.
Proof.
  unfold words_okb, words_ok. rewrite forallb_forall.
  intros H w Hin Hw. apply list_elem_of_In in Hin. specialize (H w Hin).
  apply (proj2 (str_eqb_true _ _)) in Hw. rewrite Hw in H. simpl in H.
  apply andb_true_iff in H as [H1 H2].
  apply bool_decide_eq_true in H1, H2. auto.
Qed.

Lemma wf_blockb_ok (bmap : gmap pystr (@Block R)) (b : @Block R) :
  wf_blockb bmap b = true -> wf_block bmap b.
Proof.
  unfold wf_blockb, wf_block. rewrite !andb_true_iff.
  intros [[[Hids Hcell] Htext] Hgeo]. repeat split.
  - intros rel id Hrel Hid. rewrite forallb_forall in Hids.
    apply list_elem_of_In in Hrel, Hid. specialize (Hids rel Hrel).
    rewrite forallb_forall in Hids. specialize (Hids id Hid).
    apply bool_decide_eq_true in Hids. exact Hids.
  - apply (proj2 (str_eqb_true _ _)) in H. rewrite H in Hcell. simpl in Hcell.
    apply andb_true_iff in Hcell as [H1 _]. apply bool_decide_eq_true in H1. exact H1.
  - apply (proj2 (str_eqb_true _ _)) in H. rewrite H in Hcell. simpl in Hcell.
    apply andb_true_iff in Hcell as [_ H2]. apply bool_decide_eq_true in H2. exact H2.
  - intros Hwl.
    assert (E : str_eqb (BlockType b) WORD || str_eqb (BlockType b) LINE = true).
    { apply orb_true_iff. destruct Hwl as [Hw|Hl]; [left|right];
        apply str_eqb_true; assumption. }
    rewrite E in Htext. simpl in Htext. apply bool_decide_eq_true in Htext.
    exact Htext.
  - intros Hw. apply (proj2 (str_eqb_true _ _)) in Hw. rewrite Hw in Hgeo.
    simpl in Hgeo. apply bool_decide_eq_true in Hgeo. exact Hgeo.
Qed.

Lemma well_formedb_ok (blocks : list (@Block R)) (bmap : gmap pystr (@Block R)) :
  well_formedb blocks bmap = true -> well_formed blocks bmap.
Proof.
  unfold well_formedb, well_formed. rewrite andb_true_iff, !forallb_forall.
  intros [Hb Hm]. split.
  - intros b Hin. apply wf_blockb_ok, Hb, list_elem_of_In, Hin.
  - intros id b Hl. apply wf_blockb_ok.
    apply (Hm (id, b)). apply list_elem_of_In, elem_of_map_to_list. exact Hl.
Qed.

End CheckerFacts.

(** ** Electronic seal *)

Section Seal.

Context {R : Number} {U : Unicode}.

Implicit Types (blocks : list (@Block R)) (lines : list pystr).

(** A date needs a "/", which no hexadecimal string has. *)
Lemma date_not_hex (s : pystr) :
  match_seq (body DATE_RE) s = true -> forallb ishex s = false.
Proof.
  destruct s as [|c1 [|c2 [|c3 [|c4 [|c5 s]]]]];
    cbn [match_seq body DATE_RE]; rewrite ?andb_false_r; try discriminate.
  intros H. repeat (apply andb_true_iff in H as [? H]).
  match goal with H : lit 47 c5 = true |- _ => apply N.eqb_eq in H; subst c5 end.
  cbn [forallb]. replace (ishex 47) with false by reflexivity.
  rewrite ?andb_false_r, ?andb_false_l. reflexivity.
Qed.

Lemma hex_no_date_go (prev : option char) (s : pystr) :
  forallb ishex s = true -> search_go DATE_RE prev s = false.
Proof.
  revert prev. induction s as [|c s IH]; intros prev Hhex.
  - reflexivity.
  - cbn [search_go]. apply orb_false_iff. split.
    + unfold match_at. cbn [wb_before wb_after DATE_RE negb orb andb].
      destruct (match_seq (body DATE_RE) (c :: s)) eqn:E; [|reflexivity].
      apply date_not_hex in E. congruence.
    + apply IH. cbn [forallb] in Hhex. apply andb_true_iff in Hhex. tauto.
Qed.

Lemma hash_line_not_date (raw : pystr) :
  is_hash_line raw = true -> is_date_line raw = false.
Proof.
  unfold is_hash_line, is_date_line, fullmatch_hash, search. intros H.
  apply hex_no_date_go.
  apply andb_true_iff in H as [H _]. apply andb_true_iff in H as [H _]. exact H.
Qed.

Lemma seal_date_truthy (raw : pystr) : truthy (seal_date raw) = true.
Proof. reflexivity. Qed.

Lemma hash_line_truthy (raw : pystr) :
  is_hash_line raw = true -> truthy (strip raw) = true.
Proof.
  unfold is_hash_line, fullmatch_hash. intros H.
  apply andb_true_iff in H as [H _]. apply andb_true_iff in H as [_ H].
  apply Nat.leb_le in H. destruct (strip raw); [simpl in H; lia | reflexivity].
Qed.

Lemma seal_scan_spec lines (d0 h0 : pystr) :
  seal_scan lines d0 h0 = (scan_date lines d0, scan_hash lines h0).
Proof.
  revert d0 h0. induction lines as [|raw lines IH]; intros d0 h0.
  - unfold scan_date, scan_hash. destruct d0, h0; reflexivity.
  - cbn [seal_scan]. fold (is_date_line raw). fold (is_hash_line raw).
    unfold scan_date, scan_hash. cbn [List.find].
    destruct (truthy d0) eqn:Ed; cbn [negb andb].
    + destruct (truthy h0) eqn:Eh; cbn [negb andb].
      * rewrite Ed, Eh. reflexivity.
      * destruct (is_hash_line raw) eqn:Ehash.
        -- rewrite Ed, (hash_line_truthy raw Ehash). reflexivity.
        -- rewrite Ed, Eh. cbn [andb]. rewrite IH.
           unfold scan_date, scan_hash. rewrite Ed, Eh. reflexivity.
    + destruct (is_date_line raw) eqn:Edate.
      * fold (seal_date raw). rewrite seal_date_truthy. cbn [andb from_option].
        assert (Ehash : is_hash_line raw = false).
        { destruct (is_hash_line raw) eqn:E; [|reflexivity].
          apply hash_line_not_date in E. congruence. }
        rewrite Ehash.
        destruct (truthy h0) eqn:Eh; [reflexivity|].
        rewrite IH. unfold scan_date, scan_hash.
        rewrite seal_date_truthy, Eh. reflexivity.
      * destruct (truthy h0) eqn:Eh; cbn [negb andb].
        -- rewrite Ed. cbn [andb]. rewrite IH.
           unfold scan_date, scan_hash. rewrite Ed, Eh. reflexivity.
        -- destruct (is_hash_line raw) eqn:Ehash.
           ++ rewrite Ed. cbn [andb from_option]. rewrite IH.
              unfold scan_date, scan_hash.
              rewrite Ed, (hash_line_truthy raw Ehash). reflexivity.
           ++ rewrite Ed. cbn [andb]. rewrite IH.
              unfold scan_date, scan_hash. rewrite Ed, Eh. reflexivity.
Qed.


(** The [k]-th index recorded is that of a marker line with exactly [k]
    marker lines before it. *)
Lemma marker_indices_lookup i lines k j :
  marker_indices i lines !! k = Some j ->
  exists n t, j = (i + n)%nat /\ lines !! n = Some t /\ has_marker t = true
    /\ length (filter (fun t => has_marker t = true) (take n lines)) = k.
Proof.
  revert i k. induction lines as [|t lines IH]; intros i k; [discriminate|].
  cbn [marker_indices]. fold (has_marker t).
  destruct (has_marker t) eqn:E.
  - destruct k as [|k]; simpl.
    + intros [= <-]. exists 0%nat, t. repeat split; [lia | exact E].
    + intros H. destruct (IH _ _ H) as (n & t' & -> & Hn & Ht & Hc).
      exists (S n), t'. repeat split; [lia | exact Hn | exact Ht |].
      cbn [take]. rewrite filter_cons, decide_True by exact E. simpl. lia.
  - intros H. destruct (IH _ _ H) as (n & t' & -> & Hn & Ht & Hc).
    exists (S n), t'. repeat split; [lia | exact Hn | exact Ht |].
    cbn [take]. rewrite filter_cons, decide_False by congruence. exact Hc.
Qed.

Lemma extract_seal_footer_text blocks lines :
  line_texts blocks = Some lines ->
  extract_seal_footer blocks = Some (seal_text lines).
Proof.
  intros Hl. unfold extract_seal_footer, seal_text, second_marker.
  rewrite Hl. simpl.
  destruct (marker_indices 0 lines) as [|i0 [|start rest]]; try reflexivity.
  simpl. rewrite seal_scan_spec. unfold scan_date, scan_hash. simpl.
  destruct (List.find is_date_line (drop start lines)) as [rd|] eqn:Ed; simpl.
  - destruct (List.find is_hash_line (drop start lines)) as [rh|] eqn:Eh; simpl.
    + apply find_some in Eh as [_ Eh]. rewrite (hash_line_truthy rh Eh).
      reflexivity.
    + reflexivity.
  - destruct (List.find is_hash_line (drop start lines)); reflexivity.
Qed.





End Seal.


Example seal_one_marker : extract_seal_footer Sample.one_marker = Some [].
Proof. vm_compute. reflexivity. Qed.


(** ** Table fields and header: totality *)

Section Totality.

Context {R : Number} {U : Unicode}.

Implicit Types (blocks : list (@Block R)) (bmap : gmap pystr (@Block R)).
Implicit Types (rows : gmap Z (gmap Z pystr)).

Lemma well_formed_words blocks bmap : well_formed blocks bmap -> words_ok blocks.
Proof.
  intros [Hb _] w Hin Hw. destruct (Hb w Hin) as (_ & _ & Ht & Hg).
  split; [apply Ht; left; exact Hw | apply Hg; exact Hw].
Qed.

Lemma line_texts_total blocks :
  (forall b, b ∈ blocks -> BlockType b = LINE -> is_Some (Text b)) ->
  is_Some (line_texts blocks).
Proof.
  intros H. unfold line_texts. apply mapM_is_Some, Forall_forall.
  intros b Hb. apply list_elem_of_filter in Hb as [Hl Hb]. simpl. auto.
Qed.

Lemma well_formed_lines blocks bmap :
  well_formed blocks bmap -> is_Some (line_texts blocks).
Proof.
  intros [Hb _]. apply line_texts_total. intros b Hin Hl.
  destruct (Hb b Hin) as (_ & _ & Ht & _). apply Ht. right. exact Hl.
Qed.

Lemma word_texts_total bmap ids :
  (forall id b, bmap !! id = Some b -> wf_block bmap b) ->
  (forall id, id ∈ ids -> is_Some (bmap !! id)) ->
  is_Some (word_texts bmap ids).
Proof.
  intros Hm. induction ids as [|wid ids IH]; intros Hids; simpl; [eauto|].
  destruct (Hids wid ltac:(left)) as [w Hw]. rewrite Hw. simpl.
  destruct IH as [ts Hts]; [intros id Hid; apply Hids; right; exact Hid|].
  rewrite Hts.
  destruct (str_eqb (BlockType w) WORD) eqn:E; [|eauto].
  apply str_eqb_true in E. destruct (Hm _ _ Hw) as (_ & _ & Ht & _).
  destruct Ht as [t Ht]; [left; exact E|]. rewrite Ht. simpl. eauto.
Qed.

Lemma cell_text_total bmap cell :
  (forall id b, bmap !! id = Some b -> wf_block bmap b) ->
  wf_block bmap cell -> is_Some (cell_text bmap cell).
Proof.
  intros Hm (Hids & _). unfold cell_text.
  destruct (word_texts_total bmap
              (flat_map Ids (default [] (Relationships cell))) Hm) as [ts Hts].
  - intros id Hid. apply list_elem_of_In, in_flat_map in Hid as (rel & Hrel & Hid).
    apply (Hids rel id); apply list_elem_of_In; assumption.
  - rewrite Hts. simpl. eauto.
Qed.

Lemma add_cells_total bmap ids rows :
  (forall id b, bmap !! id = Some b -> wf_block bmap b) ->
  (forall id, id ∈ ids -> is_Some (bmap !! id)) ->
  is_Some (add_cells bmap ids rows).
Proof.
  intros Hm. revert rows. induction ids as [|cid ids IH]; intros rows Hids;
    simpl; [eauto|].
  destruct (Hids cid ltac:(left)) as [cell Hcell]. rewrite Hcell. simpl.
  assert (Hrest : forall id, id ∈ ids -> is_Some (bmap !! id))
    by (intros id Hid; apply Hids; right; exact Hid).
  destruct (str_eqb (BlockType cell) CELL) eqn:E; simpl; [|apply IH; exact Hrest].
  apply str_eqb_true in E. pose proof (Hm _ _ Hcell) as Hwf.
  destruct Hwf as (Hi & Hrc & Hrest').
  destruct (Hrc E) as [[r Hr] [c Hc]]. rewrite Hr, Hc. simpl.
  destruct (cell_text_total bmap cell Hm (Hm _ _ Hcell)) as [txt Htxt].
  rewrite Htxt. simpl. apply IH. exact Hrest.
Qed.

Lemma add_relationships_total bmap rels rows :
  (forall id b, bmap !! id = Some b -> wf_block bmap b) ->
  (forall rel id, rel ∈ rels -> id ∈ Ids rel -> is_Some (bmap !! id)) ->
  is_Some (add_relationships bmap rels rows).
Proof.
  intros Hm. revert rows. induction rels as [|rel rels IH]; intros rows Hids;
    simpl; [eauto|].
  assert (Hrest : forall rel' id, rel' ∈ rels -> id ∈ Ids rel' -> is_Some (bmap !! id))
    by (intros rel' id Hr; apply Hids; right; exact Hr).
  destruct (str_eqb (RelType rel) CHILD); simpl; [|apply IH; exact Hrest].
  destruct (add_cells_total bmap (Ids rel) rows Hm) as [rows' Hrows'].
  - intros id Hid. apply (Hids rel id); [left | exact Hid].
  - rewrite Hrows'. simpl. apply IH. exact Hrest.
Qed.

Lemma first_table_Some blocks tbl :
  first_table blocks = Some tbl -> tbl ∈ blocks /\ BlockType tbl = TABLE.
Proof.
  unfold first_table. intros H. apply find_some in H as [Hin Ht].
  split; [apply list_elem_of_In; exact Hin | apply str_eqb_true; exact Ht].
Qed.

Lemma first_table_None blocks :
  first_table blocks = None <-> forall b, b ∈ blocks -> BlockType b <> TABLE.
Proof.
  unfold first_table. split.
  - intros H b Hin. apply list_elem_of_In in Hin.
    apply str_eqb_false. exact (find_none _ _ H b Hin).
  - intros H. destruct (List.find _ blocks) as [b|] eqn:E; [|reflexivity].
    apply find_some in E as [Hin Ht]. apply str_eqb_true in Ht.
    apply list_elem_of_In in Hin. destruct (H b Hin Ht).
Qed.

Lemma first_table_is_Some blocks : has_table blocks -> is_Some (first_table blocks).
Proof.
  intros (b & Hin & Ht). destruct (first_table blocks) eqn:E; [eauto|].
  destruct (proj1 (first_table_None blocks) E b Hin Ht).
Qed.

Lemma table_grid_total blocks bmap :
  well_formed blocks bmap -> has_table blocks -> is_Some (table_grid blocks bmap).
Proof.
  intros [Hb Hm] Ht. unfold table_grid.
  destruct (first_table_is_Some blocks Ht) as [tbl Htbl]. rewrite Htbl. simpl.
  apply add_relationships_total; [exact Hm|].
  apply first_table_Some in Htbl as [Hin _].
  destruct (Hb tbl Hin) as (Hids & _). exact Hids.
Qed.

Lemma residenza_row rows :
  truthy (get_cell rows 9 2) = true -> is_Some (rows !! 9%Z).
Proof.
  unfold get_cell. destruct (rows !! 9%Z); [eauto|].
  simpl. rewrite lookup_empty. discriminate.
Qed.

(** Cleaning the Residenza cell touches no other cell. *)
Lemma get_cell_cleaned_9 rows row9 v :
  get_cell (<[9%Z := <[2%Z := v]> row9]> rows) 9 2 = v.
Proof. unfold get_cell. rewrite lookup_insert_eq. simpl. by rewrite lookup_insert_eq. Qed.

Lemma get_cell_cleaned_other rows row9 v (r : Z) :
  r <> 9%Z -> get_cell (<[9%Z := <[2%Z := v]> row9]> rows) r 2 = get_cell rows r 2.
Proof. intros Hr. unfold get_cell. rewrite lookup_insert_ne by congruence. reflexivity. Qed.

Lemma insert_list_to_map (k x : pystr) (l : list (pystr * pystr)) :
  k ∈ l.*1 ->
  <[k := x]> (list_to_map l : gmap pystr pystr) = list_to_map (update_field k x l).
Proof.
  induction l as [|[j y] l IH]; intros Hin; [inversion Hin|].
  cbn [update_field map fst]. rewrite !list_to_map_cons.
  fold (update_field k x l).
  assert (Hl : <[k := x]> (list_to_map l : gmap pystr pystr)
               = <[k := x]> (list_to_map (update_field k x l))).
  { destruct (decide (k ∈ l.*1)) as [Hk|Hk].
    - rewrite <- (IH Hk), insert_insert_eq. reflexivity.
    - f_equal. f_equal. unfold update_field. symmetry.
      rewrite <- (map_id l) at 2. apply map_ext_in. intros [j' y'] Hj'.
      rewrite bool_decide_eq_false_2; [reflexivity|]. simpl. intros ->.
      apply Hk. apply list_elem_of_fmap. exists (k, y').
      split; [reflexivity | apply list_elem_of_In; exact Hj']. }
  destruct (decide (j = k)) as [-> | Hne].
  - rewrite bool_decide_eq_true_2 by reflexivity.
    rewrite list_to_map_cons, insert_insert_eq, Hl. reflexivity.
  - rewrite bool_decide_eq_false_2 by exact Hne.
    rewrite list_to_map_cons, insert_insert_ne by congruence. f_equal.
    apply IH. rewrite fmap_cons in Hin.
    apply elem_of_cons in Hin as [Hin|Hin]; [simpl in Hin; congruence | exact Hin].
Qed.

Lemma lookup_fields (l : list (pystr * pystr)) (k v : pystr) :
  NoDup l.*1 -> (k, v) ∈ l -> (list_to_map l : gmap pystr pystr) !! k = Some v.
Proof. intros Hnd Hin. apply elem_of_list_to_map; assumption. Qed.

Lemma normalize_place_fields (l : list (pystr * pystr)) (k v : pystr) :
  NoDup l.*1 -> (k, v) ∈ l ->
  normalize_place k (list_to_map l) = list_to_map (update_field k (map_exonyms v) l).
Proof.
  intros Hnd Hin. unfold normalize_place.
  rewrite (lookup_fields l k v Hnd Hin). simpl default.
  apply insert_list_to_map. apply list_elem_of_fmap. exists (k, v). auto.
Qed.

Ltac keys_nodup := apply (bool_decide_unpack _); vm_compute; reflexivity.

Lemma record_assembly (v2 v3 v4 v5 v6 v7 v8 v9 sesso stato v12 v13 v14 seal : pystr) :
  let result : gmap pystr pystr :=
    list_to_map
      [ (K_NOME, v2); (K_COGNOME, v3); (K_NUMERO, v4); (K_PADRE, v5);
        (K_MADRE, v6); (K_NASCITA, v7); (K_LUOGO, v8); (K_RESIDENZA, v9);
        (K_SESSO, sesso); (K_STATO, stato); (K_CITTADINANZA, v12);
        (K_COGNOME_PRIMA, v13); (K_RILASCIO, v14); (K_SEAL, seal) ] in
  let result := normalize_place K_RESIDENZA (normalize_place K_LUOGO result) in
  (if existsb (str_eqb (upper (strip (default [] (result !! K_CITTADINANZA)))))
              ALBANIAN_VARIANTS
   then <[K_CITTADINANZA := ALBANESE]> result
   else result)
  = list_to_map
      [ (K_NOME, v2); (K_COGNOME, v3); (K_NUMERO, v4); (K_PADRE, v5);
        (K_MADRE, v6); (K_NASCITA, v7); (K_LUOGO, map_exonyms v8);
        (K_RESIDENZA, map_exonyms v9);
        (K_SESSO, sesso); (K_STATO, stato);
        (K_CITTADINANZA, cittadinanza_of v12);
        (K_COGNOME_PRIMA, v13); (K_RILASCIO, v14); (K_SEAL, seal) ].
Proof.
  intros result0 result. unfold result, result0. clear result result0.
  rewrite (normalize_place_fields _ K_LUOGO v8);
    [|keys_nodup | do 6 right; left].
  generalize (map_exonyms v8). intros e8.
  cbv [update_field map fst]. rewrite !bool_decide_eq_false_2 by discriminate.
  rewrite bool_decide_eq_true_2 by reflexivity.
  rewrite !bool_decide_eq_false_2 by discriminate.
  rewrite (normalize_place_fields _ K_RESIDENZA v9);
    [|keys_nodup | do 7 right; left].
  generalize (map_exonyms v9). intros e9.
  cbv [update_field map fst]. rewrite !bool_decide_eq_false_2 by discriminate.
  rewrite bool_decide_eq_true_2 by reflexivity.
  rewrite !bool_decide_eq_false_2 by discriminate.
  rewrite (lookup_fields _ K_CITTADINANZA v12); [|keys_nodup | do 10 right; left].
  simpl default. unfold cittadinanza_of.
  destruct (existsb _ ALBANIAN_VARIANTS); [|reflexivity].
  rewrite insert_list_to_map
    by (apply list_elem_of_fmap; exists (K_CITTADINANZA, v12);
        split; [reflexivity | do 10 right; left]).
  cbv [update_field map fst]. rewrite !bool_decide_eq_false_2 by discriminate.
  rewrite bool_decide_eq_true_2 by reflexivity.
  rewrite !bool_decide_eq_false_2 by discriminate.
  reflexivity.
Qed.

Lemma seal_footer_total blocks bmap :
  well_formed blocks bmap -> is_Some (extract_seal_footer blocks).
Proof.
  intros Hwf. destruct (well_formed_lines blocks bmap Hwf) as [lines Hl].
  rewrite (extract_seal_footer_text blocks lines Hl). eauto.
Qed.

(** The record [extract_table_fields] returns, field by field. *)
Lemma record_fields blocks bmap rows :
  well_formed blocks bmap -> table_grid blocks bmap = Some rows ->
  exists stato seal,
    get_stato_from_vertical_boxes blocks bmap
      (sesso_of (upper (strip (get_cell rows 10 2)))) = Some stato
    /\ extract_seal_footer blocks = Some seal
    /\ extract_table_fields blocks bmap
       = Some (list_to_map (expected_fields rows stato seal)).
Proof.
  intros Hwf Hgrid.
  destruct (get_stato_total blocks bmap
              (sesso_of (upper (strip (get_cell rows 10 2))))
              (well_formed_words _ _ Hwf)) as [stato Hstato].
  destruct (seal_footer_total blocks bmap Hwf) as [seal Hseal].
  exists stato, seal. split; [exact Hstato|]. split; [exact Hseal|].
  unfold table_grid in Hgrid. unfold extract_table_fields.
  destruct (first_table blocks) as [tbl|]; [|discriminate].
  simpl in Hgrid. rewrite Hgrid. cbn [mbind option_bind].
  unfold expected_fields, residenza_cell.
  destruct (truthy (get_cell rows 9 2)) eqn:Et.
  - destruct (residenza_row rows Et) as [row9 H9]. rewrite H9.
    cbn [mbind option_bind].
    rewrite get_cell_cleaned_9.
    rewrite !get_cell_cleaned_other by discriminate.
    rewrite Hstato, Hseal. cbn [mbind option_bind].
    rewrite <- record_assembly.
    match goal with |- (if ?c then _ else _) = _ => destruct c end; reflexivity.
  - cbn [mbind option_bind]. rewrite Hstato, Hseal. cbn [mbind option_bind].
    rewrite <- record_assembly.
    match goal with |- (if ?c then _ else _) = _ => destruct c end; reflexivity.
Qed.

Lemma scan_header_total (lines : list pystr) (comune sezione : pystr) :
  is_Some (scan_header lines comune sezione).
Proof.
  revert comune sezione. induction lines as [|l rest IH]; intros comune sezione;
    cbn [scan_header]; [eauto|].
  destruct (contains NJESIA_ADMINISTRATIVE_1 l || contains NJESIA_ADMINISTRATIVE_2 l)
    eqn:E.
  - assert (Hc : contains ADMINISTRATIVE l = true).
    { apply orb_true_iff in E as [E|E].
      - apply (contains_suffix [78; 106; 235; 115; 105; 97; 32]). exact E.
      - apply (contains_suffix [78; 106; 101; 115; 105; 97; 32]). exact E. }
    destruct (split_after_is_Some _ _ Hc) as [after Ha]. rewrite Ha.
    cbn [mbind option_bind]. apply IH.
  - cbn [mbind option_bind]. apply IH.
Qed.

Lemma comune_sezione_total blocks bmap :
  well_formed blocks bmap -> is_Some (extract_comune_sezione blocks).
Proof.
  intros Hwf. unfold extract_comune_sezione.
  destruct (well_formed_lines blocks bmap Hwf) as [lines ->]. simpl.
  destruct (scan_header_total lines [] []) as [cs ->]. simpl. eauto.
Qed.

Lemma table_fields_total blocks bmap :
  well_formed blocks bmap -> is_Some (extract_table_fields blocks bmap).
Proof.
  intros Hwf. destruct (first_table blocks) as [tbl|] eqn:Et.
  - destruct (table_grid_total blocks bmap Hwf) as [rows Hrows].
    + apply first_table_Some in Et as [Hin Ht]. exists tbl. auto.
    + destruct (record_fields blocks bmap rows Hwf Hrows) as (? & ? & _ & _ & ->).
      eauto.
  - unfold extract_table_fields. rewrite Et. eauto.
Qed.

(** C2.  Without a TABLE block the extractor returns the empty mapping. *)
Theorem no_table_empty blocks bmap :
  (forall b, b ∈ blocks -> BlockType b <> TABLE) ->
  extract_table_fields blocks bmap = Some ∅.
Proof.
  intros H. apply first_table_None in H.
  unfold extract_table_fields. rewrite H. reflexivity.
Qed.

(** C1, amended.  On well-formed input with a TABLE block the extractor
    returns a record whose keys are exactly the fourteen output keys, each
    mapped to a string. *)
Theorem record_keys blocks bmap :
  well_formed blocks bmap -> has_table blocks ->
  exists rec, extract_table_fields blocks bmap = Some rec
    /\ (forall k, k ∈ OUTPUT_KEYS -> is_Some (rec !! k))
    /\ dom rec = list_to_set OUTPUT_KEYS.
Proof.
  intros Hwf Ht.
  destruct (table_grid_total blocks bmap Hwf Ht) as [rows Hrows].
  destruct (record_fields blocks bmap rows Hwf Hrows)
    as (stato & seal & _ & _ & ->).
  eexists. split; [reflexivity|].
  assert (Hdom : dom (list_to_map (expected_fields rows stato seal)
                        : gmap pystr pystr) = list_to_set OUTPUT_KEYS).
  { rewrite dom_list_to_map_L. reflexivity. }
  split; [|exact Hdom].
  intros k Hk. apply elem_of_dom. rewrite Hdom.
  apply elem_of_list_to_set. exact Hk.
Qed.

(** C9.  On well-formed input the three extraction functions return: the
    table fields (the empty record when there is no TABLE block, the empty
    string for a missing row or cell and for a seal without two marker
    lines), the header pair (also when the administrative-unit line ends
    with "nr." and is the last line), and the civil status for every
    gender string. *)
Theorem extraction_total blocks bmap :
  well_formed blocks bmap ->
  is_Some (extract_table_fields blocks bmap)
  /\ is_Some (extract_comune_sezione blocks)
  /\ (forall gender, is_Some (get_stato_from_vertical_boxes blocks bmap gender))
  /\ (first_table blocks = None -> extract_table_fields blocks bmap = Some ∅)
  /\ (forall rows r c, rows !! r = None -> get_cell rows r c = [])
  /\ (forall rows r c row, rows !! r = Some row -> row !! c = None ->
        get_cell rows r c = [])
  /\ (forall lines, line_texts blocks = Some lines ->
        second_marker lines = None -> extract_seal_footer blocks = Some [])
  /\ (forall comune sezione,
        scan_header [py "Njësia Administrative nr."] comune sezione
        = Some (comune, py "Nr. ")).
Proof.
  intros Hwf.
  split; [apply table_fields_total; exact Hwf|].
  split; [eapply comune_sezione_total; exact Hwf|].
  split; [intros gender; apply get_stato_total; eapply well_formed_words; exact Hwf|].
  split; [intros Et; unfold extract_table_fields; rewrite Et; reflexivity|].
  split; [intros rows r c Hr; unfold get_cell; rewrite Hr; simpl;
          rewrite lookup_empty; reflexivity|].
  split; [intros rows r c row Hr Hc; unfold get_cell; rewrite Hr; simpl;
          rewrite Hc; reflexivity|].
  split.
  - intros lines Hl Hs. rewrite (extract_seal_footer_text blocks lines Hl).
    unfold seal_text. rewrite Hs. reflexivity.
  - intros comune sezione. vm_compute. reflexivity.
Qed.

End Totality.

(** ** Individual fields *)

Section Fields.

Context {R : Number} {U : Unicode}.

Implicit Types (blocks : list (@Block R)) (bmap : gmap pystr (@Block R)).
Implicit Types (rows : gmap Z (gmap Z pystr)).

Lemma field_lookup rows (stato seal : pystr) (k v : pystr) :
  (k, v) ∈ expected_fields rows stato seal ->
  (list_to_map (expected_fields rows stato seal) : gmap pystr pystr) !! k = Some v.
Proof.
  intros Hin. apply elem_of_list_to_map; [|exact Hin].
  apply (bool_decide_unpack _). vm_compute. reflexivity.
Qed.

(** C6, amended.  The Sesso field is computed from the trimmed, upper-cased
    cell (10, 2): "M" gives "Maschio", "F" gives "Femminile", and any other
    value, the empty string included, is returned trimmed and upper-cased. *)
Theorem sesso_field blocks bmap rows :
  well_formed blocks bmap -> table_grid blocks bmap = Some rows ->
  let code := upper (strip (get_cell rows 10 2)) in
  exists rec, extract_table_fields blocks bmap = Some rec
    /\ (code = py "M" -> rec !! K_SESSO = Some MASCHIO)
    /\ (code = py "F" -> rec !! K_SESSO = Some FEMMINILE)
    /\ (code <> py "M" -> code <> py "F" -> rec !! K_SESSO = Some code)
    /\ (get_cell rows 10 2 = [] -> rec !! K_SESSO = Some []).
Proof.
  intros Hwf Hrows code.
  destruct (record_fields blocks bmap rows Hwf Hrows)
    as (stato & seal & _ & _ & ->).
  eexists. split; [reflexivity|].
  assert (Hs : (list_to_map (expected_fields rows stato seal) : gmap pystr pystr)
               !! K_SESSO = Some (sesso_of code)).
  { apply field_lookup. unfold expected_fields.
    rewrite !elem_of_cons. do 8 right. left. reflexivity. }
  rewrite Hs. unfold sesso_of, str_eqb. repeat split.
  - intros ->. reflexivity.
  - intros ->. reflexivity.
  - intros H1 H2. rewrite !bool_decide_eq_false_2 by assumption. reflexivity.
  - intros H0. unfold code. rewrite H0. reflexivity.
Qed.

Lemma sub_nd_literal (s : pystr) (skip : nat) (prev : option char) :
  nd_literal s = true ->
  sub_go ND_RE ED skip prev s = replace_go ND_DOT ED skip s.
Proof.
  revert skip prev. induction s as [|c s IH]; intros skip prev H; [reflexivity|].
  cbn [nd_literal] in H. apply andb_true_iff in H as [Hc Hs].
  apply eqb_prop in Hc.
  cbn [sub_go replace_go]. destruct skip as [|k]; [|apply IH; exact Hs].
  assert (Hm : match_at ND_RE prev (c :: s) = startswith ND_DOT (c :: s)).
  { rewrite <- Hc. unfold match_at. cbn [wb_before wb_after ND_RE negb orb].
    rewrite andb_true_r. reflexivity. }
  rewrite Hm. destruct (startswith ND_DOT (c :: s)).
  - f_equal. apply IH. exact Hs.
  - f_equal. apply IH. exact Hs.
Qed.

Lemma clean_residenza_literal (v : pystr) :
  nd_literal v = true ->
  clean_residenza v
  = fold_left (fun out r => replace (fst r) (snd r) out) RESIDENZA_LITERALS v.
Proof.
  intros H. unfold clean_residenza, RESIDENZA_LITERALS, sub, replace.
  cbn [fold_left fst snd]. rewrite (sub_nd_literal v 0 None H). reflexivity.
Qed.

(** C7, amended.  For a non-empty cell (9, 2) in which the pattern "Nd."
    matches only literal occurrences of "Nd.", the Residenza value is the
    place normaliser applied to the text after the literal replacements,
    in this order: "Nd." to "Ed.", "H." to "Int.", "Ap." to "App.",
    "Njësia" to "Sezione", "Administrative" to "Amministrativa", "NJËSIA"
    to "Sezione", "ADMINISTRATIVE" to "Amministrativa", "NJESIA" to
    "Sezione", "Njesia" to "Sezione".  Only these spellings are rewritten. *)
Theorem residenza_field blocks bmap rows :
  well_formed blocks bmap -> table_grid blocks bmap = Some rows ->
  get_cell rows 9 2 <> [] -> nd_literal (get_cell rows 9 2) = true ->
  exists rec, extract_table_fields blocks bmap = Some rec
    /\ rec !! K_RESIDENZA
       = Some (map_exonyms
                 (fold_left (fun out r => replace (fst r) (snd r) out)
                            RESIDENZA_LITERALS (get_cell rows 9 2)))
    /\ RESIDENZA_LITERALS
       = [ (py "Nd.", py "Ed."); (py "H.", py "Int."); (py "Ap.", py "App.");
           (py "Njësia", py "Sezione");
           (py "Administrative", py "Amministrativa");
           (py "NJËSIA", py "Sezione");
           (py "ADMINISTRATIVE", py "Amministrativa");
           (py "NJESIA", py "Sezione"); (py "Njesia", py "Sezione") ].
Proof.
  intros Hwf Hrows Hne Hnd.
  destruct (record_fields blocks bmap rows Hwf Hrows)
    as (stato & seal & _ & _ & ->).
  eexists. split; [reflexivity|]. split; [|reflexivity].
  rewrite <- (clean_residenza_literal _ Hnd).
  apply field_lookup. unfold expected_fields.
  rewrite !elem_of_cons. do 7 right. left.
  unfold residenza_cell. apply truthy_true in Hne. rewrite Hne. reflexivity.
Qed.

End Fields.

(** ** Place exonyms *)

Section Exonyms.

Context {U : Unicode}.

Ltac ranges :=
  unfold isword, isalnum, in_range in *;
  rewrite ?orb_true_iff, ?andb_true_iff, ?negb_true_iff, ?N.leb_le, ?N.eqb_eq,
    ?N.eqb_neq in *;
  lia.

(** The lower-case mapping only moves word characters. *)
Lemma tolower_cases (c : char) : tolower c = c \/ isword c = true.
Proof.
  unfold tolower.
  repeat match goal with
         | |- context [if ?b then _ else _] => destruct b eqn:?
         end;
    [right; ranges .. | left; reflexivity].
Qed.

(** A character whose lower-case mapping is a word character is one. *)
Lemma tolower_word (c : char) : isword (tolower c) = true -> isword c = true.
Proof.
  intros H. destruct (tolower_cases c) as [E|E]; [|exact E].
  rewrite E in H. exact H.
Qed.

Lemma ci_lit_word (c ch : char) :
  isword (tolower c) = true ->
  forallb isword (ignorecase_fixes (tolower c)) = true ->
  ci_lit c ch = true -> isword ch = true.
Proof.
  intros Hc Hf H. unfold ci_lit in H. cbn [existsb] in H.
  apply tolower_word. apply orb_true_iff in H as [H|H].
  - apply N.eqb_eq in H. rewrite H. exact Hc.
  - apply existsb_exists in H as (x & Hin & Hx). apply N.eqb_eq in Hx.
    rewrite Hx. rewrite forallb_forall in Hf. apply Hf. exact Hin.
Qed.

Lemma ci_set_word (cs : pystr) (ch : char) :
  forallb letter_ok cs = true -> ci_set cs ch = true -> isword ch = true.
Proof.
  intros Hcs H. unfold ci_set in H.
  apply existsb_exists in H as (c & Hin & Hc).
  rewrite forallb_forall in Hcs. specialize (Hcs c Hin).
  apply andb_true_iff in Hcs as [H1 H2]. eapply ci_lit_word; eassumption.
Qed.

Lemma word_ci_pattern (letters set tail : pystr) :
  letters <> [] ->
  forallb letter_ok (letters ++ set ++ tail) = true ->
  word_pattern (word_ci letters set tail).
Proof.
  intros Hne H. rewrite !forallb_app, !andb_true_iff in H.
  destruct H as (Hl & Hs & Ht).
  split; [reflexivity|]. split; [reflexivity|]. split.
  - cbn [body word_ci]. destruct letters; [congruence | discriminate].
  - cbn [body word_ci]. rewrite !Forall_app. split; [|split].
    + apply Forall_fmap, Forall_forall. intros c Hin ch Hch.
      rewrite forallb_forall in Hl. apply list_elem_of_In in Hin.
      specialize (Hl c Hin). apply andb_true_iff in Hl as [H1 H2].
      eapply ci_lit_word; eassumption.
    + constructor; [|constructor]. intros ch. apply ci_set_word. exact Hs.
    + apply Forall_fmap, Forall_forall. intros c Hin ch Hch.
      rewrite forallb_forall in Ht. apply list_elem_of_In in Hin.
      specialize (Ht c Hin). apply andb_true_iff in Ht as [H1 H2].
      eapply ci_lit_word; eassumption.
Qed.

Lemma exonym_patterns :
  Forall (fun rule => word_pattern (fst rule)
                      /\ snd rule <> [] /\ all_word (snd rule)) EXONYM_RULES.
Proof.
  unfold EXONYM_RULES.
  repeat (constructor;
          [split; [apply word_ci_pattern; [discriminate | reflexivity]|];
           split; [discriminate|];
           unfold all_word; cbn [snd];
           repeat (constructor; [reflexivity|]); constructor|]).
  constructor.
Qed.

Local Opaque isword.

(** *** Runs of word characters *)

Lemma takewhile_dropwhile (q : char -> bool) (s : pystr) :
  takewhile q s ++ dropwhile q s = s.
Proof.
  induction s as [|c s IH]; simpl; [reflexivity|].
  destruct (q c); simpl; [f_equal; exact IH | reflexivity].
Qed.

Lemma takewhile_all_word (s : pystr) : all_word (takewhile isword s).
Proof.
  unfold all_word. induction s as [|c s IH]; simpl; [constructor|].
  destruct (isword c) eqn:E; constructor; assumption.
Qed.

Lemma dropwhile_sep_headed (s : pystr) : sep_headed (dropwhile isword s).
Proof.
  induction s as [|c s IH]; simpl; [exact I|].
  destruct (isword c) eqn:E; [exact IH | exact E].
Qed.

Lemma dropwhile_length (q : char -> bool) (s : pystr) :
  (length (dropwhile q s) <= length s)%nat.
Proof.
  induction s as [|c s IH]; simpl; [lia|]. destruct (q c); simpl; lia.
Qed.

(** Induction along the decomposition of a string into a run of word
    characters, a separator, and the rest. *)
Lemma span_ind (P : pystr -> Prop) :
  (forall w rest, all_word w -> sep_headed rest ->
     (forall d r, rest = d :: r -> P r) -> P (w ++ rest)) ->
  forall s, P s.
Proof.
  intros Hstep s. remember (length s) as n eqn:Hn. revert s Hn.
  induction n as [n IH] using lt_wf_ind. intros s Hn.
  rewrite <- (takewhile_dropwhile isword s).
  apply Hstep; [apply takewhile_all_word | apply dropwhile_sep_headed|].
  intros d r Hr. apply (IH (length r)); [|reflexivity].
  pose proof (dropwhile_length isword s) as Hle. rewrite Hr in Hle.
  simpl in Hle. lia.
Qed.

Lemma words_map_go_run (f : pystr -> pystr) (cur w rest : pystr) :
  all_word w -> words_map_go f cur (w ++ rest) = words_map_go f (cur ++ w) rest.
Proof.
  intros Hw. revert cur. induction Hw as [|c w Hc Hw IH]; intros cur; simpl.
  - rewrite app_nil_r. reflexivity.
  - rewrite Hc, IH, <- app_assoc. reflexivity.
Qed.

Lemma words_map_span (f : pystr -> pystr) (w rest : pystr) :
  all_word w -> sep_headed rest ->
  words_map f (w ++ rest) = on_word f w ++ words_rest f rest.
Proof.
  intros Hw Hr. unfold words_map. rewrite words_map_go_run by exact Hw.
  simpl. destruct rest as [|d r]; simpl.
  - rewrite app_nil_r. reflexivity.
  - simpl in Hr. rewrite Hr. reflexivity.
Qed.

Lemma words_map_ext (f g : pystr -> pystr) (cur s : pystr) :
  (forall w, f w = g w) -> words_map_go f cur s = words_map_go g cur s.
Proof.
  intros H. revert cur. induction s as [|c s IH]; intros cur; simpl.
  - destruct cur; simpl; [reflexivity | apply H].
  - rewrite !IH. destruct cur; simpl; [reflexivity | rewrite H; reflexivity].
Qed.

Lemma on_word_all_word (g : pystr -> pystr) (w : pystr) :
  (forall w, w <> [] -> all_word w -> g w <> [] /\ all_word (g w)) ->
  all_word w -> all_word (on_word g w).
Proof.
  intros Hg Hw. destruct w as [|c w]; simpl; [constructor|].
  apply Hg; [discriminate | exact Hw].
Qed.

(** Rewriting words twice is rewriting them once with the composition,
    when the first rewriting turns words into words. *)
Lemma words_map_compose (f g : pystr -> pystr) :
  (forall w, w <> [] -> all_word w -> g w <> [] /\ all_word (g w)) ->
  forall s, words_map f (words_map g s) = words_map (fun w => f (g w)) s.
Proof.
  intros Hg. apply (span_ind (fun s => _ = _)). intros w rest Hw Hr IH.
  rewrite (words_map_span g w rest Hw Hr).
  rewrite (words_map_span (fun w => f (g w)) w rest Hw Hr).
  assert (Hr' : sep_headed (words_rest g rest)) by (destruct rest; exact Hr).
  rewrite (words_map_span f (on_word g w) (words_rest g rest)
             (on_word_all_word g w Hg Hw) Hr').
  f_equal.
  - destruct w as [|c w]; simpl; [reflexivity|].
    destruct (Hg (c :: w)) as [Hne _]; [discriminate | exact Hw|].
    destruct (g (c :: w)); [congruence | reflexivity].
  - destruct rest as [|d r]; simpl; [reflexivity|].
    f_equal. apply (IH d r). reflexivity.
Qed.

(** *** Substitution of a word pattern, run by run *)

Lemma match_seq_app (ps : list cls) (a b : pystr) :
  (length ps <= length a)%nat -> match_seq ps (a ++ b) = match_seq ps a.
Proof.
  revert a. induction ps as [|cl ps IH]; intros a Hlen; [reflexivity|].
  destruct a as [|c a]; simpl in Hlen; [lia|].
  cbn [match_seq app]. rewrite IH by lia. reflexivity.
Qed.

(** A sequence of word classes longer than a run cannot match across its
    end. *)
Lemma match_seq_long (ps : list cls) (w rest : pystr) :
  Forall (fun cl : cls => forall c, cl c = true -> isword c = true) ps ->
  sep_headed rest -> (length w < length ps)%nat ->
  match_seq ps (w ++ rest) = false.
Proof.
  intros Hps Hr. revert w. induction Hps as [|cl ps Hcl Hps IH]; intros w Hlen.
  - simpl in Hlen. lia.
  - destruct w as [|c w]; cbn [app].
    + destruct rest as [|d r]; [reflexivity|]. cbn [match_seq].
      simpl in Hr. destruct (cl d) eqn:E; [|reflexivity].
      apply Hcl in E. congruence.
    + cbn [match_seq]. rewrite IH by (simpl in Hlen; lia).
      apply andb_false_r.
Qed.

Lemma last_word (u : pystr) : all_word u -> u <> [] -> opt_isword (last u) = true.
Proof.
  intros Hu Hne. destruct (proj2 (last_is_Some u) Hne) as [c Hc].
  rewrite Hc. simpl. apply last_Some_elem_of in Hc.
  unfold all_word in Hu. rewrite Forall_forall in Hu. auto.
Qed.

Lemma head_word (u : pystr) : all_word u -> u <> [] -> opt_isword (head u) = true.
Proof.
  intros Hu Hne. destruct u as [|c u]; [congruence|]. simpl.
  apply Forall_inv in Hu. exact Hu.
Qed.

Lemma head_sep (rest : pystr) : sep_headed rest -> opt_isword (head rest) = false.
Proof. destruct rest; [reflexivity | exact (fun H => H)]. Qed.

(** At the start of a run, a word pattern matches exactly when its body
    matches the whole run. *)
Lemma match_at_run (p : pattern) (prev : option char) (w rest : pystr) :
  word_pattern p -> opt_isword prev = false ->
  all_word w -> w <> [] -> sep_headed rest ->
  match_at p prev (w ++ rest) = exact_match p w.
Proof.
  intros (Hb & Ha & Hne & Hcls) Hprev Hw Hwne Hr.
  unfold match_at, exact_match. rewrite Hb, Ha. cbn [negb orb].
  assert (Hh : at_boundary prev (head (w ++ rest)) = true).
  { unfold at_boundary. rewrite Hprev.
    destruct w as [|c w]; [congruence|]. simpl.
    apply Forall_inv in Hw. rewrite Hw. reflexivity. }
  rewrite Hh. cbn [andb].
  set (n := length (body p)).
  assert (Hn : (0 < n)%nat) by (unfold n; destruct (body p); [congruence | simpl; lia]).
  destruct (Nat.lt_trichotomy (length w) n) as [Hlt | [Heq | Hgt]].
  - rewrite (match_seq_long (body p) w rest Hcls Hr Hlt).
    rewrite (proj2 (Nat.eqb_neq _ _)) by lia. reflexivity.
  - rewrite (proj2 (Nat.eqb_eq _ _) Heq). cbn [andb].
    rewrite match_seq_app by (fold n; lia).
    destruct (match_seq (body p) w); [|reflexivity]. cbn [andb].
    rewrite (take_app_length' w rest n), (drop_app_length' w rest n) by lia.
    unfold at_boundary. rewrite (last_word w Hw Hwne), (head_sep rest Hr).
    reflexivity.
  - rewrite (proj2 (Nat.eqb_neq _ _)) by lia. cbn [andb].
    rewrite match_seq_app by (fold n; lia).
    destruct (match_seq (body p) w); [|reflexivity]. cbn [andb].
    rewrite (take_app_le w rest n), (drop_app_le w rest n) by lia.
    unfold at_boundary.
    assert (Hd : opt_isword (head (drop n w ++ rest)) = true).
    { pose proof (Forall_drop _ n w Hw) as Hdw.
      destruct (drop n w) as [|c u] eqn:E.
      - apply (f_equal length) in E. rewrite length_drop in E. simpl in E. lia.
      - simpl. apply Forall_inv in Hdw. exact Hdw. }
    rewrite Hd, (last_word (take n w)); [reflexivity |..].
    + apply Forall_take. exact Hw.
    + intros E. apply (f_equal length) in E. rewrite length_take in E.
      simpl in E. lia.
Qed.

(** No match starts on a separator. *)
Lemma match_at_sep (p : pattern) (prev : option char) (d : char) (r : pystr) :
  word_pattern p -> isword d = false -> match_at p prev (d :: r) = false.
Proof.
  intros (_ & _ & Hne & Hcls) Hd. unfold match_at.
  destruct (body p) as [|cl ps]; [congruence|].
  apply Forall_inv in Hcls. cbn [match_seq].
  destruct (cl d) eqn:E; [apply Hcls in E; congruence|].
  cbn [andb]. rewrite andb_false_r. reflexivity.
Qed.

(** No match starts inside a run. *)
Lemma match_at_inside (p : pattern) (prev : option char) (c : char) (s : pystr) :
  word_pattern p -> opt_isword prev = true -> isword c = true ->
  match_at p prev (c :: s) = false.
Proof.
  intros (Hb & _) Hprev Hc. unfold match_at. rewrite Hb.
  unfold at_boundary. cbn [head opt_isword negb orb]. rewrite Hprev, Hc.
  reflexivity.
Qed.

Lemma sub_go_sep (p : pattern) (repl : pystr) (prev : option char) (rest : pystr) :
  word_pattern p -> sep_headed rest ->
  sub_go p repl 0 prev rest = sub_rest p repl rest.
Proof.
  intros Hp Hr. destruct rest as [|d r]; [reflexivity|].
  cbn [sub_go sub_rest]. rewrite (match_at_sep p prev d r Hp Hr). reflexivity.
Qed.

Lemma sub_go_inside (p : pattern) (repl : pystr) (prev : option char)
    (u rest : pystr) :
  word_pattern p -> opt_isword prev = true -> all_word u -> sep_headed rest ->
  sub_go p repl 0 prev (u ++ rest) = u ++ sub_rest p repl rest.
Proof.
  intros Hp Hprev Hu Hr. revert prev Hprev.
  induction Hu as [|c u Hc Hu IH]; intros prev Hprev.
  - apply sub_go_sep; assumption.
  - cbn [app sub_go]. rewrite (match_at_inside p prev c _ Hp Hprev Hc).
    f_equal. apply IH. exact Hc.
Qed.

Lemma sub_go_skip (p : pattern) (repl : pystr) (prev : option char)
    (u rest : pystr) :
  word_pattern p -> sep_headed rest ->
  sub_go p repl (length u) prev (u ++ rest) = sub_rest p repl rest.
Proof.
  intros Hp Hr. revert prev. induction u as [|c u IH]; intros prev.
  - apply sub_go_sep; assumption.
  - cbn [app length sub_go]. apply IH.
Qed.

Lemma sub_go_span (p : pattern) (repl : pystr) (prev : option char)
    (w rest : pystr) :
  word_pattern p -> opt_isword prev = false -> all_word w -> sep_headed rest ->
  sub_go p repl 0 prev (w ++ rest)
  = on_word (rewrite_word p repl) w ++ sub_rest p repl rest.
Proof.
  intros Hp Hprev Hw Hr. destruct w as [|c w].
  - apply sub_go_sep; assumption.
  - change ((c :: w) ++ rest) with (c :: (w ++ rest)). cbn [sub_go on_word].
    change (c :: (w ++ rest)) with ((c :: w) ++ rest).
    rewrite (match_at_run p prev (c :: w) rest Hp Hprev Hw ltac:(discriminate) Hr).
    unfold rewrite_word. destruct (exact_match p (c :: w)) eqn:E.
    + f_equal. unfold exact_match in E. apply andb_true_iff in E as [E _].
      apply Nat.eqb_eq in E. rewrite <- E.
      replace (length (c :: w) - 1)%nat with (length w) by (simpl; lia).
      apply sub_go_skip; assumption.
    + cbn [app]. f_equal. apply sub_go_inside; try assumption.
      * simpl. apply Forall_inv in Hw. exact Hw.
      * apply Forall_inv_tail in Hw. exact Hw.
Qed.

(** [re.sub] with a word pattern rewrites the runs of word characters. *)
Lemma sub_words (p : pattern) (repl s : pystr) :
  word_pattern p -> sub p repl s = words_map (rewrite_word p repl) s.
Proof.
  intros Hp. unfold sub.
  assert (H : forall s prev, opt_isword prev = false ->
                sub_go p repl 0 prev s = words_map (rewrite_word p repl) s).
  { apply (span_ind (fun s => forall prev, opt_isword prev = false ->
                       sub_go p repl 0 prev s
                       = words_map (rewrite_word p repl) s)).
    intros w rest Hw Hr IH prev Hprev.
    rewrite (sub_go_span p repl prev w rest Hp Hprev Hw Hr).
    rewrite (words_map_span _ w rest Hw Hr). f_equal.
    destruct rest as [|d r]; [reflexivity|]. cbn [sub_rest words_rest].
    f_equal. apply (IH d r eq_refl). exact Hr. }
  apply H. reflexivity.
Qed.

Lemma words_map_id (s : pystr) : words_map (fun w => w) s = s.
Proof.
  unfold words_map.
  assert (H : forall cur, words_map_go (fun w => w) cur s = cur ++ s).
  { induction s as [|c s IH]; intros cur; cbn [words_map_go].
    - rewrite app_nil_r. destruct cur; reflexivity.
    - rewrite !IH. destruct (isword c).
      + rewrite <- app_assoc. reflexivity.
      + destruct cur; reflexivity. }
  apply H.
Qed.

Lemma rewrite_word_keeps (p : pattern) (repl w : pystr) :
  repl <> [] -> all_word repl -> w <> [] -> all_word w ->
  rewrite_word p repl w <> [] /\ all_word (rewrite_word p repl w).
Proof.
  intros. unfold rewrite_word. destruct (exact_match p w); auto.
Qed.

(** A chain of word-pattern substitutions rewrites each run with the chain
    of word rewritings. *)
Lemma fold_sub_words (rules : list (pattern * pystr)) (s : pystr) :
  Forall (fun rule => word_pattern (fst rule)
                      /\ snd rule <> [] /\ all_word (snd rule)) rules ->
  fold_left (fun out rule => sub (fst rule) (snd rule) out) rules s
  = words_map (fun w => fold_left (fun out rule =>
                                     rewrite_word (fst rule) (snd rule) out)
                                  rules w) s.
Proof.
  intros Hrules. revert s.
  induction Hrules as [|[p repl] rules (Hp & Hne & Hw) Hrules IH]; intros s.
  - cbn [fold_left]. symmetry. apply words_map_id.
  - cbn [fold_left fst snd]. rewrite IH, (sub_words p repl s Hp).
    apply words_map_compose. intros w. apply rewrite_word_keeps; assumption.
Qed.

Lemma map_exonyms_words (s : pystr) : map_exonyms s = words_map exonym_word s.
Proof.
  unfold map_exonyms. destruct s as [|c s]; [reflexivity|]. cbn [truthy negb].
  apply fold_sub_words. exact exonym_patterns.
Qed.

Lemma rewrite_word_cases (p : pattern) (repl w : pystr) :
  rewrite_word p repl w = w \/ rewrite_word p repl w = repl.
Proof. unfold rewrite_word. destruct (exact_match p w); auto. Qed.

Lemma exonym_word_cases (w : pystr) :
  exonym_word w = w \/ In (exonym_word w) (List.map snd EXONYM_RULES).
Proof.
  unfold exonym_word, EXONYM_RULES. cbn [fold_left fst snd List.map].
  match goal with
  | |- context [rewrite_word ?p ?r w] =>
      destruct (rewrite_word_cases p r w) as [-> | ->];
        [|right; left; vm_compute; reflexivity]
  end.
  match goal with
  | |- context [rewrite_word ?p ?r w] =>
      destruct (rewrite_word_cases p r w) as [-> | ->];
        [|right; right; left; vm_compute; reflexivity]
  end.
  match goal with
  | |- context [rewrite_word ?p ?r w] =>
      destruct (rewrite_word_cases p r w) as [-> | ->];
        [|right; right; right; left; vm_compute; reflexivity]
  end.
  match goal with
  | |- context [rewrite_word ?p ?r w] =>
      destruct (rewrite_word_cases p r w) as [-> | ->];
        [left; reflexivity | right; right; right; right; left; reflexivity]
  end.
Qed.

Lemma exonym_word_fixed (x : pystr) :
  In x (List.map snd EXONYM_RULES) -> exonym_word x = x.
Proof.
  cbn [EXONYM_RULES List.map snd In].
  intros [<- | [<- | [<- | [<- | []]]]]; vm_compute; reflexivity.
Qed.

Lemma exonym_word_idempotent (w : pystr) :
  exonym_word (exonym_word w) = exonym_word w.
Proof.
  destruct (exonym_word_cases w) as [E | E].
  - rewrite !E. reflexivity.
  - apply exonym_word_fixed. exact E.
Qed.

Lemma exonym_word_keeps (w : pystr) :
  w <> [] -> all_word w -> exonym_word w <> [] /\ all_word (exonym_word w).
Proof.
  intros Hne Hw. destruct (exonym_word_cases w) as [E | E].
  - rewrite E. auto.
  - pose proof exonym_patterns as Hp. rewrite Forall_forall in Hp.
    apply in_map_iff in E as (rule & Hr & Hin). rewrite <- Hr.
    apply list_elem_of_In in Hin. destruct (Hp rule Hin) as (_ & H1 & H2). auto.
Qed.

(** C8.  The place normaliser is idempotent; "Tiranë" becomes "Tirana",
    "Tirana" and the empty string are left unchanged. *)
Theorem map_exonyms_idempotent :
  (forall s, map_exonyms (map_exonyms s) = map_exonyms s)
  /\ map_exonyms (py "Tiranë") = py "Tirana"
  /\ map_exonyms (py "Tirana") = py "Tirana"
  /\ map_exonyms [] = [].
Proof.
  split; [|repeat split; vm_compute; reflexivity].
  intros s. rewrite !map_exonyms_words.
  rewrite (words_map_compose exonym_word exonym_word exonym_word_keeps).
  apply words_map_ext. apply exonym_word_idempotent.
Qed.

End Exonyms.

(** ** Witnesses for the resolver *)

Lemma stato_unresolved_iff_witness :
  (get_stato_from_vertical_boxes Sample.blocks Sample.bmap FEMMINILE = Some UNRESOLVED
   <-> (fragments_found Sample.blocks < 4)%nat \/ first_mark Sample.blocks = None)
  /\ ((fragments_found Sample.blocks < 4)%nat ->
      get_stato_from_vertical_boxes Sample.blocks Sample.bmap FEMMINILE
      = Some UNRESOLVED).
Proof.
  apply stato_unresolved_iff.
  apply words_okb_ok. vm_compute. reflexivity.
Defined.

Lemma stato_nearest_label_witness :
  get_stato_from_vertical_boxes Sample.tall_blocks ∅ FEMMINILE
  = Some DIVORZIATA.
Proof.
  refine (proj2 (proj2 (@stato_nearest_label binary64 not_nan binary64_order latin1
            Sample.tall_blocks ∅ FEMMINILE Sample.tall_centre Sample.tall_mark
            _ _ _ _)) _).
  - apply words_okb_ok. vm_compute. reflexivity.
  - intros idx Hidx.
    destruct idx as [|[|[|[|idx]]]]; [vm_compute; reflexivity ..|lia].
  - vm_compute. reflexivity.
  - intros idx Hidx.
    destruct idx as [|[|[|[|idx]]]]; [split; vm_compute; reflexivity ..|lia].
  - intros j Hj Hne.
    destruct j as [|[|[|[|j]]]];
      [vm_compute; reflexivity | vm_compute; reflexivity | congruence
      | vm_compute; reflexivity | lia].
Defined.

(** The same statement on the sample certificate, in exact arithmetic. *)
Example stato_nearest_label_rational :
  get_stato_from_vertical_boxes Sample.blocks Sample.bmap FEMMINILE
  = Some DIVORZIATA.
Proof.
  refine (proj2 (proj2 (@stato_nearest_label rational any_rational rational_order
            latin1 Sample.blocks Sample.bmap FEMMINILE Sample.centre Sample.mark_y
            _ _ _ _)) _).
  - apply words_okb_ok. vm_compute. reflexivity.
  - intros idx Hidx.
    destruct idx as [|[|[|[|idx]]]]; [vm_compute; reflexivity ..|lia].
  - vm_compute. reflexivity.
  - intros idx Hidx. split; reflexivity.
  - intros j Hj Hne.
    destruct j as [|[|[|[|j]]]];
      [vm_compute; reflexivity | vm_compute; reflexivity | congruence
      | vm_compute; reflexivity | lia].
Qed.

(** The centre is top + height/2: label 2 is the tallest box and the mark
    sits at its middle, below the top of label 3. *)
Example tall_centres :
  List.map Sample.tall_centre [0; 1; 2; 3]%nat
  = [0.09375; 0.15625; 0.625; 0.53125]%float
  /\ Sample.tall_mark = 0.625%float.
Proof. split; vm_compute; reflexivity. Qed.

Example stato_binary64 :
  get_stato_from_vertical_boxes Sample.float_blocks ∅ (py "Maschio")
  = Some (py "Divorziato").
Proof. vm_compute. reflexivity. Qed.

(** ** Witnesses and counterexamples for the table fields *)

Lemma sample_well_formed : well_formed Sample.blocks Sample.bmap.
Proof. apply well_formedb_ok. vm_compute. reflexivity. Qed.

Lemma no_table_empty_witness :
  extract_table_fields Sample.seal_lines Sample.bmap = Some ∅.
Proof.
  apply no_table_empty. intros b Hb.
  unfold Sample.seal_lines in Hb.
  repeat (apply elem_of_cons in Hb as [-> | Hb]); try discriminate.
  inversion Hb.
Defined.

(** C1 as stated fails on any block list without a TABLE block: the record
    is empty and the key "Nome" is absent. *)
Lemma record_keys_counterexample :
  extract_table_fields Sample.seal_lines ∅ = Some ∅
  /\ (∅ : gmap pystr pystr) !! K_NOME = None.
Proof. split; [vm_compute; reflexivity | apply lookup_empty]. Qed.

Lemma record_keys_witness :
  exists rec, extract_table_fields Sample.blocks Sample.bmap = Some rec
    /\ (forall k, k ∈ OUTPUT_KEYS -> is_Some (rec !! k))
    /\ dom rec = list_to_set OUTPUT_KEYS.
Proof.
  apply record_keys.
  - apply well_formedb_ok. vm_compute. reflexivity.
  - exists Sample.table_block. split; [|reflexivity].
    unfold Sample.blocks. rewrite !elem_of_app. right. left. left.
Defined.

Lemma extraction_total_witness :
  is_Some (extract_table_fields Sample.blocks Sample.bmap)
  /\ is_Some (extract_comune_sezione Sample.blocks)
  /\ (forall gender,
        is_Some (get_stato_from_vertical_boxes Sample.blocks Sample.bmap gender)).
Proof.
  destruct (extraction_total Sample.blocks Sample.bmap) as (H1 & H2 & H3 & _).
  - apply well_formedb_ok. vm_compute. reflexivity.
  - auto.
Defined.

(** C6 as stated fails on the cell value "n": it is neither "M", "F" nor
    empty, and the field is "N", not "n". *)
Lemma sesso_field_counterexample :
  grid_cell (table_grid Sample.sesso_n (block_map Sample.sesso_n)) 10 2
  = Some (py "n")
  /\ field K_SESSO (extract_table_fields Sample.sesso_n (block_map Sample.sesso_n))
     = Some (py "N")
  /\ py "N" <> py "n".
Proof.
  split; [vm_compute; reflexivity|].
  split; [vm_compute; reflexivity | discriminate].
Qed.

Lemma sesso_field_witness :
  exists rec, extract_table_fields Sample.blocks Sample.bmap = Some rec
    /\ rec !! K_SESSO = Some FEMMINILE.
Proof.
  destruct (sesso_field Sample.blocks Sample.bmap
              (default ∅ (table_grid Sample.blocks Sample.bmap)))
    as (rec & Hrec & _ & Hf & _).
  - apply well_formedb_ok. vm_compute. reflexivity.
  - vm_compute. reflexivity.
  - exists rec. split; [exact Hrec|]. apply Hf. vm_compute. reflexivity.
Defined.

(** C7 as stated fails on the lower-case spelling of the administrative
    unit: it is left as it is, while the capitalised spelling becomes
    "Sezione Amministrativa". *)
Lemma residenza_field_counterexample :
  grid_cell (table_grid Sample.residenza_lower (block_map Sample.residenza_lower)) 9 2
  = Some (py "njësia administrative 5")
  /\ field K_RESIDENZA
       (extract_table_fields Sample.residenza_lower (block_map Sample.residenza_lower))
     = Some (py "njësia administrative 5")
  /\ grid_cell (table_grid Sample.residenza_upper (block_map Sample.residenza_upper)) 9 2
     = Some (py "Njësia Administrative 5")
  /\ field K_RESIDENZA
       (extract_table_fields Sample.residenza_upper (block_map Sample.residenza_upper))
     = Some (py "Sezione Amministrativa 5").
Proof. repeat split; vm_compute; reflexivity. Qed.

(** The pattern [Nd.] is a regular expression: it also rewrites "Nd"
    followed by any other character. *)
Example residenza_nd_regex :
  grid_cell (table_grid Sample.residenza_nd (block_map Sample.residenza_nd)) 9 2
  = Some (py "Nda Ndreu 5")
  /\ field K_RESIDENZA
       (extract_table_fields Sample.residenza_nd (block_map Sample.residenza_nd))
     = Some (py "Ed. Ed.eu 5").
Proof. split; vm_compute; reflexivity. Qed.

Lemma residenza_field_witness :
  exists rec, extract_table_fields Sample.blocks Sample.bmap = Some rec
    /\ rec !! K_RESIDENZA = Some (py "Tirana Sezione Amministrativa App.3").
Proof.
  destruct (residenza_field Sample.blocks Sample.bmap
              (default ∅ (table_grid Sample.blocks Sample.bmap)))
    as (rec & Hrec & Hres & _).
  - apply well_formedb_ok. vm_compute. reflexivity.
  - vm_compute. reflexivity.
  - vm_compute. discriminate.
  - vm_compute. reflexivity.
  - exists rec. split; [exact Hrec|]. rewrite Hres. vm_compute. reflexivity.
Defined.

(** ** The sample certificate, end to end *)

Example cittadinanza_examples :
  List.map cittadinanza_of
    [ py "ALB"; py "Albania"; py "shqiptare"; py "SHQIPTAR"; py "ITA" ]
  = [ ALBANESE; ALBANESE; ALBANESE; ALBANESE; py "ITA" ].
Proof. vm_compute. reflexivity. Qed.

Example sample_record :
  List.map (fun k => field k (extract_table_fields Sample.blocks Sample.bmap))
           OUTPUT_KEYS
  = List.map Some
      [ py "Arta"; py "Hoxha"; py "J12345678A"; py "Agim"; py "Drita";
        py "01/02/1990"; py "Valona"; py "Tirana Sezione Amministrativa App.3";
        py "Femminile"; py "Divorziata"; py "Albanese"; py "Hoxha";
        py "10/05/2023";
        join [10] [ SEAL_HEADER_1; SEAL_HEADER_2; py "In data 2023/05/10";
                    py "0123456789abcdef0123456789ABCDEF" ] ].
Proof. vm_compute. reflexivity. Qed.

Example sample_header :
  extract_comune_sezione Sample.blocks = Some (py "Tirana", py "Nr. 5").
Proof. vm_compute. reflexivity. Qed.

(** * The main flow and the helpers

    Properties of the code around the extraction functions: the block map,
    the cell grid, the header scan, and what the main flow hands to the
    document template. *)

(** ** The block map *)

Section BlockMap.

Context {R : Number} {U : Unicode}.

Implicit Types (blocks : list (@Block R)).

Lemma block_map_snoc blocks b :
  block_map (blocks ++ [b]) = <[Id b := b]> (block_map blocks).
Proof. unfold block_map. rewrite fold_left_app. reflexivity. Qed.

Lemma block_map_lookup_Some blocks id b :
  block_map blocks !! id = Some b -> b ∈ blocks /\ Id b = id.
Proof.
  revert id b. induction blocks as [|x l IH] using rev_ind; intros id b H.
  - unfold block_map in H. simpl in H. rewrite lookup_empty in H. discriminate.
  - rewrite block_map_snoc in H. destruct (decide (Id x = id)) as [<-|Hne].
    + rewrite lookup_insert_eq in H. injection H as <-.
      split; [|reflexivity]. apply elem_of_app. right. left.
    + rewrite lookup_insert_ne in H by exact Hne. destruct (IH _ _ H).
      split; [apply elem_of_app; left; assumption | assumption].
Qed.

Lemma block_map_lookup_later blocks b later :
  (forall b', b' ∈ later -> Id b' <> Id b) ->
  block_map (blocks ++ b :: later) !! Id b = Some b.
Proof.
  induction later as [|x l IH] using rev_ind; intros Hl.
  - rewrite block_map_snoc, lookup_insert_eq. reflexivity.
  - replace (blocks ++ b :: l ++ [x]) with ((blocks ++ b :: l) ++ [x])
      by (rewrite <- app_assoc; reflexivity).
    rewrite block_map_snoc, lookup_insert_ne.
    + apply IH. intros b' Hb'. apply Hl, elem_of_app. left. exact Hb'.
    + apply Hl, elem_of_app. right. left.
Qed.

Lemma block_map_lookup_elem blocks b :
  b ∈ blocks -> is_Some (block_map blocks !! Id b).
Proof.
  induction blocks as [|x l IH] using rev_ind; intros Hin; [inversion Hin|].
  rewrite block_map_snoc. destruct (decide (Id x = Id b)) as [E|E].
  - rewrite E, lookup_insert_eq. eauto.
  - rewrite lookup_insert_ne by exact E. apply IH.
    apply elem_of_app in Hin as [Hin|Hin]; [exact Hin|].
    apply elem_of_cons in Hin as [->|Hin]; [congruence | inversion Hin].
Qed.

(** The input condition of the main flow gives the one of the extraction
    functions. *)
Lemma blocks_ok_well_formed blocks :
  blocks_ok blocks -> well_formed blocks (block_map blocks).
Proof.
  intros H. split; [exact H|]. intros id b Hb.
  apply block_map_lookup_Some in Hb as [Hin _]. apply H. exact Hin.
Qed.

(** X1.  Every entry of the block map of the main flow is a block of the
    list, stored under its own Id, and the Id of every block of the list is
    a key of the map. *)
Theorem block_map_sound blocks id b :
  block_map blocks !! id = Some b ->
  b ∈ blocks /\ Id b = id
  /\ forall b', b' ∈ blocks -> is_Some (block_map blocks !! Id b').
Proof.
  intros H. destruct (block_map_lookup_Some blocks id b H) as [Hin Hid].
  split; [exact Hin|]. split; [exact Hid|].
  intros b'. apply block_map_lookup_elem.
Qed.

(** X2.  When several blocks share an Id, the block map keeps the last of
    them: a block is found under its Id as soon as no later block has the
    same Id. *)
Theorem block_map_last_wins blocks b later :
  (forall b', b' ∈ later -> Id b' <> Id b) ->
  block_map (blocks ++ b :: later) !! Id b = Some b.
Proof. apply block_map_lookup_later. Qed.

End BlockMap.

Lemma block_map_sound_witness :
  Sample.table_block ∈ Sample.blocks
  /\ Id Sample.table_block = py "t"
  /\ forall b', b' ∈ Sample.blocks -> is_Some (block_map Sample.blocks !! Id b').
Proof.
  apply (block_map_sound Sample.blocks (py "t") Sample.table_block).
  vm_compute. reflexivity.
Defined.

Lemma block_map_last_wins_witness :
  block_map ([Sample.line "a" "first"] ++ Sample.line "a" "second"
               :: [Sample.line "b" "other"])
    !! py "a"
  = Some (Sample.line "a" "second").
Proof.
  apply (block_map_last_wins [Sample.line "a" "first"] (Sample.line "a" "second")
           [Sample.line "b" "other"]).
  intros b' Hb'. apply elem_of_cons in Hb' as [->|Hb']; [|inversion Hb'].
  vm_compute. discriminate.
Defined.

(** ** The cell grid *)

Section Grid.

Context {R : Number} {U : Unicode}.

Implicit Types (blocks : list (@Block R)) (bmap : gmap pystr (@Block R)).
Implicit Types (rows : gmap Z (gmap Z pystr)).

Local Opaque isspace.

Lemma dropwhile_head (p : char -> bool) (s : pystr) :
  match dropwhile p s with
  | [] => True
  | c :: _ => p c = false
  end.
Proof.
  induction s as [|c s IH]; [exact I|]. simpl.
  destruct (p c) eqn:E; [exact IH | exact E].
Qed.

Lemma dropwhile_fixed (p : char -> bool) (s : pystr) :
  match s with
  | [] => True
  | c :: _ => p c = false
  end -> dropwhile p s = s.
Proof. destruct s as [|c s]; [reflexivity|]. simpl. intros ->. reflexivity. Qed.

Lemma dropwhile_idempotent (p : char -> bool) (s : pystr) :
  dropwhile p (dropwhile p s) = dropwhile p s.
Proof. apply dropwhile_fixed, dropwhile_head. Qed.

(** [strip] leaves nothing to strip. *)
Lemma strip_idempotent (s : pystr) : strip (strip s) = strip s.
Proof.
  unfold strip, lstrip.
  set (u := dropwhile isspace s).
  set (t := rev (dropwhile isspace (rev u))).
  assert (Hu : u = t ++ rev (takewhile isspace (rev u))).
  { unfold t. rewrite <- rev_app_distr, takewhile_dropwhile, rev_involutive.
    reflexivity. }
  assert (Ht : dropwhile isspace t = t).
  { apply dropwhile_fixed. pose proof (dropwhile_head isspace s) as Hh.
    fold u in Hh. destruct t as [|c t']; [exact I|].
    rewrite Hu in Hh. exact Hh. }
  rewrite Ht. unfold t at 1. rewrite rev_involutive, dropwhile_idempotent.
  reflexivity.
Qed.

Lemma get_set_cell_eq rows (r c : Z) (txt : pystr) :
  get_cell (set_cell r c txt rows) r c = txt.
Proof.
  unfold get_cell, set_cell. rewrite lookup_insert_eq. simpl.
  rewrite lookup_insert_eq. reflexivity.
Qed.

Lemma get_set_cell_ne rows (r c r' c' : Z) (txt : pystr) :
  (r', c') <> (r, c) ->
  get_cell (set_cell r c txt rows) r' c' = get_cell rows r' c'.
Proof.
  intros Hne. unfold get_cell, set_cell.
  destruct (decide (r = r')) as [<-|Hr].
  - rewrite lookup_insert_eq. simpl.
    rewrite lookup_insert_ne by congruence. reflexivity.
  - rewrite lookup_insert_ne by exact Hr. reflexivity.
Qed.

(** X3.  Writing a cell and reading the grid: the cell written holds the
    text written, every other cell is unchanged, and a cell never written
    reads as the empty string. *)
Theorem set_cell_get_cell rows (r c : Z) (txt : pystr) :
  get_cell (set_cell r c txt rows) r c = txt
  /\ (forall r' c', (r', c') <> (r, c) ->
        get_cell (set_cell r c txt rows) r' c' = get_cell rows r' c')
  /\ (forall r' c', get_cell (∅ : gmap Z (gmap Z pystr)) r' c' = []).
Proof.
  split; [apply get_set_cell_eq|].
  split; [intros r' c' Hne; apply get_set_cell_ne; exact Hne|].
  intros r' c'. unfold get_cell. rewrite lookup_empty. simpl.
  rewrite lookup_empty. reflexivity.
Qed.

Lemma cell_text_trimmed bmap cell txt :
  cell_text bmap cell = Some txt -> trimmed txt.
Proof.
  unfold cell_text. destruct (word_texts _ _) as [ts|]; [|discriminate].
  simpl. intros [= <-]. apply strip_idempotent.
Qed.

Lemma add_cells_grid bmap ids rows rows' :
  add_cells bmap ids rows = Some rows' ->
  from_cell bmap rows /\ all_trimmed rows ->
  from_cell bmap rows' /\ all_trimmed rows'.
Proof.
  revert rows. induction ids as [|cid ids IH]; intros rows H Hinv.
  - simpl in H. injection H as <-. exact Hinv.
  - cbn [add_cells] in H. destruct (bmap !! cid) as [cell|] eqn:Ecell;
      [|discriminate].
    cbn [mbind option_bind] in H.
    destruct (str_eqb (BlockType cell) CELL) eqn:Et; cbn [negb] in H;
      [|exact (IH _ H Hinv)].
    destruct (RowIndex cell) as [r|] eqn:Er; [|discriminate].
    destruct (ColumnIndex cell) as [c|] eqn:Ec; [|discriminate].
    destruct (cell_text bmap cell) as [txt|] eqn:Etxt; [|discriminate].
    cbn [mbind option_bind] in H. apply (IH _ H).
    destruct Hinv as [Hf Ht]. split.
    + intros r' c' Hne. destruct (decide ((r', c') = (r, c))) as [E|E].
      * injection E as -> ->. rewrite get_set_cell_eq.
        exists cid, cell. apply str_eqb_true in Et. auto.
      * rewrite get_set_cell_ne in Hne |- * by exact E. apply Hf. exact Hne.
    + intros r' c'. destruct (decide ((r', c') = (r, c))) as [E|E].
      * injection E as -> ->. rewrite get_set_cell_eq.
        exact (cell_text_trimmed _ _ _ Etxt).
      * rewrite get_set_cell_ne by exact E. apply Ht.
Qed.

Lemma add_relationships_grid bmap rels rows rows' :
  add_relationships bmap rels rows = Some rows' ->
  from_cell bmap rows /\ all_trimmed rows ->
  from_cell bmap rows' /\ all_trimmed rows'.
Proof.
  revert rows. induction rels as [|rel rels IH]; intros rows H Hinv.
  - simpl in H. injection H as <-. exact Hinv.
  - cbn [add_relationships] in H.
    destruct (str_eqb (RelType rel) CHILD); cbn [negb] in H;
      [|exact (IH _ H Hinv)].
    destruct (add_cells bmap (Ids rel) rows) as [rows1|] eqn:E1; [|discriminate].
    cbn [mbind option_bind] in H. apply (IH _ H).
    exact (add_cells_grid _ _ _ _ E1 Hinv).
Qed.

Lemma table_grid_invariant blocks bmap rows :
  table_grid blocks bmap = Some rows -> from_cell bmap rows /\ all_trimmed rows.
Proof.
  unfold table_grid. destruct (first_table blocks) as [tbl|]; [|discriminate].
  cbn [mbind option_bind]. intros H.
  apply (add_relationships_grid _ _ _ _ H). split.
  - intros r' c' Hne. exfalso. apply Hne. unfold get_cell.
    rewrite lookup_empty. simpl. rewrite lookup_empty. reflexivity.
  - intros r' c'. unfold get_cell, trimmed.
    rewrite lookup_empty. simpl. rewrite lookup_empty. reflexivity.
Qed.

(** X4.  Every cell of the grid built from the table is a trimmed string,
    and a non-empty cell is the text of a CELL block of the block map with
    that row and column index: the grid holds no text of its own. *)
Theorem table_grid_cells blocks bmap rows (r c : Z) :
  table_grid blocks bmap = Some rows ->
  strip (get_cell rows r c) = get_cell rows r c
  /\ (get_cell rows r c <> [] ->
      exists cid cell, bmap !! cid = Some cell /\ BlockType cell = CELL
        /\ RowIndex cell = Some r /\ ColumnIndex cell = Some c
        /\ cell_text bmap cell = Some (get_cell rows r c)).
Proof.
  intros H. destruct (table_grid_invariant blocks bmap rows H) as [Hf Ht].
  split; [apply Ht | apply Hf].
Qed.

End Grid.

Lemma table_grid_cells_witness :
  let rows := default ∅ (table_grid Sample.blocks Sample.bmap) in
  strip (get_cell rows 9 2) = get_cell rows 9 2
  /\ (get_cell rows 9 2 <> [] ->
      exists cid cell, Sample.bmap !! cid = Some cell /\ BlockType cell = CELL
        /\ RowIndex cell = Some 9%Z /\ ColumnIndex cell = Some 2%Z
        /\ cell_text Sample.bmap cell = Some (get_cell rows 9 2)).
Proof.
  intros rows.
  apply (table_grid_cells Sample.blocks Sample.bmap rows 9 2).
  vm_compute. reflexivity.
Defined.

(** ** The record, the main flow and the document fields *)

Section MainFlowFacts.

Context {R : Number} {U : Unicode}.

Implicit Types (blocks : list (@Block R)) (bmap : gmap pystr (@Block R)).
Implicit Types (rows : gmap Z (gmap Z pystr)) (data : gmap pystr pystr).

(** X5.  On well-formed input with a table, field by field: eight fields
    are the cells (r, 2) of rows 2 to 7, 13 and 14 unchanged; the place of
    birth is the cell (8, 2) with the exonyms applied; Sesso is decided on
    the upper-cased cell (10, 2), whose trimming changes nothing; the civil
    status is the resolver's answer for that Sesso value; the citizenship
    is "Albanese" when the upper-cased cell (12, 2) is one of the four
    Albanian variants and the cell itself otherwise; the seal is the
    outcome of the seal extractor. *)
Theorem record_values blocks bmap rows :
  well_formed blocks bmap -> table_grid blocks bmap = Some rows ->
  exists rec stato seal,
    extract_table_fields blocks bmap = Some rec
    /\ get_stato_from_vertical_boxes blocks bmap
         (sesso_of (upper (get_cell rows 10 2))) = Some stato
    /\ extract_seal_footer blocks = Some seal
    /\ Forall (fun kr => rec !! fst kr = Some (get_cell rows (snd kr) 2))
         [ (K_NOME, 2%Z); (K_COGNOME, 3%Z); (K_NUMERO, 4%Z); (K_PADRE, 5%Z);
           (K_MADRE, 6%Z); (K_NASCITA, 7%Z); (K_COGNOME_PRIMA, 13%Z);
           (K_RILASCIO, 14%Z) ]
    /\ rec !! K_LUOGO = Some (map_exonyms (get_cell rows 8 2))
    /\ rec !! K_SESSO = Some (sesso_of (upper (get_cell rows 10 2)))
    /\ rec !! K_STATO = Some stato
    /\ rec !! K_CITTADINANZA
       = Some (if existsb (str_eqb (upper (get_cell rows 12 2))) ALBANIAN_VARIANTS
               then ALBANESE else get_cell rows 12 2)
    /\ rec !! K_SEAL = Some seal.
Proof.
  intros Hwf Hrows.
  destruct (record_fields blocks bmap rows Hwf Hrows)
    as (stato & seal & Hstato & Hseal & Hrec).
  pose proof (proj2 (table_grid_invariant blocks bmap rows Hrows)) as Ht.
  unfold all_trimmed, trimmed in Ht.
  exists (list_to_map (expected_fields rows stato seal)), stato, seal.
  split; [exact Hrec|]. rewrite (Ht 10%Z 2%Z) in Hstato.
  split; [exact Hstato|]. split; [exact Hseal|].
  assert (Hf : forall i k v, expected_fields rows stato seal !! i = Some (k, v) ->
             (list_to_map (expected_fields rows stato seal) : gmap pystr pystr) !! k
             = Some v)
    by (intros i k v Hi; apply field_lookup; exact (list_elem_of_lookup_2 _ _ _ Hi)).
  split.
  { repeat apply Forall_cons_2; try apply Forall_nil_2; cbn [fst snd].
    - apply (Hf 0%nat). reflexivity.
    - apply (Hf 1%nat). reflexivity.
    - apply (Hf 2%nat). reflexivity.
    - apply (Hf 3%nat). reflexivity.
    - apply (Hf 4%nat). reflexivity.
    - apply (Hf 5%nat). reflexivity.
    - apply (Hf 11%nat). reflexivity.
    - apply (Hf 12%nat). reflexivity. }
  split; [apply (Hf 6%nat); reflexivity|].
  split; [rewrite <- (Ht 10%Z 2%Z) at 1; apply (Hf 8%nat); reflexivity|].
  split; [apply (Hf 9%nat); reflexivity|].
  split; [|apply (Hf 13%nat); reflexivity].
  rewrite <- (Ht 12%Z 2%Z) at 1. fold (cittadinanza_of (get_cell rows 12 2)).
  apply (Hf 10%nat). reflexivity.
Qed.

Lemma no_table_record blocks bmap :
  (forall b, b ∈ blocks -> BlockType b <> TABLE) ->
  extract_table_fields blocks bmap = Some ∅.
Proof.
  intros H. apply first_table_None in H.
  unfold extract_table_fields. rewrite H. reflexivity.
Qed.

Lemma table_record_keys blocks bmap :
  well_formed blocks bmap -> has_table blocks ->
  exists rec, extract_table_fields blocks bmap = Some rec
    /\ dom rec = list_to_set OUTPUT_KEYS.
Proof.
  intros Hwf Ht.
  destruct (table_grid_total blocks bmap Hwf Ht) as [rows Hrows].
  destruct (record_fields blocks bmap rows Hwf Hrows)
    as (stato & seal & _ & _ & ->).
  eexists. split; [reflexivity|]. rewrite dom_list_to_map_L. reflexivity.
Qed.

Lemma main_flow_data_Some blocks :
  blocks_ok blocks ->
  exists rec cs,
    extract_table_fields blocks (block_map blocks) = Some rec
    /\ extract_comune_sezione blocks = Some cs
    /\ main_flow_data blocks
       = Some (<[K_SEZIONE := snd cs]> (<[K_COMUNE := fst cs]> rec)).
Proof.
  intros Hok. apply blocks_ok_well_formed in Hok.
  destruct (table_fields_total _ _ Hok) as [rec Hrec].
  destruct (comune_sezione_total _ _ Hok) as [cs Hcs].
  exists rec, cs. split; [exact Hrec|]. split; [exact Hcs|].
  unfold main_flow_data. cbn zeta. rewrite Hrec, Hcs. reflexivity.
Qed.

(** X6.  On well-formed input the main flow always obtains a record, with
    the header pair stored under "Comune" and "Sezione" and every field of
    the table record kept.  With a TABLE block the record has the fourteen
    table keys and these two; without one it has these two keys only. *)
Theorem main_flow_record blocks :
  blocks_ok blocks ->
  exists data rec cs,
    main_flow_data blocks = Some data
    /\ extract_table_fields blocks (block_map blocks) = Some rec
    /\ extract_comune_sezione blocks = Some cs
    /\ data !! K_COMUNE = Some (fst cs)
    /\ data !! K_SEZIONE = Some (snd cs)
    /\ (forall k, k <> K_COMUNE -> k <> K_SEZIONE -> data !! k = rec !! k)
    /\ (has_table blocks ->
        dom data = list_to_set (OUTPUT_KEYS ++ [K_COMUNE; K_SEZIONE]))
    /\ ((forall b, b ∈ blocks -> BlockType b <> TABLE) ->
        dom data = list_to_set [K_COMUNE; K_SEZIONE]).
Proof.
  intros Hok. destruct (main_flow_data_Some blocks Hok) as (rec & cs & Hrec & Hcs & Hd).
  exists (<[K_SEZIONE := snd cs]> (<[K_COMUNE := fst cs]> rec)), rec, cs.
  split; [exact Hd|]. split; [exact Hrec|]. split; [exact Hcs|].
  split; [rewrite lookup_insert_ne by discriminate; apply lookup_insert_eq|].
  split; [apply lookup_insert_eq|].
  split; [intros k H1 H2; rewrite !lookup_insert_ne by congruence; reflexivity|].
  split.
  - intros Ht.
    destruct (table_record_keys _ _ (blocks_ok_well_formed _ Hok) Ht)
      as (rec' & Hrec' & Hdom).
    rewrite Hrec in Hrec'. injection Hrec' as <-.
    rewrite !dom_insert_L, Hdom, list_to_set_app_L.
    generalize (list_to_set OUTPUT_KEYS : gset pystr). intros keys.
    cbn [list_to_set]. generalize K_COMUNE, K_SEZIONE. intros a b.
    apply set_eq. intros x. rewrite !elem_of_union, !elem_of_singleton, elem_of_empty.
    tauto.
  - intros Hn. rewrite (no_table_record _ _ Hn) in Hrec. injection Hrec as <-.
    rewrite !dom_insert_L, dom_empty_L. cbn [list_to_set].
    generalize K_COMUNE, K_SEZIONE. intros a b.
    apply set_eq. intros x. rewrite !elem_of_union, !elem_of_singleton. tauto.
Qed.

Lemma make_docx_fields_is_Some data :
  is_Some (make_docx_fields data)
  <-> Forall (fun k => is_Some (data !! k)) DOCX_KEYS.
Proof.
  unfold make_docx_fields, DOCX_KEYS. split.
  - intros [fs H].
    repeat match type of H with
           | mbind _ (?d !! ?k) = Some _ =>
               let E := fresh "E" in
               destruct (d !! k) eqn:E; [cbn [mbind option_bind] in H | discriminate]
           end.
    repeat apply Forall_cons_2; try apply Forall_nil_2; eauto.
  - intros H.
    repeat match type of H with
           | Forall _ (_ :: _) =>
               let Hk := fresh "Hk" in
               apply Forall_cons_1 in H as [[? Hk] H]; rewrite Hk;
               cbn [mbind option_bind]
           end.
    eauto.
Qed.

(** X8.  On well-formed input the record of the main flow lets
    [make_docx] build its field list exactly when the blocks contain a
    TABLE block: for a file without a table the read of [data["Nome"]]
    raises, and no document is produced. *)
Theorem main_flow_docx blocks :
  blocks_ok blocks ->
  exists data,
    main_flow_data blocks = Some data
    /\ (is_Some (make_docx_fields data) <-> has_table blocks)
    /\ (~ has_table blocks -> data !! K_NOME = None).
Proof.
  intros Hok. destruct (main_flow_data_Some blocks Hok) as (rec & cs & Hrec & Hcs & Hd).
  exists (<[K_SEZIONE := snd cs]> (<[K_COMUNE := fst cs]> rec)).
  split; [exact Hd|].
  assert (Hno : ~ has_table blocks -> rec = ∅).
  { intros Hn. rewrite no_table_record in Hrec; [congruence|].
    intros b Hb Ht. apply Hn. exists b. auto. }
  split; [split|].
  - intros Hs. apply make_docx_fields_is_Some in Hs.
    apply Forall_cons_1 in Hs as [[v Hv] _].
    rewrite !lookup_insert_ne in Hv by discriminate.
    destruct (first_table blocks) as [tbl|] eqn:Et.
    + apply first_table_Some in Et as [Hin Ht]. exists tbl. auto.
    + unfold extract_table_fields in Hrec. rewrite Et in Hrec.
      injection Hrec as <-. rewrite lookup_empty in Hv. discriminate.
  - intros Ht.
    destruct (table_record_keys _ _ (blocks_ok_well_formed _ Hok) Ht)
      as (rec' & Hrec' & Hdom).
    rewrite Hrec in Hrec'. injection Hrec' as <-.
    apply make_docx_fields_is_Some. apply Forall_forall. intros k Hk.
    assert (Hc : K_COMUNE ∉ DOCX_KEYS)
      by (apply (bool_decide_unpack _); vm_compute; reflexivity).
    assert (Hs : K_SEZIONE ∉ DOCX_KEYS)
      by (apply (bool_decide_unpack _); vm_compute; reflexivity).
    rewrite !lookup_insert_ne by congruence.
    apply elem_of_dom. rewrite Hdom. apply elem_of_list_to_set.
    apply list_elem_of_In. apply list_elem_of_In in Hk.
    unfold OUTPUT_KEYS. apply in_or_app with (l := DOCX_KEYS) (m := [K_SEAL]).
    left. exact Hk.
  - intros Hn. rewrite (Hno Hn), !lookup_insert_ne by discriminate.
    apply lookup_empty.
Qed.

Lemma replace_char (a b : char) (s : pystr) :
  replace [a] [b] s = List.map (fun c => if a =? c then b else c) s.
Proof.
  unfold replace. induction s as [|c s IH]; [reflexivity|].
  cbn [replace_go startswith List.map length Nat.sub].
  rewrite andb_true_r. destruct (a =? c); simpl; rewrite IH; reflexivity.
Qed.

Lemma name_part_no_space (key : pystr) data : 32 ∉ name_part key data.
Proof.
  unfold name_part. rewrite replace_char. intros Hin.
  apply list_elem_of_In, in_map_iff in Hin as (c & Hc & _).
  destruct (32 =? c) eqn:E; [discriminate|].
  apply N.eqb_neq in E. congruence.
Qed.

(** X9.  The download name is a stem, "_Certificato_di_Nascita_" and the
    date; the stem, built from the Nome and Cognome values, never contains
    a space, and each name part is as long as the trimmed value it comes
    from. *)
Theorem file_name_stem data (today_str : pystr) :
  let stem := name_part K_NOME data ++ [95] ++ name_part K_COGNOME data in
  file_name data today_str = stem ++ CERTIFICATO ++ today_str
  /\ (32 ∉ stem)
  /\ (forall key, length (name_part key data)
                  = length (strip (default key (data !! key)))).
Proof.
  intros stem. split; [unfold file_name, stem; rewrite <- !app_assoc; reflexivity|].
  split.
  - unfold stem. rewrite !elem_of_app. intros [H|[H|H]].
    + exact (name_part_no_space _ _ H).
    + apply elem_of_cons in H as [H|H]; [discriminate | inversion H].
    + exact (name_part_no_space _ _ H).
  - intros key. unfold name_part. rewrite replace_char. apply length_map.
Qed.

End MainFlowFacts.

Lemma record_values_witness :
  exists rec, extract_table_fields Sample.blocks Sample.bmap = Some rec
    /\ rec !! K_LUOGO = Some (py "Valona")
    /\ rec !! K_CITTADINANZA = Some ALBANESE
    /\ rec !! K_STATO = Some (py "Divorziata").
Proof.
  destruct (record_values Sample.blocks Sample.bmap
              (default ∅ (table_grid Sample.blocks Sample.bmap)))
    as (rec & stato & seal & Hrec & Hstato & _ & _ & Hl & _ & Hst & Hc & _).
  - apply well_formedb_ok. vm_compute. reflexivity.
  - vm_compute. reflexivity.
  - exists rec. split; [exact Hrec|].
    split; [rewrite Hl; vm_compute; reflexivity|].
    split; [rewrite Hc; vm_compute; reflexivity|].
    rewrite Hst. f_equal.
    assert (Some stato = Some (py "Divorziata")) as [= ->]; [|reflexivity].
    rewrite <- Hstato. vm_compute. reflexivity.
Defined.

Lemma sample_blocks_ok : blocks_ok Sample.blocks.
Proof.
  assert (H : well_formed Sample.blocks (block_map Sample.blocks))
    by (apply well_formedb_ok; vm_compute; reflexivity).
  exact (proj1 H).
Qed.

Lemma seal_lines_ok : blocks_ok Sample.seal_lines.
Proof.
  assert (H : well_formed Sample.seal_lines (block_map Sample.seal_lines))
    by (apply well_formedb_ok; vm_compute; reflexivity).
  exact (proj1 H).
Qed.

Lemma main_flow_record_witness :
  exists data, main_flow_data Sample.blocks = Some data
    /\ data !! K_COMUNE = Some (py "Tirana")
    /\ data !! K_SEZIONE = Some (py "Nr. 5").
Proof.
  destruct (main_flow_record Sample.blocks sample_blocks_ok)
    as (data & rec & cs & Hd & _ & Hcs & Hc & Hs & _).
  exists data. split; [exact Hd|].
  assert (E : cs = (py "Tirana", py "Nr. 5")).
  { assert (Some cs = Some (py "Tirana", py "Nr. 5")) as [= ->]; [|reflexivity].
    rewrite <- Hcs. vm_compute. reflexivity. }
  rewrite Hc, Hs, E. split; reflexivity.
Defined.

Lemma main_flow_docx_witness :
  exists data, main_flow_data Sample.seal_lines = Some data
    /\ make_docx_fields data = None.
Proof.
  destruct (main_flow_docx Sample.seal_lines seal_lines_ok)
    as (data & Hd & Hiff & _).
  exists data. split; [exact Hd|].
  destruct (make_docx_fields data) eqn:E; [|reflexivity].
  destruct (proj1 Hiff (mk_is_Some _ _ eq_refl)) as (b & Hb & Ht).
  exfalso. revert b Hb Ht.
  apply (proj1 (Forall_forall (fun b => BlockType b = TABLE -> False)
                  Sample.seal_lines)).
  repeat apply Forall_cons_2; try apply Forall_nil_2; intros; discriminate.
Defined.

(** ** The checkbox resolver and its input *)

Section ResolverInput.

Context {R : Number} {U : Unicode}.

Implicit Types (blocks : list (@Block R)) (bmap : gmap pystr (@Block R)).

Local Opaque fragments.

Lemma locate_centres_words_only blocks centres :
  locate_centres (words_only blocks) centres = locate_centres blocks centres.
Proof.
  revert centres. induction blocks as [|w rest IH]; intros centres; [reflexivity|].
  cbn [words_only List.filter locate_centres]. fold (words_only rest).
  destruct (str_eqb (BlockType w) WORD) eqn:E; cbn [negb]; [|apply IH].
  cbn [locate_centres]. rewrite E. cbn [negb].
  destruct (Text w) as [text|]; [|reflexivity]. cbn [mbind option_bind].
  destruct (record_fragments w (lower (strip text)) fragments centres);
    [|reflexivity].
  cbn [mbind option_bind]. apply IH.
Qed.

Lemma find_x_block_words_only blocks :
  find_x_block (words_only blocks) = find_x_block blocks.
Proof.
  induction blocks as [|w rest IH]; [reflexivity|].
  cbn [words_only List.filter find_x_block]. fold (words_only rest).
  destruct (str_eqb (BlockType w) WORD) eqn:E; [|exact IH].
  cbn [find_x_block]. rewrite E.
  destruct (Text w) as [text|]; [|reflexivity]. cbn [mbind option_bind].
  destruct (is_x_mark text); [reflexivity | exact IH].
Qed.

(** X10.  The resolver reads WORD blocks only: removing every block of
    another type (lines, cells, tables, ...) from the list changes neither
    its answer nor whether it raises, and the block map is never used. *)
Theorem stato_words_only blocks bmap bmap' (gender : pystr) :
  get_stato_from_vertical_boxes (words_only blocks) bmap' gender
  = get_stato_from_vertical_boxes blocks bmap gender.
Proof.
  unfold get_stato_from_vertical_boxes.
  rewrite locate_centres_words_only, find_x_block_words_only. reflexivity.
Qed.

Lemma locate_centres_missing_text blocks centres w :
  w ∈ blocks -> BlockType w = WORD -> Text w = None ->
  locate_centres blocks centres = None.
Proof.
  intros Hin Hw Ht. revert centres.
  induction blocks as [|b rest IH]; intros centres; [inversion Hin|].
  cbn [locate_centres].
  destruct (str_eqb (BlockType b) WORD) eqn:E; cbn [negb].
  - destruct (Text b) as [text|] eqn:Eb; [|reflexivity]. cbn [mbind option_bind].
    destruct (record_fragments b (lower (strip text)) fragments centres);
      [|reflexivity].
    cbn [mbind option_bind]. apply IH.
    apply elem_of_cons in Hin as [->|Hin]; [congruence | exact Hin].
  - apply IH. apply elem_of_cons in Hin as [->|Hin]; [|exact Hin].
    apply str_eqb_false in E. congruence.
Qed.

(** X11.  A single WORD block without a "Text" entry makes the resolver
    raise, wherever the block stands and whatever else the list holds:
    the first loop reads the text of every WORD block. *)
Theorem stato_missing_text blocks bmap (gender : pystr) w :
  w ∈ blocks -> BlockType w = WORD -> Text w = None ->
  get_stato_from_vertical_boxes blocks bmap gender = None.
Proof.
  intros Hin Hw Ht. unfold get_stato_from_vertical_boxes.
  rewrite (locate_centres_missing_text blocks [] w Hin Hw Ht). reflexivity.
Qed.

End ResolverInput.

Lemma stato_missing_text_witness :
  get_stato_from_vertical_boxes
    (Sample.labels ++ [Sample.mark; Sample.textless_word])
    (∅ : gmap pystr (@Block rational)) (py "F")
  = None.
Proof.
  apply (stato_missing_text _ _ _ Sample.textless_word).
  - apply elem_of_app. right. right. left.
  - reflexivity.
  - reflexivity.
Defined.

(** ** Exonyms and separators *)

Section ExonymFacts.

Context {U : Unicode}.

Local Opaque isword.

Lemma words_map_go_sep (f : pystr -> pystr) (cur a b : pystr) (d : char) :
  isword d = false ->
  words_map_go f cur (a ++ d :: b) = words_map_go f cur a ++ d :: words_map f b.
Proof.
  intros Hd. revert cur. induction a as [|c a IH]; intros cur.
  - cbn [app words_map_go]. rewrite Hd. reflexivity.
  - cbn [app words_map_go]. destruct (isword c).
    + apply IH.
    + rewrite IH, <- app_assoc. reflexivity.
Qed.

(** X12.  The place normaliser works on each side of a separator on its
    own: for a character that is not a word character (a space, a comma,
    a hyphen, ...), normalising [a], the separator and [b] together is
    normalising [a] and [b] and putting the separator back. *)
Theorem map_exonyms_separator (a b : pystr) (d : char) :
  isword d = false ->
  map_exonyms (a ++ d :: b) = map_exonyms a ++ d :: map_exonyms b.
Proof.
  intros Hd. rewrite !map_exonyms_words. apply words_map_go_sep. exact Hd.
Qed.

Lemma Forall_forallb (p : char -> bool) (s : pystr) :
  forallb p s = true -> Forall (fun c => p c = true) s.
Proof.
  induction s as [|c s IH]; [constructor|]. cbn [forallb].
  intros H. apply andb_true_iff in H as [Hc Hs]. constructor; auto.
Qed.

Lemma filter_all_word (w : pystr) :
  all_word w -> List.filter (fun c => negb (isword c)) w = [].
Proof.
  induction 1 as [|c w Hc Hw IH]; [reflexivity|].
  cbn [List.filter]. rewrite Hc. exact IH.
Qed.

Lemma words_map_separators (f : pystr -> pystr) (s : pystr) :
  (forall w, w <> [] -> all_word w -> f w <> [] /\ all_word (f w)) ->
  List.filter (fun c => negb (isword c)) (words_map f s)
  = List.filter (fun c => negb (isword c)) s.
Proof.
  intros Hf. revert s. apply span_ind. intros w rest Hw Hr IH.
  rewrite (words_map_span f w rest Hw Hr), !List.filter_app.
  rewrite (filter_all_word w Hw).
  rewrite (filter_all_word _ (on_word_all_word f w Hf Hw)).
  destruct rest as [|d r]; [reflexivity|].
  cbn [words_rest List.filter app]. rewrite (IH d r eq_refl). reflexivity.
Qed.

(** X13.  The place normaliser rewrites words only: the characters of
    its output that are not word characters are those of its input, in
    the same order. *)
Theorem map_exonyms_keeps_separators (s : pystr) :
  List.filter (fun c => negb (isword c)) (map_exonyms s)
  = List.filter (fun c => negb (isword c)) s.
Proof.
  rewrite map_exonyms_words. apply words_map_separators.
  exact exonym_word_keeps.
Qed.

(** X14.  A single word is left as it is or becomes one of the four
    Italian names. *)
Theorem map_exonyms_word (w : pystr) :
  all_word w ->
  map_exonyms w = w
  \/ map_exonyms w ∈ [ py "Tirana"; py "Valona"; py "Durazzo"; py "Scutari" ].
Proof.
  intros Hw. rewrite map_exonyms_words.
  assert (E : words_map exonym_word w = on_word exonym_word w).
  { rewrite <- (app_nil_r w) at 1.
    rewrite (words_map_span exonym_word w [] Hw I). apply app_nil_r. }
  rewrite E. destruct w as [|c w]; [left; reflexivity|]. cbn [on_word].
  destruct (exonym_word_cases (c :: w)) as [H|H]; [left; exact H|].
  right. apply list_elem_of_In. exact H.
Qed.

End ExonymFacts.

Lemma map_exonyms_separator_witness :
  map_exonyms (py "Vlorë" ++ 44 :: py "Durrës")
  = map_exonyms (py "Vlorë") ++ 44 :: map_exonyms (py "Durrës").
Proof. apply (map_exonyms_separator (py "Vlorë") (py "Durrës") 44). reflexivity. Defined.

Lemma map_exonyms_word_witness :
  map_exonyms (py "SHKODËR") = py "SHKODËR"
  \/ map_exonyms (py "SHKODËR")
     ∈ [ py "Tirana"; py "Valona"; py "Durazzo"; py "Scutari" ].
Proof.
  apply (map_exonyms_word (py "SHKODËR")).
  unfold all_word. apply Forall_forallb. vm_compute. reflexivity.
Defined.

(** ** The header scan *)

Section HeaderFacts.

Context {R : Number} {U : Unicode}.

Implicit Types (blocks : list (@Block R)).

Lemma scan_header_no_bashkia (lines : list pystr) (comune sezione : pystr) :
  no_bashkia lines ->
  exists sez, scan_header lines comune sezione = Some (comune, sez).
Proof.
  intros H. revert sezione. induction H as [|l rest Hl Hrest IH]; intros sezione.
  - exists sezione. reflexivity.
  - cbn [scan_header]. rewrite Hl.
    destruct (scan_header_total (l :: rest) comune sezione) as [cs Hcs].
    cbn [scan_header] in Hcs. rewrite Hl in Hcs.
    match type of Hcs with
    | mbind _ ?m = _ => destruct m as [sezione'|]; [|discriminate]
    end.
    cbn [mbind option_bind]. apply IH.
Qed.

Lemma scan_header_no_njesia (lines : list pystr) (comune sezione : pystr) :
  no_njesia lines ->
  exists com, scan_header lines comune sezione = Some (com, sezione).
Proof.
  intros H. revert comune. induction H as [|l rest Hl Hrest IH]; intros comune.
  - exists comune. reflexivity.
  - cbn [scan_header]. rewrite Hl. cbn [mbind option_bind]. apply IH.
Qed.

(** X15.  Without a line that contains "Bashkia" the Comune is the empty
    string, and without a line that contains "Njësia Administrative" or
    "Njesia Administrative" the Sezione is the empty string; a list with
    no LINE block gives both. *)
Theorem header_absent blocks (lines : list pystr) :
  line_texts blocks = Some lines ->
  (no_bashkia lines ->
   exists sez, extract_comune_sezione blocks = Some ([], sez))
  /\ (no_njesia lines ->
      exists com, extract_comune_sezione blocks = Some (com, []))
  /\ (lines = [] -> extract_comune_sezione blocks = Some ([], [])).
Proof.
  intros Hl. unfold extract_comune_sezione. rewrite Hl. cbn [mbind option_bind].
  split; [|split].
  - intros H. destruct (scan_header_no_bashkia lines [] [] H) as [sez ->].
    cbn [mbind option_bind fst snd]. eauto.
  - intros H. destruct (scan_header_no_njesia lines [] [] H) as [com ->].
    cbn [mbind option_bind fst snd]. eauto.
  - intros ->. reflexivity.
Qed.

Lemma takewhile_forallb (p : char -> bool) (s : pystr) :
  forallb p (takewhile p s) = true.
Proof.
  induction s as [|c s IH]; [reflexivity|]. simpl.
  destruct (p c) eqn:E; [simpl; rewrite E; exact IH | reflexivity].
Qed.

Lemma search_bashkia_Some (l g : pystr) :
  search_bashkia l = Some g ->
  contains BASHKIA l = true /\ g <> [] /\ forallb comune_class g = true.
Proof.
  induction l as [|c l IH]; [discriminate|].
  cbn [search_bashkia contains].
  destruct (startswith BASHKIA (c :: l)) eqn:Es.
  - set (after := drop (length BASHKIA) (c :: l)).
    set (name := dropwhile isspace after).
    destruct ((length name <? length after)%nat
              && truthy (takewhile comune_class name)) eqn:Ec.
    + intros [= <-]. apply andb_true_iff in Ec as [_ Ec].
      split; [reflexivity|]. split; [apply truthy_true; exact Ec|].
      apply takewhile_forallb.
    + intros H. apply IH in H as (Hc & Hg). rewrite Hc, orb_true_r. auto.
  - intros H. apply IH in H as (Hc & Hg). rewrite Hc. auto.
Qed.

Lemma scan_header_last_bashkia (pre post : list pystr) (l g comune sezione : pystr) :
  search_bashkia l = Some g -> no_bashkia post ->
  exists sez, scan_header (pre ++ l :: post) comune sezione = Some (title g, sez).
Proof.
  intros Hg Hpost. revert comune sezione.
  induction pre as [|p pre IH]; intros comune sezione.
  - cbn [app].
    destruct (scan_header_total (l :: post) comune sezione) as [cs Hcs].
    cbn [scan_header] in Hcs |- *.
    destruct (search_bashkia_Some l g Hg) as (Hc & _). rewrite Hc, Hg in Hcs |- *.
    match type of Hcs with
    | mbind _ ?m = _ => destruct m as [sezione'|]; [|discriminate]
    end.
    cbn [mbind option_bind]. apply scan_header_no_bashkia. exact Hpost.
  - cbn [app].
    destruct (scan_header_total (p :: pre ++ l :: post) comune sezione) as [cs Hcs].
    cbn [scan_header] in Hcs |- *.
    match type of Hcs with
    | mbind _ ?m = _ => destruct m as [sezione'|]; [|discriminate]
    end.
    cbn [mbind option_bind]. apply IH.
Qed.

(** X16.  The Comune comes from the last line in which "Bashkia" is
    followed by whitespace and a name: it is that name, a non-empty run of
    letters and hyphens, in title case and with the exonyms applied,
    whatever the lines before it said, provided no later line contains
    "Bashkia". *)
Theorem header_last_bashkia blocks (pre post : list pystr) (l g : pystr) :
  line_texts blocks = Some (pre ++ l :: post) ->
  search_bashkia l = Some g -> no_bashkia post ->
  g <> [] /\ forallb comune_class g = true
  /\ exists sez,
       extract_comune_sezione blocks = Some (map_exonyms (title g), sez).
Proof.
  intros Hl Hg Hpost.
  destruct (search_bashkia_Some l g Hg) as (_ & Hne & Hcl).
  split; [exact Hne|]. split; [exact Hcl|].
  unfold extract_comune_sezione. rewrite Hl. cbn [mbind option_bind].
  destruct (scan_header_last_bashkia pre post l g [] [] Hg Hpost) as [sez ->].
  cbn [mbind option_bind fst snd]. eauto.
Qed.

Lemma scan_header_last_njesia (pre post : list pystr) (l after comune sezione : pystr) :
  contains NJESIA_ADMINISTRATIVE_1 l || contains NJESIA_ADMINISTRATIVE_2 l = true ->
  split_after ADMINISTRATIVE l = Some after -> no_njesia post ->
  exists com,
    scan_header (pre ++ l :: post) comune sezione
    = Some (com,
            title (if existsb (str_eqb (lower (strip after))) NR_MARKERS
                   then strip after ++ [32] ++ default [] (head post)
                   else strip after)).
Proof.
  intros Hn Ha Hpost. revert comune sezione.
  induction pre as [|p pre IH]; intros comune sezione.
  - cbn [app scan_header]. rewrite Hn, Ha. cbn [mbind option_bind].
    apply scan_header_no_njesia. exact Hpost.
  - cbn [app].
    destruct (scan_header_total (p :: pre ++ l :: post) comune sezione) as [cs Hcs].
    cbn [scan_header] in Hcs |- *.
    match type of Hcs with
    | mbind _ ?m = _ => destruct m as [sezione'|]; [|discriminate]
    end.
    cbn [mbind option_bind]. apply IH.
Qed.

(** X17.  The Sezione comes from the last line that contains "Njësia
    Administrative" or "Njesia Administrative": it is the trimmed text
    after "Administrative", followed by a space and the next line when
    that text is "nr." or "nr" in any case, then put in title case with
    the exonyms applied; earlier such lines are overwritten. *)
Theorem header_last_njesia blocks (pre post : list pystr) (l after : pystr) :
  line_texts blocks = Some (pre ++ l :: post) ->
  contains NJESIA_ADMINISTRATIVE_1 l || contains NJESIA_ADMINISTRATIVE_2 l = true ->
  split_after ADMINISTRATIVE l = Some after -> no_njesia post ->
  exists com,
    extract_comune_sezione blocks
    = Some (com,
            map_exonyms
              (title (if existsb (str_eqb (lower (strip after))) NR_MARKERS
                      then strip after ++ [32] ++ default [] (head post)
                      else strip after))).
Proof.
  intros Hl Hn Ha Hpost.
  unfold extract_comune_sezione. rewrite Hl. cbn [mbind option_bind].
  destruct (scan_header_last_njesia pre post l after [] [] Hn Ha Hpost) as [com ->].
  cbn [mbind option_bind fst snd]. eauto.
Qed.

End HeaderFacts.

Lemma header_last_njesia_witness :
  exists com, extract_comune_sezione Sample.header_lines = Some (com, py "Nr. 5").
Proof.
  destruct (header_last_njesia Sample.header_lines [py "Bashkia TIRANË"] [py "5"]
              (py "Njësia Administrative Nr.") (py " Nr.")) as [com H].
  - vm_compute. reflexivity.
  - vm_compute. reflexivity.
  - vm_compute. reflexivity.
  - repeat apply Forall_cons_2; try apply Forall_nil_2; vm_compute; reflexivity.
  - exists com. rewrite H. vm_compute. reflexivity.
Defined.

Lemma header_absent_witness :
  (exists sez, extract_comune_sezione Sample.seal_lines = Some ([], sez))
  /\ (exists com, extract_comune_sezione Sample.seal_lines = Some (com, [])).
Proof.
  destruct (header_absent Sample.seal_lines
              (default [] (line_texts Sample.seal_lines))) as (H1 & H2 & _).
  - vm_compute. reflexivity.
  - split; [apply H1 | apply H2];
      repeat apply Forall_cons_2; try apply Forall_nil_2; vm_compute; reflexivity.
Defined.

Lemma header_last_bashkia_witness :
  exists sez, extract_comune_sezione Sample.blocks = Some (py "Tirana", sez).
Proof.
  destruct (header_last_bashkia Sample.blocks [] (tail Sample.lines)
              (py "Bashkia TIRANË") (py "TIRANË")) as (_ & _ & sez & H).
  - vm_compute. reflexivity.
  - vm_compute. reflexivity.
  - repeat apply Forall_cons_2; try apply Forall_nil_2; vm_compute; reflexivity.
  - exists sez. rewrite H. reflexivity.
Defined.

(** ** The seal and later lines *)

Section SealFacts.

Context {R : Number} {U : Unicode}.

Implicit Types (blocks : list (@Block R)).

Lemma line_texts_app blocks more (lines extra : list pystr) :
  line_texts blocks = Some lines -> line_texts more = Some extra ->
  line_texts (blocks ++ more) = Some (lines ++ extra).
Proof.
  unfold line_texts. rewrite !mapM_Some, filter_app. apply Forall2_app.
Qed.

Lemma marker_indices_app (i : nat) (l1 l2 : list pystr) :
  marker_indices i (l1 ++ l2)
  = marker_indices i l1 ++ marker_indices (i + length l1) l2.
Proof.
  revert i. induction l1 as [|t l1 IH]; intros i.
  - cbn [app length marker_indices]. rewrite Nat.add_0_r. reflexivity.
  - cbn [app length marker_indices]. rewrite IH.
    replace (S i + length l1)%nat with (i + S (length l1))%nat by lia.
    destruct (contains SEAL_MARKER (lower t)); reflexivity.
Qed.

Lemma find_app_Some {A} (f : A -> bool) (l1 l2 : list A) (x : A) :
  List.find f l1 = Some x -> List.find f (l1 ++ l2) = Some x.
Proof.
  induction l1 as [|a l1 IH]; [discriminate|]. cbn [List.find app].
  destruct (f a); [trivial | exact IH].
Qed.

Lemma seal_text_app (lines extra : list pystr) :
  seal_text lines <> [] -> seal_text (lines ++ extra) = seal_text lines.
Proof.
  unfold seal_text, second_marker. intros H.
  destruct (marker_indices 0 lines !! 1%nat) as [start|] eqn:Es; [|congruence].
  rewrite marker_indices_app, (lookup_app_l_Some _ _ _ _ Es).
  destruct (marker_indices_lookup _ _ _ _ Es) as (n & t & -> & Hn & _).
  apply lookup_lt_Some in Hn. rewrite drop_app_le by (simpl; lia).
  destruct (List.find is_date_line (drop (0 + n) lines)) as [rd|] eqn:Ed;
    [|congruence].
  destruct (List.find is_hash_line (drop (0 + n) lines)) as [rh|] eqn:Eh;
    [|congruence].
  rewrite (find_app_Some _ _ extra _ Ed), (find_app_Some _ _ extra _ Eh).
  reflexivity.
Qed.

(** X18.  Once the seal is found it is final: when the extractor returns
    a non-empty seal for a block list, it returns the same seal for the
    list followed by any further blocks whose lines have a text, whatever
    dates, hashes or marker lines they contain. *)
Theorem seal_stable blocks more (s : pystr) :
  extract_seal_footer blocks = Some s -> s <> [] ->
  is_Some (line_texts more) ->
  extract_seal_footer (blocks ++ more) = Some s.
Proof.
  intros Hs Hne [extra Hextra].
  destruct (line_texts blocks) as [lines|] eqn:Hl.
  - rewrite (extract_seal_footer_text blocks lines Hl) in Hs. injection Hs as <-.
    rewrite (extract_seal_footer_text _ _ (line_texts_app _ _ _ _ Hl Hextra)).
    f_equal. apply seal_text_app. exact Hne.
  - unfold extract_seal_footer in Hs. rewrite Hl in Hs. discriminate.
Qed.

End SealFacts.

Lemma seal_stable_witness :
  extract_seal_footer (Sample.seal_lines ++ Sample.later_lines)
  = Some (join [10] [ SEAL_HEADER_1; SEAL_HEADER_2; py "In data 2023/05/10";
                      py "0123456789abcdef0123456789ABCDEF" ]).
Proof.
  apply (seal_stable Sample.seal_lines Sample.later_lines).
  - vm_compute. reflexivity.
  - vm_compute. discriminate.
  - vm_compute. eauto.
Defined.

(** ** Residenza without abbreviations, and dangling ids *)

Section TableFacts.

Context {R : Number} {U : Unicode}.

Implicit Types (blocks : list (@Block R)) (bmap : gmap pystr (@Block R)).
Implicit Types (rows : gmap Z (gmap Z pystr)).

Lemma replace_absent (old new s : pystr) :
  contains old s = false -> replace old new s = s.
Proof.
  unfold replace. induction s as [|c s IH]; [reflexivity|].
  cbn [contains]. intros H. apply orb_false_iff in H as [Hs Hc].
  cbn [replace_go]. rewrite Hs, (IH Hc). reflexivity.
Qed.

Lemma nd_match_starts (s : pystr) :
  match_seq (body ND_RE) s = true -> startswith [78; 100] s = true.
Proof.
  destruct s as [|c [|d s]]; cbn [ND_RE body match_seq startswith lit];
    try discriminate; [rewrite andb_false_r; discriminate|].
  intros H. apply andb_true_iff in H as [Hc H].
  apply andb_true_iff in H as [Hd _].
  apply N.eqb_eq in Hc, Hd. subst. reflexivity.
Qed.

Lemma sub_nd_absent (s : pystr) (prev : option char) :
  contains [78; 100] s = false -> sub_go ND_RE ED 0 prev s = s.
Proof.
  revert prev. induction s as [|c s IH]; intros prev; [reflexivity|].
  cbn [contains]. intros H. apply orb_false_iff in H as [Hs Hc].
  cbn [sub_go].
  assert (Hm : match_at ND_RE prev (c :: s) = false).
  { unfold match_at. destruct (match_seq (body ND_RE) (c :: s)) eqn:E.
    - apply nd_match_starts in E. congruence.
    - rewrite andb_false_r. reflexivity. }
  rewrite Hm, (IH _ Hc). reflexivity.
Qed.

(** X19.  A Residenza text in which none of the abbreviations occurs (no
    "Nd", and none of the eight strings of the replacement chain) comes
    out of the clean-up unchanged. *)
Theorem clean_residenza_unchanged (s : pystr) :
  contains (py "Nd") s = false ->
  Forall (fun r => contains (fst r) s = false) RESIDENZA_REPLACEMENTS ->
  clean_residenza s = s.
Proof.
  intros Hnd Hr. unfold clean_residenza, sub.
  rewrite (sub_nd_absent s None Hnd).
  induction Hr as [|r rs Hr Hrs IH]; [reflexivity|].
  cbn [fold_left]. rewrite (replace_absent _ _ _ Hr). exact IH.
Qed.

Lemma add_cells_dangling bmap (ids : list pystr) rows (id : pystr) :
  id ∈ ids -> bmap !! id = None -> add_cells bmap ids rows = None.
Proof.
  intros Hin Hid. revert rows. induction ids as [|cid ids IH]; intros rows;
    [inversion Hin|].
  cbn [add_cells]. apply elem_of_cons in Hin as [<-|Hin].
  - rewrite Hid. reflexivity.
  - destruct (bmap !! cid) as [cell|]; [|reflexivity]. cbn [mbind option_bind].
    destruct (negb (str_eqb (BlockType cell) CELL)); [apply IH; exact Hin|].
    destruct (RowIndex cell); [|reflexivity].
    destruct (ColumnIndex cell); [|reflexivity].
    destruct (cell_text bmap cell); [|reflexivity].
    cbn [mbind option_bind]. apply IH. exact Hin.
Qed.

Lemma add_relationships_dangling bmap (rels : list Relationship) rows
    (rel : Relationship) (id : pystr) :
  rel ∈ rels -> RelType rel = CHILD -> id ∈ Ids rel -> bmap !! id = None ->
  add_relationships bmap rels rows = None.
Proof.
  intros Hin Hc Hid Hnone. revert rows.
  induction rels as [|r rels IH]; intros rows; [inversion Hin|].
  cbn [add_relationships]. apply elem_of_cons in Hin as [<-|Hin].
  - apply str_eqb_true in Hc. rewrite Hc. cbn [negb].
    rewrite (add_cells_dangling bmap _ rows id Hid Hnone). reflexivity.
  - destruct (negb (str_eqb (RelType r) CHILD)); [apply IH; exact Hin|].
    destruct (add_cells bmap (Ids r) rows); [|reflexivity].
    cbn [mbind option_bind]. apply IH. exact Hin.
Qed.

(** X20.  An id of a CHILD relationship of the first TABLE block that is
    not a key of the block map makes the table extractor raise: the ids
    are looked up with [bmap[cid]], without a default. *)
Theorem table_dangling_id blocks bmap (tbl : Block) (rel : Relationship)
    (id : pystr) :
  first_table blocks = Some tbl ->
  rel ∈ default [] (Relationships tbl) -> RelType rel = CHILD ->
  id ∈ Ids rel -> bmap !! id = None ->
  extract_table_fields blocks bmap = None.
Proof.
  intros Ht Hrel Hc Hid Hnone. unfold extract_table_fields. rewrite Ht.
  rewrite (add_relationships_dangling bmap _ ∅ rel id Hrel Hc Hid Hnone).
  reflexivity.
Qed.

End TableFacts.

Lemma clean_residenza_unchanged_witness :
  clean_residenza (py "Rruga e Durrësit 12") = py "Rruga e Durrësit 12".
Proof.
  apply (clean_residenza_unchanged (py "Rruga e Durrësit 12")).
  - vm_compute. reflexivity.
  - repeat apply Forall_cons_2; try apply Forall_nil_2; vm_compute; reflexivity.
Defined.

Lemma table_dangling_id_witness :
  extract_table_fields [Sample.dangling_table]
    (block_map [Sample.dangling_table]) = None.
Proof.
  apply (table_dangling_id [Sample.dangling_table] _ Sample.dangling_table
           {| RelType := CHILD; Ids := [py "c"] |} (py "c")).
  - reflexivity.
  - left.
  - reflexivity.
  - left.
  - vm_compute. reflexivity.
Defined.
